(** * Prospector: the game engine of [prospector/server/game.py]

    A shallow embedding of [Player] (player.py), of [LandCell] and
    [ProspectorGame] (game.py) and of what server.py computes from a game
    ([format_grid_for_client], the score reported by [handle_place_fence]),
    followed by the properties of the engine: turn order, claim detection,
    lifecycle, failure atomicity, scoring and the save / restore round
    trip; then what holds along every run: what is permanent, how the
    grid, the counter and the history agree, the awards and the statistics.

    Conventions of the embedding.
    - Python [int] is [Z]; indices produced by [enumerate] or by [% len]
      (the turn pointer, a cell's owner) are [nat].
    - Time stamps returned by [time.time()] are opaque clock values, taken
      as [Z]; an operation that reads the clock receives its readings as
      arguments ([now], or [clock k] for the k-th reading site).
    - A raised [IndexError] is the [Raise] outcome of [result].
    - The roster holds distinct [Player] objects (server.py builds a new
      [Player] for every join and [from_dict] one per entry), so it is a
      list of player records; likewise the rows of the lattices and the
      land cells are distinct objects, built one by one by the constructor,
      and are lists of values. *)

From Stdlib Require Import ZArith Lia.
From stdpp Require Import base tactics option list strings numbers relations.

Local Open Scope Z_scope.

(** ** Exceptions *)

Inductive exn := IndexError.

Inductive result (A : Type) : Type :=
| Ok (a : A)
| Raise (e : exn).
Arguments Ok {A} a.
Arguments Raise {A} e.

Definition rbind {A B} (m : result A) (f : A → result B) : result B :=
  match m with
  | Ok a => f a
  | Raise e => Raise e
  end.

Global Instance exn_eq_dec : EqDecision exn.
Proof. solve_decision. Defined.

Global Instance result_eq_dec {A} `{EqDecision A} : EqDecision (result A).
Proof. solve_decision. Defined.

Global Instance result_ret : MRet result := λ A a, Ok a.
Global Instance result_bind : MBind result := λ A B f m, rbind m f.

(** The value of a computation that returned, [d] for one that raised. *)
Definition result_default {A} (d : A) (r : result A) : A :=
  match r with Ok a => a | Raise _ => d end.

(** [for x in xs: s = body x s], stopping at the first exception. *)
Fixpoint for_each {A S} (xs : list A) (body : A → S → result S) (s : S)
  : result S :=
  match xs with
  | [] => Ok s
  | x :: xs' => s' ← body x s; for_each xs' body s'
  end.

(** ** Python lists *)

(** [range(n)] *)
Definition range (n : Z) : list Z := Z.of_nat <$> seq 0 (Z.to_nat n).

(** [l[i]], with Python's negative indices. *)
Definition getitem {A} (l : list A) (i : Z) : result A :=
  let j := if i <? 0 then i + Z.of_nat (length l) else i in
  if j <? 0 then Raise IndexError
  else match l !! Z.to_nat j with
       | Some x => Ok x
       | None => Raise IndexError
       end.

(** [l[i] = x] *)
Definition setitem {A} (l : list A) (i : Z) (x : A) : result (list A) :=
  let j := if i <? 0 then i + Z.of_nat (length l) else i in
  if j <? 0 then Raise IndexError
  else if (Z.to_nat j <? length l)%nat then Ok (<[Z.to_nat j := x]> l)
       else Raise IndexError.

(** [m[i][j]] *)
Definition getitem2 {A} (m : list (list A)) (i j : Z) : result A :=
  row ← getitem m i; getitem row j.

(** [m[i][j] = x] *)
Definition setitem2 {A} (m : list (list A)) (i j : Z) (x : A)
  : result (list (list A)) :=
  row ← getitem m i;
  row' ← setitem row j x;
  setitem m i row'.

(** The entry at position [(i, j)] of a lattice, if there is one. *)
Definition entry {A} (m : list (list A)) (i j : nat) : option A :=
  m !! i ≫= (.!! j).

(** Truth value of a Python string and of an optional number. *)
Definition str_truthy (s : string) : bool := negb (String.eqb s "").

Definition opt_str_truthy (o : option string) : bool :=
  match o with Some s => str_truthy s | None => false end.

Definition opt_num_truthy (o : option Z) : bool :=
  match o with Some t => negb (t =? 0) | None => false end.

(** ** Constants

    [prospector/common/constants.py] is not part of the sources at hand; the
    names game.py imports from it are the fields of this class, and every
    definition and theorem below is parametric in them. *)

Class Constants := {
  DEFAULT_GRID_SIZE : Z;
  DEFAULT_PLAYERS : Z;
  MAX_PLAYERS : Z;
  DEFAULT_TURN_TIMEOUT : Z;
  ORIENTATION_HORIZONTAL : string;
  ORIENTATION_VERTICAL : string;
  LAND_TYPE_REGULAR : string;
  LAND_TYPE_COPPER : string;
  LAND_TYPE_SILVER : string;
  LAND_TYPE_GOLD : string;
  LAND_VALUE_REGULAR : Z;
  LAND_VALUE_COPPER : Z;
  LAND_VALUE_SILVER : Z;
  LAND_VALUE_GOLD : Z
}.

(** The three lifecycle states ([GAME_STATE_WAITING], [GAME_STATE_PLAYING],
    [GAME_STATE_FINISHED]). *)
Inductive GameState :=
| GAME_STATE_WAITING
| GAME_STATE_PLAYING
| GAME_STATE_FINISHED.

Global Instance GameState_eq_dec : EqDecision GameState.
Proof. solve_decision. Defined.

(** ** player.py *)

Module Player.

Record t := mk {
  name : string;
  id : string;
  score : Z;
  wins : Z;
  losses : Z;
  draws : Z;
  last_active : Z;
  games_played : Z
}.

(** [Player(name, player_id)]; [fresh] is the uuid drawn when no id is
    given. *)
Definition init (name_ : string) (player_id : option string)
    (fresh : string) (now : Z) : t :=
  {| name := name_;
     id := if opt_str_truthy player_id then default fresh player_id
           else fresh;
     score := 0; wins := 0; losses := 0; draws := 0;
     last_active := now; games_played := 0 |}.

Definition update_activity (now : Z) (p : t) : t :=
  mk (name p) (id p) (score p) (wins p) (losses p) (draws p)
     now (games_played p).

Definition win_game (p : t) : t :=
  mk (name p) (id p) (score p) (wins p + 1) (losses p) (draws p)
     (last_active p) (games_played p + 1).

Definition lose_game (p : t) : t :=
  mk (name p) (id p) (score p) (wins p) (losses p + 1) (draws p)
     (last_active p) (games_played p + 1).

Definition draw_game (p : t) : t :=
  mk (name p) (id p) (score p) (wins p) (losses p) (draws p + 1)
     (last_active p) (games_played p + 1).

Definition add_score (points : Z) (p : t) : t :=
  mk (name p) (id p) (score p + points) (wins p) (losses p) (draws p)
     (last_active p) (games_played p).

(** The dictionary of [to_dict]; an absent key is [None]. *)
Record dict := mk_dict {
  d_id : option string;
  d_name : option string;
  d_score : option Z;
  d_stats : option (option Z * option Z * option Z * option Z);
  d_last_active : option Z
}.

Definition to_dict (p : t) : dict :=
  {| d_id := Some (id p);
     d_name := Some (name p);
     d_score := Some (score p);
     d_stats := Some (Some (wins p), Some (losses p), Some (draws p),
                      Some (games_played p));
     d_last_active := Some (last_active p) |}.

Definition from_dict (data : dict) (fresh : string) (now : Z) : t :=
  let stats := default (None, None, None, None) (d_stats data) in
  let '(w, l, d, g) := stats in
  {| name := default "Unknown"%string (d_name data);
     id := default fresh (d_id data);
     score := default 0 (d_score data);
     wins := default 0 w;
     losses := default 0 l;
     draws := default 0 d;
     last_active := default now (d_last_active data);
     games_played := default 0 g |}.

End Player.

(** ** game.py: LandCell *)

Module LandCell.

Record t := mk {
  type : string;
  owner : option nat;
  value : Z
}.

Section WithConstants.
Context `{Constants}.

(** [value_map.get(land_type, LAND_VALUE_REGULAR)]: in the dictionary
    literal a later key overrides an equal earlier one. *)
Definition get_value_for_type (land_type : string) : Z :=
  if String.eqb land_type LAND_TYPE_GOLD then LAND_VALUE_GOLD
  else if String.eqb land_type LAND_TYPE_SILVER then LAND_VALUE_SILVER
  else if String.eqb land_type LAND_TYPE_COPPER then LAND_VALUE_COPPER
  else if String.eqb land_type LAND_TYPE_REGULAR then LAND_VALUE_REGULAR
  else LAND_VALUE_REGULAR.

Definition init (land_type : string) : t :=
  {| type := land_type; owner := None;
     value := get_value_for_type land_type |}.

Record dict := mk_dict {
  d_type : option string;
  d_value : option Z;
  d_owner : option nat
}.

Definition to_dict (c : t) : dict :=
  {| d_type := Some (type c); d_value := Some (value c);
     d_owner := owner c |}.

Definition from_dict (data : dict) : t :=
  {| type := default LAND_TYPE_REGULAR (d_type data);
     owner := d_owner data;
     value := default LAND_VALUE_REGULAR (d_value data) |}.

End WithConstants.

Definition set_owner (o : option nat) (c : t) : t :=
  mk (type c) o (value c).

End LandCell.


(** ** game.py: ProspectorGame *)

Module ProspectorGame.

(** Entries of [game_history]. *)
Inductive event :=
| fence_placed (player_id : string) (row col : Z) (orientation : string)
    (time : Z)
| land_claimed (player_id : string) (lands : list (Z * Z)) (score_gained : Z)
    (time : Z)
| player_left (player_id : string) (time : Z)
| game_over (time : Z).

(** The attributes of a game. [land_config] is left out: it is read only
    by [_distribute_land_types], whose shuffled outcome is an input of
    [init]. *)
Record t := mk {
  id : string;
  grid_size : Z;
  max_players : Z;
  players : list Player.t;
  current_player_idx : nat;
  state : GameState;
  start_time : option Z;
  turn_timeout : Z;
  turn_start_time : option Z;
  game_history : list event;
  horizontal_fences : list (list bool);
  vertical_fences : list (list bool);
  land_cells : list (list LandCell.t);
  unclaimed_lands : Z
}.

(** Attribute assignment [self.x = v]. *)
Definition with_players (v : list Player.t) (g : t) : t :=
  mk (id g) (grid_size g) (max_players g) v (current_player_idx g) (state g)
     (start_time g) (turn_timeout g) (turn_start_time g) (game_history g)
     (horizontal_fences g) (vertical_fences g) (land_cells g)
     (unclaimed_lands g).

Definition with_current_player_idx (v : nat) (g : t) : t :=
  mk (id g) (grid_size g) (max_players g) (players g) v (state g)
     (start_time g) (turn_timeout g) (turn_start_time g) (game_history g)
     (horizontal_fences g) (vertical_fences g) (land_cells g)
     (unclaimed_lands g).

Definition with_state (v : GameState) (g : t) : t :=
  mk (id g) (grid_size g) (max_players g) (players g) (current_player_idx g) v
     (start_time g) (turn_timeout g) (turn_start_time g) (game_history g)
     (horizontal_fences g) (vertical_fences g) (land_cells g)
     (unclaimed_lands g).

Definition with_start_time (v : option Z) (g : t) : t :=
  mk (id g) (grid_size g) (max_players g) (players g) (current_player_idx g)
     (state g) v (turn_timeout g) (turn_start_time g) (game_history g)
     (horizontal_fences g) (vertical_fences g) (land_cells g)
     (unclaimed_lands g).

Definition with_turn_start_time (v : option Z) (g : t) : t :=
  mk (id g) (grid_size g) (max_players g) (players g) (current_player_idx g)
     (state g) (start_time g) (turn_timeout g) v (game_history g)
     (horizontal_fences g) (vertical_fences g) (land_cells g)
     (unclaimed_lands g).

Definition with_game_history (v : list event) (g : t) : t :=
  mk (id g) (grid_size g) (max_players g) (players g) (current_player_idx g)
     (state g) (start_time g) (turn_timeout g) (turn_start_time g) v
     (horizontal_fences g) (vertical_fences g) (land_cells g)
     (unclaimed_lands g).

Definition with_horizontal_fences (v : list (list bool)) (g : t) : t :=
  mk (id g) (grid_size g) (max_players g) (players g) (current_player_idx g)
     (state g) (start_time g) (turn_timeout g) (turn_start_time g)
     (game_history g) v (vertical_fences g) (land_cells g)
     (unclaimed_lands g).

Definition with_vertical_fences (v : list (list bool)) (g : t) : t :=
  mk (id g) (grid_size g) (max_players g) (players g) (current_player_idx g)
     (state g) (start_time g) (turn_timeout g) (turn_start_time g)
     (game_history g) (horizontal_fences g) v (land_cells g)
     (unclaimed_lands g).

Definition with_land_cells (v : list (list LandCell.t)) (g : t) : t :=
  mk (id g) (grid_size g) (max_players g) (players g) (current_player_idx g)
     (state g) (start_time g) (turn_timeout g) (turn_start_time g)
     (game_history g) (horizontal_fences g) (vertical_fences g) v
     (unclaimed_lands g).

Definition with_unclaimed_lands (v : Z) (g : t) : t :=
  mk (id g) (grid_size g) (max_players g) (players g) (current_player_idx g)
     (state g) (start_time g) (turn_timeout g) (turn_start_time g)
     (game_history g) (horizontal_fences g) (vertical_fences g)
     (land_cells g) v.

(** [self.game_history.append(e)] *)
Definition record (e : event) (g : t) : t :=
  with_game_history (game_history g ++ [e]) g.

(** [enumerate(l)] *)
Definition enumerate {A} (l : list A) : list (nat * A) := imap pair l.

Section WithConstants.
Context `{Constants}.

(** [_distribute_land_types] fills the grid row by row from the shuffled
    list [land_types], which the padding loop makes at least
    [grid_size * grid_size] long; [land_types k] is its k-th entry. *)
Definition distribute_land_types (grid_size : Z) (land_types : nat → string)
  : list (list LandCell.t) :=
  (λ row, (λ col, LandCell.init (land_types (Z.to_nat (row * grid_size + col))))
          <$> range grid_size) <$> range grid_size.

(** [ProspectorGame(grid_size, max_players, game_id, land_config,
    turn_timeout)]; [fresh] is the uuid drawn when no id is given. *)
Definition init (grid_size_ max_players_ : Z) (game_id : option string)
    (fresh : string) (turn_timeout_ : Z) (land_types : nat → string) : t :=
  {| id := if opt_str_truthy game_id then default fresh game_id else fresh;
     grid_size := grid_size_;
     max_players := Z.min max_players_ MAX_PLAYERS;
     players := [];
     current_player_idx := 0%nat;
     state := GAME_STATE_WAITING;
     start_time := None;
     turn_timeout := turn_timeout_;
     turn_start_time := None;
     game_history := [];
     horizontal_fences :=
       replicate (Z.to_nat (grid_size_ + 1))
                 (replicate (Z.to_nat grid_size_) false);
     vertical_fences :=
       replicate (Z.to_nat grid_size_)
                 (replicate (Z.to_nat (grid_size_ + 1)) false);
     land_cells := distribute_land_types grid_size_ land_types;
     unclaimed_lands := grid_size_ * grid_size_ |}.

(** [add_player]: [clock 0] and [clock 1] are the two clock readings. *)
Definition add_player (g : t) (player : Player.t) (clock : nat → Z)
  : bool * t :=
  if Z.of_nat (length (players g)) <? max_players g then
    let g1 := with_players (players g ++ [player]) g in
    let g2 :=
      if 2 <=? Z.of_nat (length (players g1)) then
        with_turn_start_time (Some (clock 1%nat))
          (with_start_time (Some (clock 0%nat))
             (with_state GAME_STATE_PLAYING g1))
      else g1 in
    (true, g2)
  else (false, g).

(** [remove_player]. The third component is the [Player] object taken off
    the roster, as the call leaves it: the game no longer refers to it, its
    caller still does (server.py keeps it in [self.players]). *)
Definition remove_player (g : t) (player_id : string) (now : Z)
  : bool * t * option Player.t :=
  match list_find (λ p, Player.id p = player_id) (players g) with
  | Some (i, player) =>
      let g1 :=
        if decide (state g = GAME_STATE_PLAYING) then
          let others_won :=
            imap (λ j other, if decide (j ≠ i) then Player.win_game other
                             else other) (players g) in
          let all_updated := alter Player.lose_game i others_won in
          record (player_left player_id now)
            (with_state GAME_STATE_FINISHED (with_players all_updated g))
        else g in
      let departed := players g1 !! i in
      let g2 := with_players (delete i (players g1)) g1 in
      let g3 :=
        if (Z.of_nat (length (players g2)) <? 2)
           && bool_decide (state g2 = GAME_STATE_PLAYING)
        then with_state GAME_STATE_FINISHED g2
        else g2 in
      (true, g3, departed)
  | None => (false, g, None)
  end.

(** [get_current_player]: [Ok None] is Python's [None]. *)
Definition get_current_player (g : t) : result (option Player.t) :=
  if bool_decide (players g = [])
     || (length (players g) <=? current_player_idx g)%nat
  then Ok None
  else p ← getitem (players g) (Z.of_nat (current_player_idx g)); Ok (Some p).

Definition next_turn (g : t) (now : Z) : t :=
  if bool_decide (players g = []) then g
  else
    with_turn_start_time (Some now)
      (with_current_player_idx
         ((current_player_idx g + 1) `mod` length (players g))%nat g).

(** [end_game] *)
Definition find_winners (ps : list Player.t) : Z * list nat :=
  foldl (λ '(max_score, winners) '(i, player),
           if Player.score player >? max_score then (Player.score player, [i])
           else if Player.score player =? max_score
                then (max_score, winners ++ [i])
                else (max_score, winners))
        (-1, []) (enumerate ps).

Definition end_game (g : t) (now : Z) : t :=
  if decide (state g = GAME_STATE_FINISHED) then g
  else
    let g1 := record (game_over now) (with_state GAME_STATE_FINISHED g) in
    if Z.of_nat (length (players g1)) <? 2 then
      if bool_decide (players g1 = []) then g1
      else with_players (alter Player.win_game 0%nat (players g1)) g1
    else
      let winners := (find_winners (players g1)).2 in
      if (length winners =? 1)%nat then
        let winner_idx := hd 0%nat winners in
        let ps1 := alter Player.win_game winner_idx (players g1) in
        with_players
          (imap (λ i player, if decide (i ≠ winner_idx)
                             then Player.lose_game player else player) ps1)
          g1
      else
        let ps1 := foldl (λ ps i, alter Player.draw_game i ps)
                         (players g1) winners in
        with_players
          (imap (λ i player, if bool_decide (i ∉ winners)
                             then Player.lose_game player else player) ps1)
          g1.

(** The condition of the inner [if] of [check_claimed_land]: the four
    fences around cell [(row, col)], tested left to right; [and] stops at
    the first false one. *)
Definition enclosed (g : t) (row col : Z) : result bool :=
  top ← getitem2 (horizontal_fences g) row col;
  if negb top then Ok false else
  bottom ← getitem2 (horizontal_fences g) (row + 1) col;
  if negb bottom then Ok false else
  left ← getitem2 (vertical_fences g) row col;
  if negb left then Ok false else
  getitem2 (vertical_fences g) row (col + 1).

(** The body of the two loops of [check_claimed_land]. *)
Definition visit_cell (g : t) (row col : Z) (claimed : list (Z * Z))
  : result (list (Z * Z)) :=
  cell ← getitem2 (land_cells g) row col;
  match LandCell.owner cell with
  | None =>
      e ← enclosed g row col;
      if (e : bool) then Ok (claimed ++ [(row, col)]) else Ok claimed
  | Some _ => Ok claimed
  end.

Definition check_claimed_land (g : t) : result (list (Z * Z)) :=
  for_each (range (grid_size g))
    (λ row claimed,
       for_each (range (grid_size g))
         (λ col claimed, visit_cell g row col claimed) claimed)
    [].

(** Lines 216-237 of [place_fence]: the range check, the occupancy check
    and the assignment of the fence. [Ok None] is the early
    [return False, []]. *)
Definition set_fence (g : t) (row col : Z) (orientation : string)
  : result (option t) :=
  if String.eqb orientation ORIENTATION_HORIZONTAL then
    if negb ((0 <=? row) && (row <=? grid_size g)
             && (0 <=? col) && (col <? grid_size g))
    then Ok None
    else
      present ← getitem2 (horizontal_fences g) row col;
      if (present : bool) then Ok None
      else
        fences ← setitem2 (horizontal_fences g) row col true;
        Ok (Some (with_horizontal_fences fences g))
  else if String.eqb orientation ORIENTATION_VERTICAL then
    if negb ((0 <=? row) && (row <? grid_size g)
             && (0 <=? col) && (col <=? grid_size g))
    then Ok None
    else
      present ← getitem2 (vertical_fences g) row col;
      if (present : bool) then Ok None
      else
        fences ← setitem2 (vertical_fences g) row col true;
        Ok (Some (with_vertical_fences fences g))
  else Ok None.

(** Lines 260-264 of [place_fence]: the loop over the claimed cells, which
    sets their owner and sums their values. [claim_cell] is its body. *)
Definition claim_cell (owner_idx : nat) (cell : Z * Z)
    (acc : list (list LandCell.t) * Z) : result (list (list LandCell.t) * Z) :=
  let '(row, col) := cell in
  let '(cells, score_gained) := acc in
  land_cell ← getitem2 cells row col;
  cells' ← setitem2 cells row col
             (LandCell.set_owner (Some owner_idx) land_cell);
  Ok (cells', score_gained + LandCell.value land_cell).

Definition claim_cells (owner_idx : nat) (claimed : list (Z * Z))
    (cells : list (list LandCell.t)) : result (list (list LandCell.t) * Z) :=
  for_each claimed (claim_cell owner_idx) (cells, 0).

(** Whether the turn clock has run out at time [now] (lines 209-211). *)
Definition turn_expired (g : t) (now : Z) : bool :=
  (0 <? turn_timeout g) && opt_num_truthy (turn_start_time g)
  && (turn_timeout g <? now - default 0 (turn_start_time g)).

(** The game once the fence is set, the mover's activity updated and the
    move recorded (lines 239-250). *)
Definition moved (g1 : t) (player_id : string) (row col : Z)
    (orientation : string) (clock : nat → Z) : t :=
  record (fence_placed player_id row col orientation (clock 3%nat))
    (with_players
       (alter (Player.update_activity (clock 2%nat)) (current_player_idx g1)
              (players g1)) g1).

(** The game once the claimed cells are credited (lines 259-282). *)
Definition credited (g3 : t) (player_id : string) (claimed : list (Z * Z))
    (cells : list (list LandCell.t)) (score_gained : Z) (clock : nat → Z)
  : t :=
  let g7 :=
    record (land_claimed player_id claimed score_gained (clock 5%nat))
      (with_unclaimed_lands
         (unclaimed_lands g3 - Z.of_nat (length claimed))
         (with_players
            (alter (Player.add_score score_gained) (current_player_idx g3)
                   (players g3))
            (with_land_cells cells g3))) in
  if unclaimed_lands g7 =? 0 then end_game g7 (clock 6%nat) else g7.

(** [place_fence]. Clock readings: [clock 0] the expiry test, [clock 1]
    [next_turn] on expiry, [clock 2] [update_activity], [clock 3] the
    [fence_placed] entry, [clock 4] [next_turn] after a move that claims
    nothing, [clock 5] the [land_claimed] entry, [clock 6] [end_game],
    [clock 7] the final reset of the turn clock. *)
Definition place_fence (g : t) (player_id : string) (row col : Z)
    (orientation : string) (clock : nat → Z)
  : result (bool * list (Z * Z) * t) :=
  if decide (state g ≠ GAME_STATE_PLAYING) then Ok (false, [], g) else
  current_player ← get_current_player g;
  match current_player with
  | None => Ok (false, [], g)
  | Some current_player =>
  if negb (String.eqb (Player.id current_player) player_id)
  then Ok (false, [], g) else
  if turn_expired g (clock 0%nat)
  then Ok (false, [], next_turn g (clock 1%nat)) else
  placed ← set_fence g row col orientation;
  match placed with
  | None => Ok (false, [], g)
  | Some g1 =>
  let g3 := moved g1 player_id row col orientation clock in
  claimed_land ← check_claimed_land g3;
  if bool_decide (claimed_land = []) then
    Ok (true, claimed_land,
        with_turn_start_time (Some (clock 7%nat))
          (next_turn g3 (clock 4%nat)))
  else
    '(cells, score_gained) ←
       claim_cells (current_player_idx g3) claimed_land (land_cells g3);
    Ok (true, claimed_land,
        with_turn_start_time (Some (clock 7%nat))
          (credited g3 player_id claimed_land cells score_gained clock))
  end
  end.

(** [check_inactivity]: [clock 0] is the expiry test, [clock 1] the reading
    of [remove_player]. *)
Definition check_inactivity (g : t) (clock : nat → Z) : result (bool * t) :=
  if bool_decide (state g ≠ GAME_STATE_PLAYING)
     || negb (opt_num_truthy (turn_start_time g))
  then Ok (false, g) else
  current_player ← get_current_player g;
  match current_player with
  | None => Ok (false, g)
  | Some current_player =>
      if turn_timeout g <? clock 0%nat - default 0 (turn_start_time g) then
        Ok (true,
            (remove_player g (Player.id current_player) (clock 1%nat)).1.2)
      else Ok (false, g)
  end.

(** [get_replay] *)
Definition get_replay (g : t) : list event := game_history g.

(** [get_land_value]: 0 outside the grid. *)
Definition get_land_value (g : t) (row col : Z) : result Z :=
  if (0 <=? row) && (row <? grid_size g)
     && (0 <=? col) && (col <? grid_size g)
  then cell ← getitem2 (land_cells g) row col; Ok (LandCell.value cell)
  else Ok 0.

(** [get_land_type]: the regular type outside the grid. *)
Definition get_land_type (g : t) (row col : Z) : result string :=
  if (0 <=? row) && (row <? grid_size g)
     && (0 <=? col) && (col <? grid_size g)
  then cell ← getitem2 (land_cells g) row col; Ok (LandCell.type cell)
  else Ok LAND_TYPE_REGULAR.

(** The dictionary built by [to_dict] and read by [from_dict]; an absent
    key (or a null value) is [None]. *)
Record dict := mk_dict {
  d_id : option string;
  d_grid_size : option Z;
  d_max_players : option Z;
  d_state : option GameState;
  d_current_player_id : option string;
  d_players : option (list Player.dict);
  d_horizontal_fences : option (list (list bool));
  d_vertical_fences : option (list (list bool));
  d_land_cells : option (list (list LandCell.dict));
  d_unclaimed_lands : option Z;
  d_turn_timeout : option Z;
  d_turn_start_time : option Z;
  d_game_time : option Z
}.

(** The two loops of [to_dict] over the land cells. *)
Definition land_cells_to_dict (g : t) : result (list (list LandCell.dict)) :=
  for_each (range (grid_size g))
    (λ row land_cells_dict,
       row_dict ←
         for_each (range (grid_size g))
           (λ col row_dict,
              cell ← getitem2 (land_cells g) row col;
              Ok (row_dict ++ [LandCell.to_dict cell]))
           [];
       Ok (land_cells_dict ++ [row_dict]))
    [].

Definition to_dict (g : t) (now : Z) : result dict :=
  land_cells_dict ← land_cells_to_dict g;
  current_player ← get_current_player g;
  Ok {| d_id := Some (id g);
        d_grid_size := Some (grid_size g);
        d_max_players := Some (max_players g);
        d_state := Some (state g);
        d_current_player_id := Player.id <$> current_player;
        d_players := Some (Player.to_dict <$> players g);
        d_horizontal_fences := Some (horizontal_fences g);
        d_vertical_fences := Some (vertical_fences g);
        d_land_cells := Some land_cells_dict;
        d_unclaimed_lands := Some (unclaimed_lands g);
        d_turn_timeout := Some (turn_timeout g);
        d_turn_start_time := turn_start_time g;
        d_game_time :=
          Some (if opt_num_truthy (start_time g)
                then now - default 0 (start_time g) else 0) |}.

(** The two loops of [from_dict] that restore the land cells. *)
Definition restore_land_cells (grid_size_ : Z)
    (land_cells_data : list (list LandCell.dict))
    (cells : list (list LandCell.t)) : result (list (list LandCell.t)) :=
  for_each (range (Z.min (Z.of_nat (length land_cells_data)) grid_size_))
    (λ row cells,
       row_data ← getitem land_cells_data row;
       for_each (range (Z.min (Z.of_nat (length row_data)) grid_size_))
         (λ col cells,
            cell_data ← getitem row_data col;
            setitem2 cells row col (LandCell.from_dict cell_data))
         cells)
    cells.

(** [from_dict]. [uuid 0] and [land_types] are the random draws of the
    constructor, [clock 0] the reading for [start_time]; [uuid (k + 1)] and
    [clock (k + 1)] are the defaults drawn for the k-th player. *)
Definition from_dict (data : dict) (uuid : nat → string) (clock : nat → Z)
    (land_types : nat → string) : result t :=
  let game :=
    init (default DEFAULT_GRID_SIZE (d_grid_size data))
         (default DEFAULT_PLAYERS (d_max_players data))
         (d_id data) (uuid 0%nat)
         (default DEFAULT_TURN_TIMEOUT (d_turn_timeout data)) land_types in
  let game := with_state (default GAME_STATE_WAITING (d_state data)) game in
  let game :=
    with_unclaimed_lands
      (default (grid_size game * grid_size game) (d_unclaimed_lands data))
      game in
  let game := with_turn_start_time (d_turn_start_time data) game in
  let game :=
    with_start_time
      (if decide (state game ≠ GAME_STATE_WAITING)
       then Some (clock 0%nat - default 0 (d_game_time data)) else None)
      game in
  let game :=
    with_players
      (players game
       ++ imap (λ k player_data,
                  Player.from_dict player_data (uuid (S k)) (clock (S k)))
               (default [] (d_players data)))
      game in
  let game :=
    if opt_str_truthy (d_current_player_id data) then
      match list_find (λ p, Some (Player.id p) = d_current_player_id data)
                      (players game) with
      | Some (i, _) => with_current_player_idx i game
      | None => game
      end
    else game in
  let game :=
    with_horizontal_fences
      (default (horizontal_fences game) (d_horizontal_fences data)) game in
  let game :=
    with_vertical_fences
      (default (vertical_fences game) (d_vertical_fences data)) game in
  match d_land_cells data with
  | Some ((_ :: _) as land_cells_data) =>
      cells ← restore_land_cells (grid_size game) land_cells_data
                (land_cells game);
      Ok (with_land_cells cells game)
  | _ => Ok game
  end.

End WithConstants.

(** ** Runs of the engine

    [reachable g]: [g] is a game built by the constructor and driven by the
    operations of the engine, every player joining as a new [Player]. *)
Section Reachable.
Context `{Constants}.

Inductive reachable : t → Prop :=
| reach_init grid_size_ max_players_ game_id fresh turn_timeout_ land_types :
    reachable
      (init grid_size_ max_players_ game_id fresh turn_timeout_ land_types)
| reach_add_player g name_ player_id fresh now clock :
    reachable g →
    reachable (add_player g (Player.init name_ player_id fresh now) clock).2
| reach_remove_player g player_id now :
    reachable g →
    reachable (remove_player g player_id now).1.2
| reach_place_fence g player_id row col orientation clock ok claimed g' :
    reachable g →
    place_fence g player_id row col orientation clock = Ok (ok, claimed, g') →
    reachable g'
| reach_check_inactivity g clock ok g' :
    reachable g →
    check_inactivity g clock = Ok (ok, g') →
    reachable g'
| reach_end_game g now :
    reachable g →
    reachable (end_game g now).

(** [step g g']: one call of an operation of the engine takes [g] to [g']. *)
Inductive step : t → t → Prop :=
| step_add_player g player clock :
    step g (add_player g player clock).2
| step_remove_player g player_id now :
    step g (remove_player g player_id now).1.2
| step_place_fence g player_id row col orientation clock ok claimed g' :
    place_fence g player_id row col orientation clock = Ok (ok, claimed, g') →
    step g g'
| step_check_inactivity g clock ok g' :
    check_inactivity g clock = Ok (ok, g') →
    step g g'
| step_end_game g now :
    step g (end_game g now).

End Reachable.

End ProspectorGame.

(** ** Vocabulary of the properties *)

Module Grid.
Import ProspectorGame.

(** The two tests [check_claimed_land] makes on cell [(row, col)]: its owner
    is unset and its four fences are there. *)
Definition qualifies (g : t) (row col : Z) : result bool :=
  cell ← getitem2 (land_cells g) row col;
  match LandCell.owner cell with
  | None => enclosed g row col
  | Some _ => Ok false
  end.

(** The cells [check_claimed_land] returns, in the order of the scan. *)
Definition scan (g : t) : list (Z * Z) :=
  range (grid_size g) ≫= λ row,
    pair row <$> filter (λ col, qualifies g row col = Ok true)
                        (range (grid_size g)).

(** A matrix of [rows] rows of [cols] entries each. *)
Definition has_shape {A} (rows cols : Z) (m : list (list A)) : Prop :=
  length m = Z.to_nat rows ∧ Forall (λ row, length row = Z.to_nat cols) m.

(** The dimensions the constructor gives to the lattices and to the land:
    (N+1) x N horizontal fences, N x (N+1) vertical fences, N x N cells. *)
Definition well_shaped (g : t) : Prop :=
  has_shape (grid_size g + 1) (grid_size g) (horizontal_fences g) ∧
  has_shape (grid_size g) (grid_size g + 1) (vertical_fences g) ∧
  has_shape (grid_size g) (grid_size g) (land_cells g).

(** The cell read by [self.land_cells[row][col]]. *)
Definition cell_at (g : t) (row col : Z) : LandCell.t :=
  result_default (LandCell.mk "" None 0) (getitem2 (land_cells g) row col).

(** The turn index survives a save and restore: it is 0, or it designates
    a player whose id is not empty and is not the id of an earlier player
    of the roster. *)
Definition pointer_survives (g : t) : Prop :=
  current_player_idx g = 0%nat ∨
  ∃ p, players g !! current_player_idx g = Some p ∧
       Player.id p ≠ ""%string ∧
       ∀ j q, (j < current_player_idx g)%nat → players g !! j = Some q →
              Player.id q ≠ Player.id p.

End Grid.

Module Score.
Import ProspectorGame.

Definition zsum (l : list Z) : Z := foldr Z.add 0 l.

(** The sum of [f] over all the land cells. *)
Definition land_sum (f : LandCell.t → Z) (cells : list (list LandCell.t))
  : Z :=
  zsum ((λ row, zsum (f <$> row)) <$> cells).

(** The value of the cells whose owner field is the roster index [k]. *)
Definition owned_value (k : nat) (cells : list (list LandCell.t)) : Z :=
  land_sum (λ c, if decide (LandCell.owner c = Some k) then LandCell.value c
                 else 0) cells.

Definition unowned_value (cells : list (list LandCell.t)) : Z :=
  land_sum (λ c, if decide (LandCell.owner c = None) then LandCell.value c
                 else 0) cells.

Definition total_value (cells : list (list LandCell.t)) : Z :=
  land_sum LandCell.value cells.

(** The score invariant: every player's score is the value of the cells
    that player owns, and the scores and the unowned cells add up to the
    value of the grid. *)
Definition score_invariant (g : t) : Prop :=
  (∀ k p, players g !! k = Some p →
          Player.score p = owned_value k (land_cells g)) ∧
  zsum (Player.score <$> players g) + unowned_value (land_cells g)
  = total_value (land_cells g).

(** No cell is owned by an index at or past [n]. *)
Definition owners_below (n : nat) (cells : list (list LandCell.t)) : Prop :=
  Forall (Forall (λ c, ∀ k, LandCell.owner c = Some k → (k < n)%nat)) cells.

(** The score invariant on the list of scores, with what keeps it when a
    player joins (no cell is owned by an index past the roster) and when a
    player leaves a waiting game (nothing is scored or owned yet). *)
Definition scores_match (scores : list Z) (cells : list (list LandCell.t))
    (waiting : Prop) : Prop :=
  (∀ k s, scores !! k = Some s → s = owned_value k cells) ∧
  zsum scores + unowned_value cells = total_value cells ∧
  owners_below (length scores) cells ∧
  (waiting →
   Forall (λ s, s = 0) scores ∧
   Forall (Forall (λ c, LandCell.owner c = None)) cells).

Definition engine_invariant (g : t) : Prop :=
  scores_match (Player.score <$> players g) (land_cells g)
               (state g = GAME_STATE_WAITING).

Section Runs.
Context `{Constants}.

(** Runs of the engine in which no player leaves a game that has started:
    [remove_player] is called on a waiting game or for an unknown id only,
    and [check_inactivity] removes nobody. *)
Inductive reachable_keeping_players : t → Prop :=
| keep_init grid_size_ max_players_ game_id fresh turn_timeout_ land_types :
    reachable_keeping_players
      (init grid_size_ max_players_ game_id fresh turn_timeout_ land_types)
| keep_add_player g name_ player_id fresh now clock :
    reachable_keeping_players g →
    reachable_keeping_players
      (add_player g (Player.init name_ player_id fresh now) clock).2
| keep_remove_player g player_id now :
    reachable_keeping_players g →
    state g = GAME_STATE_WAITING ∨ (remove_player g player_id now).1.1 = false →
    reachable_keeping_players (remove_player g player_id now).1.2
| keep_place_fence g player_id row col orientation clock ok claimed g' :
    reachable_keeping_players g →
    place_fence g player_id row col orientation clock = Ok (ok, claimed, g') →
    reachable_keeping_players g'
| keep_check_inactivity g clock g' :
    reachable_keeping_players g →
    check_inactivity g clock = Ok (false, g') →
    reachable_keeping_players g'
| keep_end_game g now :
    reachable_keeping_players g →
    reachable_keeping_players (end_game g now).

End Runs.

End Score.

(** ** server.py: what the server computes from a game *)

Module ProspectorServer.
Import ProspectorGame.

(** A cell of the grid sent to the clients. *)
Record client_cell := mk_client_cell {
  top_fence : bool;
  bottom_fence : bool;
  left_fence : bool;
  right_fence : bool;
  cell_owner : option nat
}.

(** A cell with no fence and no owner, the value of a read that fails. *)
Definition no_cell : client_cell := mk_client_cell false false false false None.

(** The dictionary built for cell [(row, col)] by [format_grid_for_client].
    A [ProspectorGame] has the attribute [land_cells] and none called
    [claimed_lands]: the owner comes from the land cell when [land_cells]
    is not empty and is [None] otherwise. *)
Definition format_cell (g : t) (row col : Z) : result client_cell :=
  top ← getitem2 (horizontal_fences g) row col;
  bottom ← getitem2 (horizontal_fences g) (row + 1) col;
  left ← getitem2 (vertical_fences g) row col;
  right ← getitem2 (vertical_fences g) row (col + 1);
  if bool_decide (land_cells g ≠ []) then
    cell ← getitem2 (land_cells g) row col;
    Ok (mk_client_cell top bottom left right (LandCell.owner cell))
  else Ok (mk_client_cell top bottom left right None).

(** [format_grid_for_client] *)
Definition format_grid_for_client (g : t) : result (list (list client_cell)) :=
  for_each (range (grid_size g))
    (λ row grid,
       grid_row ←
         for_each (range (grid_size g))
           (λ col grid_row,
              cell ← format_cell g row col; Ok (grid_row ++ [cell]))
           [];
       Ok (grid ++ [grid_row]))
    [].

Section WithConstants.
Context `{Constants}.

(** Lines 342-344 of [handle_place_fence]: the score reported to the
    client for the cells claimed by a move. *)
Definition reported_score_gained (g : t) (claimed_land : list (Z * Z))
  : result Z :=
  for_each claimed_land
    (λ (cell : Z * Z) (score_gained : Z),
       let '(land_row, land_col) := cell in
       value ← get_land_value g land_row land_col;
       Ok (score_gained + value))
    0.

End WithConstants.

End ProspectorServer.

Module Land.
Import ProspectorGame.

(** The value of the cell at [(row, col)], 0 where there is no cell. *)
Definition value_at (cells : list (list LandCell.t)) (rc : Z * Z) : Z :=
  from_option LandCell.value 0 (entry cells (Z.to_nat rc.1) (Z.to_nat rc.2)).

(** The summed value of a list of cells. *)
Definition claimed_value (cells : list (list LandCell.t))
    (claimed : list (Z * Z)) : Z :=
  Score.zsum (value_at cells <$> claimed).

(** The number of cells without an owner. *)
Definition unowned_count (cells : list (list LandCell.t)) : Z :=
  Score.land_sum (λ c, if decide (LandCell.owner c = None) then 1 else 0)
                 cells.

(** The counter of a game on a grid of side N >= 0 is the number of its
    unowned cells. *)
Definition counter_is_exact (g : t) : Prop :=
  0 ≤ grid_size g → unclaimed_lands g = unowned_count (land_cells g).

(** The entries of the history that record a move: a fence or a claim. *)
Definition is_move (e : event) : Prop :=
  match e with
  | fence_placed _ _ _ _ _ | land_claimed _ _ _ _ => True
  | _ => False
  end.

(** The four fences around the cell at [(i, j)] are set. *)
Definition fenced_in (g : t) (i j : nat) : Prop :=
  entry (horizontal_fences g) i j = Some true ∧
  entry (horizontal_fences g) (S i) j = Some true ∧
  entry (vertical_fences g) i j = Some true ∧
  entry (vertical_fences g) i (S j) = Some true.

(** The cell at [(i, j)] has an owner. *)
Definition owned (g : t) (i j : nat) : Prop :=
  ∃ cell k, entry (land_cells g) i j = Some cell ∧
            LandCell.owner cell = Some k.

(** The statistics of a player add up: every game played was won, lost or
    drawn, and no counter is negative. *)
Definition tally (p : Player.t) : Prop :=
  Player.games_played p = Player.wins p + Player.losses p + Player.draws p ∧
  0 ≤ Player.wins p ∧ 0 ≤ Player.losses p ∧ 0 ≤ Player.draws p.

(** In the grid, a cell is owned exactly when its four fences are set. *)
Definition enclosure (g : t) : Prop :=
  ∀ i j, (i < Z.to_nat (grid_size g))%nat → (j < Z.to_nat (grid_size g))%nat →
         owned g i j ↔ fenced_in g i j.

End Land.

(** ** Sample data

    A valuation of the constants and a few games, used to run the engine on
    concrete inputs. The orientations are those of the docstring of
    [place_fence]; server.py announces two players and a turn of 60 seconds. *)

Definition sample_constants : Constants :=
  {| DEFAULT_GRID_SIZE := 5; DEFAULT_PLAYERS := 2; MAX_PLAYERS := 4;
     DEFAULT_TURN_TIMEOUT := 60;
     ORIENTATION_HORIZONTAL := "horizontal";
     ORIENTATION_VERTICAL := "vertical";
     LAND_TYPE_REGULAR := "regular"; LAND_TYPE_COPPER := "copper";
     LAND_TYPE_SILVER := "silver"; LAND_TYPE_GOLD := "gold";
     LAND_VALUE_REGULAR := 1; LAND_VALUE_COPPER := 2;
     LAND_VALUE_SILVER := 3; LAND_VALUE_GOLD := 5 |}.

Module Sample.
Import ProspectorGame.
#[local] Existing Instance sample_constants.

Definition alice : Player.t := Player.init "alice" None "a" 1.
Definition bob : Player.t := Player.init "bob" None "b" 1.
Definition carol : Player.t := Player.init "carol" None "c" 1.

(** Every clock reading of a call returns [now]. *)
Definition at_time (now : Z) : nat → Z := λ _, now.

(** A 2 x 2 grid whose cell (0,0) is gold. *)
Definition new_game : t :=
  init 2 2 None "g" 60 (λ k, if (k =? 0)%nat then "gold" else "regular").

Definition one_player : t := (add_player new_game alice (at_time 1)).2.
Definition two_players : t := (add_player one_player bob (at_time 1)).2.

(** A successful move; the game is left as it is when the move fails. *)
Definition move (g : t) (player_id : string) (row col : Z)
    (orientation : string) : t :=
  match place_fence g player_id row col orientation (at_time 2) with
  | Ok (true, _, g') => g'
  | _ => g
  end.

(** Three fences around cell (0,0), then the fourth one, placed by bob. *)
Definition three_fences : t :=
  move (move (move two_players "a" 0 0 "horizontal") "b" 1 0 "horizontal")
       "a" 0 0 "vertical".
Definition bob_claimed : t := move three_fences "b" 0 1 "vertical".

(** The four fences of cell (0,0) are set and the cell is not yet owned. *)
Definition fenced : t :=
  with_vertical_fences [[true; true; false]; [false; false; false]]
    three_fences.


(** Alice leaves after bob's claim. *)
Definition alice_left : t := (remove_player bob_claimed "a" 9).1.2.

(** Bob leaves after his claim. *)
Definition bob_left : t := (remove_player bob_claimed "b" 9).1.2.

End Sample.

(** * Properties *)

Import ProspectorGame.

(** ** The error monad and Python lists *)

Section PythonLists.
Implicit Types (i j : Z).

Lemma bind_Ok {B C} (f : B → result C) (r : result B) (c : C) :
  r ≫= f = Ok c ↔ ∃ b, r = Ok b ∧ f b = Ok c.
Proof.
  destruct r as [b|e]; simpl.
  - split; [eauto | intros (b' & [= ->] & ?); done].
  - split; [done | intros (? & ? & ?); done].
Qed.

Lemma getitem_nonneg {A} (l : list A) i :
  0 ≤ i →
  getitem l i = match l !! Z.to_nat i with
                | Some x => Ok x
                | None => Raise IndexError
                end.
Proof.
  intros Hi. unfold getitem.
  destruct (Z.ltb_spec i 0); [lia|].
  destruct (Z.ltb_spec i 0); [lia|]. done.
Qed.

Lemma getitem_Ok {A} (l : list A) i x :
  0 ≤ i → getitem l i = Ok x ↔ l !! Z.to_nat i = Some x.
Proof.
  intros Hi. rewrite getitem_nonneg by done.
  destruct (l !! Z.to_nat i); split; congruence.
Qed.

Lemma getitem_of_nat {A} (l : list A) (k : nat) x :
  l !! k = Some x → getitem l (Z.of_nat k) = Ok x.
Proof.
  intros Hk. apply getitem_Ok; [lia|]. by rewrite Nat2Z.id.
Qed.

Lemma setitem_Ok {A} (l : list A) i x l' :
  0 ≤ i →
  setitem l i x = Ok l' ↔
  (Z.to_nat i < length l)%nat ∧ l' = <[Z.to_nat i := x]> l.
Proof.
  intros Hi. unfold setitem.
  destruct (Z.ltb_spec i 0); [lia|].
  destruct (Z.ltb_spec i 0); [lia|].
  destruct (Nat.ltb_spec (Z.to_nat i) (length l)).
  - split; [intros [= <-]; done | intros [_ ->]; done].
  - split; [done | intros [? _]; lia].
Qed.

Lemma getitem2_Ok {A} (m : list (list A)) i j x :
  0 ≤ i → 0 ≤ j →
  getitem2 m i j = Ok x ↔
  ∃ row, m !! Z.to_nat i = Some row ∧ row !! Z.to_nat j = Some x.
Proof.
  intros Hi Hj. unfold getitem2. rewrite bind_Ok.
  split; intros (row & Hrow & Hx); exists row.
  - by rewrite <- !getitem_Ok by done.
  - by rewrite !getitem_Ok by done.
Qed.

Lemma setitem2_Ok {A} (m : list (list A)) i j x m' :
  0 ≤ i → 0 ≤ j →
  setitem2 m i j x = Ok m' ↔
  ∃ row, m !! Z.to_nat i = Some row ∧ (Z.to_nat j < length row)%nat ∧
         m' = <[Z.to_nat i := <[Z.to_nat j := x]> row]> m.
Proof.
  intros Hi Hj. unfold setitem2. rewrite bind_Ok. split.
  - intros (row & Hrow & Hset). apply bind_Ok in Hset as (row' & Hrow' & Hm).
    apply getitem_Ok in Hrow; [|done].
    apply setitem_Ok in Hrow' as [? ->]; [|done].
    apply setitem_Ok in Hm as [? ->]; [|done]. eauto.
  - intros (row & Hrow & Hlt & ->). exists row. split; [by apply getitem_Ok|].
    apply bind_Ok. exists (<[Z.to_nat j := x]> row).
    split; [by apply setitem_Ok|].
    apply setitem_Ok; [done|]. split; [|done].
    by eapply lookup_lt_Some.
Qed.

Lemma elem_of_range (n k : Z) : k ∈ range n ↔ 0 ≤ k < n.
Proof.
  unfold range. rewrite list_elem_of_fmap. split.
  - intros (y & -> & Hy). apply elem_of_seq in Hy. lia.
  - intros Hk. exists (Z.to_nat k). split; [lia|]. apply elem_of_seq. lia.
Qed.

Lemma NoDup_range (n : Z) : NoDup (range n).
Proof.
  unfold range. apply (NoDup_fmap_2 Z.of_nat), NoDup_seq.
Qed.

Lemma length_range (n : Z) : length (range n) = Z.to_nat n.
Proof. unfold range. by rewrite length_fmap, length_seq. Qed.

End PythonLists.


(** ** The course of [place_fence] *)

Section PlaceFenceCases.
Context `{Constants}.

Lemma set_fence_Some g row col orientation g1 :
  set_fence g row col orientation = Ok (Some g1) →
  (orientation = ORIENTATION_HORIZONTAL ∧
   0 ≤ row ≤ grid_size g ∧ 0 ≤ col < grid_size g ∧
   getitem2 (horizontal_fences g) row col = Ok false ∧
   ∃ fences, setitem2 (horizontal_fences g) row col true = Ok fences ∧
             g1 = with_horizontal_fences fences g)
  ∨
  (orientation ≠ ORIENTATION_HORIZONTAL ∧
   orientation = ORIENTATION_VERTICAL ∧
   0 ≤ row < grid_size g ∧ 0 ≤ col ≤ grid_size g ∧
   getitem2 (vertical_fences g) row col = Ok false ∧
   ∃ fences, setitem2 (vertical_fences g) row col true = Ok fences ∧
             g1 = with_vertical_fences fences g).
Proof.
  unfold set_fence. intros Hset.
  destruct (String.eqb_spec orientation ORIENTATION_HORIZONTAL) as [Ho|Ho].
  - left. destruct (negb _) eqn:Hrange; [done|].
    apply negb_false_iff in Hrange.
    apply andb_prop in Hrange as [Hrange Hc2].
    apply andb_prop in Hrange as [Hrange Hc1].
    apply andb_prop in Hrange as [Hr1 Hr2].
    apply bind_Ok in Hset as ([] & Hget & Hset); [done|].
    apply bind_Ok in Hset as (fences & Hfences & [= <-]).
    repeat split; try lia; eauto.
  - right. destruct (String.eqb_spec orientation ORIENTATION_VERTICAL) as [Hv|Hv];
      [|done].
    destruct (negb _) eqn:Hrange; [done|].
    apply negb_false_iff in Hrange.
    apply andb_prop in Hrange as [Hrange Hc2].
    apply andb_prop in Hrange as [Hrange Hc1].
    apply andb_prop in Hrange as [Hr1 Hr2].
    apply bind_Ok in Hset as ([] & Hget & Hset); [done|].
    apply bind_Ok in Hset as (fences & Hfences & [= <-]).
    repeat split; try lia; eauto.
Qed.

Lemma place_fence_true g player_id row col orientation clock claimed g' :
  place_fence g player_id row col orientation clock = Ok (true, claimed, g') →
  ∃ current_player g1,
    state g = GAME_STATE_PLAYING ∧
    get_current_player g = Ok (Some current_player) ∧
    Player.id current_player = player_id ∧
    turn_expired g (clock 0%nat) = false ∧
    set_fence g row col orientation = Ok (Some g1) ∧
    let g3 := moved g1 player_id row col orientation clock in
    check_claimed_land g3 = Ok claimed ∧
    ((claimed = [] ∧
      g' = with_turn_start_time (Some (clock 7%nat))
             (next_turn g3 (clock 4%nat)))
     ∨
     (claimed ≠ [] ∧
      ∃ cells score_gained,
        claim_cells (current_player_idx g3) claimed (land_cells g3)
          = Ok (cells, score_gained) ∧
        g' = with_turn_start_time (Some (clock 7%nat))
               (credited g3 player_id claimed cells score_gained clock))).
Proof.
  unfold place_fence. intros Hpf.
  destruct (decide (state g ≠ _)) as [|Hst]; [done|].
  apply dec_stable in Hst.
  apply bind_Ok in Hpf as ([cp|] & Hcur & Hpf); [|done].
  destruct (String.eqb_spec (Player.id cp) player_id) as [Hid|]; [|done].
  simpl in Hpf.
  destruct (turn_expired g (clock 0%nat)) eqn:Hexp; [done|].
  apply bind_Ok in Hpf as ([g1|] & Hset & Hpf); [|done].
  apply bind_Ok in Hpf as (cl & Hcl & Hpf).
  exists cp, g1. do 5 (split; [done|]). simpl.
  case_bool_decide as Hnil.
  - injection Hpf as <- <-. split; [done|]. left. done.
  - apply bind_Ok in Hpf as ([cells gained] & Hcells & [= <- <-]).
    split; [done|]. right. split; [done|]. exists cells, gained. done.
Qed.

Lemma place_fence_false g player_id row col orientation clock claimed g' :
  place_fence g player_id row col orientation clock
    = Ok (false, claimed, g') →
  claimed = [] ∧
  (g' = g ∨
   (state g = GAME_STATE_PLAYING ∧ turn_expired g (clock 0%nat) = true ∧
    (∃ current_player, get_current_player g = Ok (Some current_player)) ∧
    g' = next_turn g (clock 1%nat))).
Proof.
  unfold place_fence. intros Hpf.
  destruct (decide (state g ≠ _)) as [|Hst];
    [injection Hpf as <- <-; auto|].
  apply dec_stable in Hst.
  apply bind_Ok in Hpf as ([cp|] & Hcur & Hpf);
    [|injection Hpf as <- <-; auto].
  destruct (negb _); [injection Hpf as <- <-; auto|].
  destruct (turn_expired g (clock 0%nat)) eqn:Hexp;
    [injection Hpf as <- <-; eauto 10|].
  apply bind_Ok in Hpf as ([g1|] & Hset & Hpf);
    [|injection Hpf as <- <-; auto].
  apply bind_Ok in Hpf as (cl & Hcl & Hpf).
  case_bool_decide; [done|].
  apply bind_Ok in Hpf as ([cells gained] & Hcells & [=]).
Qed.

End PlaceFenceCases.

(** ** What the roster updates leave alone *)

Section RosterUpdates.
Context {B : Type} (proj : Player.t → B).

Lemma fmap_alter_keep (f : Player.t → Player.t) (i : nat)
    (ps : list Player.t) :
  (∀ p, proj (f p) = proj p) →
  proj <$> alter f i ps = proj <$> ps.
Proof.
  intros Hf. revert i.
  induction ps as [|p ps IH]; intros [|i]; csimpl; try done.
  - by rewrite Hf.
  - f_equal. apply IH.
Qed.

Lemma fmap_imap_keep (f : nat → Player.t → Player.t) (ps : list Player.t) :
  (∀ i p, proj (f i p) = proj p) →
  proj <$> imap f ps = proj <$> ps.
Proof.
  revert f. induction ps as [|p ps IH]; intros f Hf; simpl; [done|].
  rewrite Hf. f_equal. apply IH. intros i q. apply Hf.
Qed.

Lemma fmap_foldl_alter_keep (f : Player.t → Player.t) (idxs : list nat)
    (ps : list Player.t) :
  (∀ p, proj (f p) = proj p) →
  proj <$> foldl (λ ps i, alter f i ps) ps idxs = proj <$> ps.
Proof.
  intros Hf. revert ps.
  induction idxs as [|i idxs IH]; intros ps; simpl; [done|].
  rewrite IH. by apply fmap_alter_keep.
Qed.

End RosterUpdates.

Section EndGame.

Lemma end_game_state g now : state (end_game g now) = GAME_STATE_FINISHED.
Proof.
  unfold end_game. repeat case_match; done.
Qed.

Lemma end_game_finished g now :
  state g = GAME_STATE_FINISHED → end_game g now = g.
Proof. unfold end_game. intros ->. done. Qed.

(** [end_game] touches the state, the history and the players' statistics
    only. *)
Lemma end_game_frame g now :
  let g' := end_game g now in
  grid_size g' = grid_size g ∧ max_players g' = max_players g ∧
  current_player_idx g' = current_player_idx g ∧
  horizontal_fences g' = horizontal_fences g ∧
  vertical_fences g' = vertical_fences g ∧
  land_cells g' = land_cells g ∧ unclaimed_lands g' = unclaimed_lands g ∧
  turn_start_time g' = turn_start_time g ∧ turn_timeout g' = turn_timeout g.
Proof.
  unfold end_game. repeat case_match; done.
Qed.

Lemma end_game_keep {B} (proj : Player.t → B) g now :
  (∀ p, proj (Player.win_game p) = proj p) →
  (∀ p, proj (Player.lose_game p) = proj p) →
  (∀ p, proj (Player.draw_game p) = proj p) →
  proj <$> players (end_game g now) = proj <$> players g.
Proof.
  intros Hw Hl Hd. unfold end_game. repeat case_match; simpl; try done.
  - by apply fmap_alter_keep.
  - rewrite fmap_imap_keep; [by apply fmap_alter_keep|].
    intros i p. by case_match.
  - rewrite fmap_imap_keep; [by apply fmap_foldl_alter_keep|].
    intros i p. by case_match.
Qed.

Lemma end_game_scores g now :
  Player.score <$> players (end_game g now) = Player.score <$> players g.
Proof. by apply end_game_keep. Qed.

Lemma end_game_length g now :
  length (players (end_game g now)) = length (players g).
Proof.
  rewrite <- (length_fmap Player.score), end_game_scores.
  apply length_fmap.
Qed.

End EndGame.

(** ** The current player *)

Section CurrentPlayer.

Lemma get_current_player_in (g : t) :
  (current_player_idx g < length (players g))%nat →
  ∃ p, players g !! current_player_idx g = Some p ∧
       get_current_player g = Ok (Some p).
Proof.
  intros Hlt. destruct (lookup_lt_is_Some_2 _ _ Hlt) as [p Hp].
  exists p. split; [done|]. unfold get_current_player.
  case_bool_decide as Hnil.
  { rewrite Hnil in Hlt. simpl in Hlt. lia. }
  destruct (Nat.leb_spec (length (players g)) (current_player_idx g));
    [lia|].
  simpl. by rewrite (getitem_of_nat _ _ _ Hp).
Qed.

Lemma get_current_player_out (g : t) :
  players g = [] ∨ (length (players g) ≤ current_player_idx g)%nat →
  get_current_player g = Ok None.
Proof.
  intros Hor. unfold get_current_player.
  case_bool_decide as Hnil; [done|].
  destruct Hor as [|Hle]; [done|].
  destruct (Nat.leb_spec (length (players g)) (current_player_idx g));
    [done|lia].
Qed.

Lemma get_current_player_Some g p :
  get_current_player g = Ok (Some p) →
  players g !! current_player_idx g = Some p ∧
  (current_player_idx g < length (players g))%nat.
Proof.
  destruct (Nat.lt_ge_cases (current_player_idx g) (length (players g)))
    as [Hlt|Hge].
  - destruct (get_current_player_in g Hlt) as (q & Hq & Hcur). split; congruence.
  - rewrite get_current_player_out by auto. done.
Qed.

Lemma get_current_player_returns (g : t) :
  ∃ r, get_current_player g = Ok r.
Proof.
  destruct (Nat.lt_ge_cases (current_player_idx g) (length (players g)))
    as [Hlt|Hge].
  - destruct (get_current_player_in g Hlt) as (p & _ & Hp). eauto.
  - rewrite get_current_player_out by auto. eauto.
Qed.

(** C9. [get_current_player] never raises: it returns [None] when the roster
    is empty or the turn index is at or past its end, and the player at the
    turn index otherwise. *)
Theorem get_current_player_total (g : t) :
  (∃ r, get_current_player g = Ok r) ∧
  (players g = [] ∨ (length (players g) ≤ current_player_idx g)%nat →
   get_current_player g = Ok None) ∧
  ((current_player_idx g < length (players g))%nat →
   ∃ p, players g !! current_player_idx g = Some p ∧
        get_current_player g = Ok (Some p)).
Proof.
  split; [apply get_current_player_returns|].
  split; [apply get_current_player_out|apply get_current_player_in].
Qed.

Lemma get_current_player_total_witness :
  get_current_player Sample.alice_left = Ok None ∧
  ∃ p, players Sample.two_players
         !! current_player_idx Sample.two_players = Some p ∧
       get_current_player Sample.two_players = Ok (Some p).
Proof.
  split.
  - apply (get_current_player_total Sample.alice_left).
    right. vm_compute. lia.
  - apply (get_current_player_total Sample.two_players).
    vm_compute. lia.
Defined.

End CurrentPlayer.

(** ** Leaving a game *)

Section RemovePlayer.

Lemma imap_all_win (f : nat → nat) (i : nat) (ps : list Player.t) :
  (∀ j, f j ≠ i) →
  imap (λ j other, if decide (f j ≠ i) then Player.win_game other else other)
       ps
  = Player.win_game <$> ps.
Proof.
  revert f. induction ps as [|p ps IH]; intros f Hf; simpl; [done|].
  destruct (decide (f 0%nat ≠ i)) as [_|Heq]; [|destruct Heq; apply Hf].
  f_equal. apply (IH (f ∘ S)). intros j. apply Hf.
Qed.

(** The roster after the departure: the player at [i] is popped, every
    other player has won. *)
Lemma delete_departed (i : nat) (ps : list Player.t) :
  delete i
    (alter Player.lose_game i
       (imap (λ j other, if decide (j ≠ i) then Player.win_game other
                         else other) ps))
  = Player.win_game <$> delete i ps.
Proof.
  revert i. induction ps as [|p ps IH]; intros i; [by destruct i|].
  destruct i as [|i]; csimpl.
  - apply (imap_all_win S 0%nat). lia.
  - destruct (decide (0%nat ≠ S i)) as [_|Heq]; [|lia].
    f_equal. rewrite <- IH. do 2 f_equal.
    apply imap_ext. intros j q _. simpl.
    destruct (decide (S j ≠ S i)), (decide (j ≠ i)); (done || lia).
Qed.

Lemma lookup_departed (i : nat) (ps : list Player.t) (p : Player.t) :
  ps !! i = Some p →
  alter Player.lose_game i
    (imap (λ j other, if decide (j ≠ i) then Player.win_game other
                      else other) ps) !! i
  = Some (Player.lose_game p).
Proof.
  intros Hp. rewrite list_lookup_alter_eq, list_lookup_imap, Hp. simpl.
  destruct (decide (i ≠ i)); done.
Qed.

Lemma remove_player_absent g player_id now :
  player_id ∉ Player.id <$> players g →
  remove_player g player_id now = (false, g, None).
Proof.
  intros Hnotin. unfold remove_player.
  destruct (list_find _ _) as [[i p]|] eqn:Hfind; [|done].
  apply list_find_Some in Hfind as (Hp & Hid & _).
  destruct Hnotin. apply list_elem_of_fmap. exists p. split; [done|].
  by eapply list_elem_of_lookup_2.
Qed.

(** C5. In a game that is being played, removing a player of the roster
    credits a win to every remaining player and a loss to the one who
    leaves, finishes the game, records a [player_left] entry and returns
    [True]; removing an unknown player returns [False] and changes nothing. *)
Theorem remove_player_while_playing g player_id now :
  state g = GAME_STATE_PLAYING →
  (player_id ∈ Player.id <$> players g →
   ∃ i leaver g',
     list_find (λ p, Player.id p = player_id) (players g) = Some (i, leaver) ∧
     remove_player g player_id now
       = (true, g', Some (Player.lose_game leaver)) ∧
     Player.losses (Player.lose_game leaver) = Player.losses leaver + 1 ∧
     players g' = Player.win_game <$> delete i (players g) ∧
     Forall2 (λ before after, Player.wins after = Player.wins before + 1)
             (delete i (players g)) (players g') ∧
     state g' = GAME_STATE_FINISHED ∧
     game_history g' = game_history g ++ [player_left player_id now])
  ∧
  (player_id ∉ Player.id <$> players g →
   remove_player g player_id now = (false, g, None)).
Proof.
  intros Hplaying. split; [|apply remove_player_absent].
  intros Hin. apply list_elem_of_fmap in Hin as (q & Hq & Hin).
  destruct (list_find_elem_of (λ p, Player.id p = player_id) (players g) q)
    as [[i leaver] Hfind]; [done..|].
  pose proof Hfind as (Hleaver & _ & _)%list_find_Some.
  exists i, leaver. eexists. split; [done|].
  unfold remove_player. rewrite Hfind.
  destruct (decide (state g = GAME_STATE_PLAYING)); [|done]. simpl.
  rewrite (lookup_departed _ _ _ Hleaver), delete_departed, andb_false_r.
  split; [reflexivity|]. simpl. split; [done|]. split; [done|].
  split; [|done].
  apply Forall2_fmap_r, Forall_Forall2_diag, Forall_true. done.
Qed.

Lemma remove_player_while_playing_witness :
  (∃ i leaver g',
     list_find (λ p, Player.id p = "b"%string) (players Sample.bob_claimed)
       = Some (i, leaver) ∧
     remove_player Sample.bob_claimed "b" 9
       = (true, g', Some (Player.lose_game leaver)) ∧
     Player.losses (Player.lose_game leaver) = Player.losses leaver + 1 ∧
     players g' = Player.win_game <$> delete i (players Sample.bob_claimed) ∧
     Forall2 (λ before after, Player.wins after = Player.wins before + 1)
             (delete i (players Sample.bob_claimed)) (players g') ∧
     state g' = GAME_STATE_FINISHED ∧
     game_history g'
       = game_history Sample.bob_claimed ++ [player_left "b" 9])
  ∧ remove_player Sample.bob_claimed "z" 9 = (false, Sample.bob_claimed, None).
Proof.
  split.
  - apply (remove_player_while_playing Sample.bob_claimed "b" 9).
    + reflexivity.
    + apply (bool_decide_unpack _). vm_compute. exact I.
  - apply (remove_player_while_playing Sample.bob_claimed "z" 9).
    + reflexivity.
    + apply (bool_decide_unpack _). vm_compute. exact I.
Defined.

End RemovePlayer.

(** ** What the operations leave alone *)

Section Frames.
Context `{Constants}.

Lemma set_fence_frame g row col orientation g1 :
  set_fence g row col orientation = Ok (Some g1) →
  players g1 = players g ∧ current_player_idx g1 = current_player_idx g ∧
  state g1 = state g ∧ land_cells g1 = land_cells g ∧
  unclaimed_lands g1 = unclaimed_lands g ∧
  game_history g1 = game_history g ∧ max_players g1 = max_players g ∧
  grid_size g1 = grid_size g.
Proof.
  intros [(_ & _ & _ & _ & fences & _ & ->)|(_ & _ & _ & _ & _ & fences & _ & ->)]
    %set_fence_Some; done.
Qed.

Lemma next_turn_frame g now :
  let g' := next_turn g now in
  players g' = players g ∧ state g' = state g ∧
  land_cells g' = land_cells g ∧ unclaimed_lands g' = unclaimed_lands g ∧
  game_history g' = game_history g ∧ max_players g' = max_players g ∧
  grid_size g' = grid_size g ∧
  horizontal_fences g' = horizontal_fences g ∧
  vertical_fences g' = vertical_fences g.
Proof. unfold next_turn. case_bool_decide; done. Qed.

Lemma credited_frame g3 player_id claimed cells score_gained clock :
  let g' := credited g3 player_id claimed cells score_gained clock in
  grid_size g' = grid_size g3 ∧ max_players g' = max_players g3 ∧
  current_player_idx g' = current_player_idx g3 ∧
  horizontal_fences g' = horizontal_fences g3 ∧
  vertical_fences g' = vertical_fences g3 ∧
  land_cells g' = cells ∧
  unclaimed_lands g' = unclaimed_lands g3 - Z.of_nat (length claimed) ∧
  Player.score <$> players g'
    = Player.score
        <$> alter (Player.add_score score_gained) (current_player_idx g3)
                  (players g3).
Proof.
  unfold credited. simpl. case_match; [|done].
  rewrite end_game_scores.
  pose proof (end_game_frame
    (record (land_claimed player_id claimed score_gained (clock 5%nat))
       (with_unclaimed_lands
          (unclaimed_lands g3 - Z.of_nat (length claimed))
          (with_players
             (alter (Player.add_score score_gained) (current_player_idx g3)
                    (players g3))
             (with_land_cells cells g3))))
    (clock 6%nat)) as Hframe.
  simpl in Hframe. destruct_and!. repeat split; done.
Qed.

(** A successful move keeps the size of the grid and of the roster. *)
Lemma place_fence_sizes g player_id row col orientation clock ok claimed g' :
  place_fence g player_id row col orientation clock = Ok (ok, claimed, g') →
  max_players g' = max_players g ∧ grid_size g' = grid_size g ∧
  length (players g') = length (players g).
Proof.
  destruct ok; intros Hpf.
  - apply place_fence_true in Hpf
      as (cp & g1 & _ & _ & _ & _ & Hset & _ & Hcases).
    apply set_fence_frame in Hset as (Hps & _ & _ & _ & _ & _ & Hmax & Hgs).
    destruct Hcases as [[_ ->]|(_ & cells & gained & _ & ->)].
    + simpl. pose proof (next_turn_frame
        (moved g1 player_id row col orientation clock) (clock 4%nat))
        as (Hps' & _ & _ & _ & _ & Hmax' & Hgs' & _).
      rewrite Hps', Hmax', Hgs'. simpl.
      rewrite length_alter, Hps. done.
    + simpl. pose proof (credited_frame
        (moved g1 player_id row col orientation clock)
        player_id claimed cells gained clock)
        as (Hgs' & Hmax' & _ & _ & _ & _ & _ & Hsc).
      rewrite Hgs', Hmax'. simpl. do 2 (split; [done|]).
      rewrite <- (length_fmap Player.score), Hsc, length_fmap.
      simpl. rewrite !length_alter, Hps. done.
  - apply place_fence_false in Hpf as (_ & [->|(_ & _ & _ & ->)]); [done|].
    pose proof (next_turn_frame g (clock 1%nat)) as Hframe. simpl in Hframe.
    destruct_and!. repeat split; congruence.
Qed.

Lemma length_delete_le {A} (i : nat) (l : list A) :
  (length (delete i l) ≤ length l)%nat.
Proof.
  revert i. induction l as [|x l IH]; intros [|i]; simpl; try lia.
  specialize (IH i). lia.
Qed.

Lemma remove_player_sizes g player_id now :
  let g' := (remove_player g player_id now).1.2 in
  max_players g' = max_players g ∧ grid_size g' = grid_size g ∧
  (length (players g') ≤ length (players g))%nat.
Proof.
  unfold remove_player.
  destruct (list_find _ _) as [[i p]|]; simpl; [|done].
  destruct (decide (state g = GAME_STATE_PLAYING)); simpl;
    (destruct (_ && _); simpl; repeat split; try done;
     (etransitivity; [apply length_delete_le|]);
     rewrite ?length_alter, ?length_imap; done).
Qed.

Lemma check_inactivity_cases g clock ok g' :
  check_inactivity g clock = Ok (ok, g') →
  (ok = false ∧ g' = g) ∨
  (ok = true ∧ state g = GAME_STATE_PLAYING ∧
   ∃ player_id, g' = (remove_player g player_id (clock 1%nat)).1.2).
Proof.
  unfold check_inactivity. intros Hci.
  destruct (bool_decide _ || _) eqn:Hguard; [left; by injection Hci|].
  apply orb_false_elim in Hguard as [Hst _].
  apply bool_decide_eq_false, dec_stable in Hst.
  apply bind_Ok in Hci as ([cp|] & _ & Hci); [|left; by injection Hci].
  case_match; injection Hci as <- <-; [right|left]; eauto.
Qed.

End Frames.

(** ** Joining a game *)

Section Capacity.
Context `{Constants}.

Lemma add_player_room g player clock :
  Z.of_nat (length (players g)) < max_players g →
  (add_player g player clock).1 = true ∧
  players (add_player g player clock).2 = players g ++ [player] ∧
  max_players (add_player g player clock).2 = max_players g.
Proof.
  intros Hroom. unfold add_player.
  destruct (Z.ltb_spec (Z.of_nat (length (players g))) (max_players g));
    [|lia].
  simpl. case_match; done.
Qed.

Lemma add_player_full g player clock :
  max_players g ≤ Z.of_nat (length (players g)) →
  add_player g player clock = (false, g).
Proof.
  intros Hfull. unfold add_player.
  destruct (Z.ltb_spec (Z.of_nat (length (players g))) (max_players g));
    [lia|done].
Qed.

Lemma reachable_capacity g :
  reachable g →
  Z.of_nat (length (players g)) ≤ Z.max 0 (max_players g) ∧
  max_players g ≤ MAX_PLAYERS.
Proof.
  induction 1 as [| g name_ pid fresh now clock _ [IHlen IHmax]
                  | g pid now _ [IHlen IHmax]
                  | g pid row col o clock ok claimed g' _ [IHlen IHmax] Hpf
                  | g clock ok g' _ [IHlen IHmax] Hci
                  | g now _ [IHlen IHmax]].
  - simpl. lia.
  - destruct (Z.lt_ge_cases (Z.of_nat (length (players g))) (max_players g))
      as [Hroom|Hfull].
    + destruct (add_player_room g (Player.init name_ pid fresh now) clock Hroom)
        as (_ & -> & ->).
      rewrite length_app. simpl. lia.
    + rewrite add_player_full by done. done.
  - destruct (remove_player_sizes g pid now) as (-> & _ & Hle). lia.
  - apply place_fence_sizes in Hpf as (-> & _ & ->). done.
  - apply check_inactivity_cases in Hci as [[_ ->]|(_ & _ & pid & ->)];
      [done|].
    destruct (remove_player_sizes g pid (clock 1%nat)) as (-> & _ & Hle). lia.
  - rewrite end_game_length.
    destruct (end_game_frame g now) as (_ & -> & _). done.
Qed.

(** C10. A game asked for [m] players admits [min(m, MAX_PLAYERS)]:
    [add_player] appends the player and returns [True] below that size,
    returns [False] and changes nothing once it is reached, and the roster
    of a game never exceeds the capacity, which is at most [MAX_PLAYERS]. *)
Theorem roster_capacity :
  (∀ grid_size_ m game_id fresh turn_timeout_ land_types,
     max_players (init grid_size_ m game_id fresh turn_timeout_ land_types)
     = Z.min m MAX_PLAYERS) ∧
  (∀ g player clock,
     Z.of_nat (length (players g)) < max_players g →
     ∃ g', add_player g player clock = (true, g') ∧
           players g' = players g ++ [player] ∧
           max_players g' = max_players g) ∧
  (∀ g player clock,
     max_players g ≤ Z.of_nat (length (players g)) →
     add_player g player clock = (false, g)) ∧
  (∀ g, reachable g →
        Z.of_nat (length (players g)) ≤ Z.max 0 (max_players g) ∧
        max_players g ≤ MAX_PLAYERS).
Proof.
  split; [done|]. split; [|split; [apply add_player_full|apply reachable_capacity]].
  intros g player clock Hroom.
  destruct (add_player_room g player clock Hroom) as (Hok & Hps & Hmax).
  exists (add_player g player clock).2. split; [|done].
  destruct (add_player g player clock) as [ok g']. simpl in *. by subst.
Qed.

End Capacity.

(** The sample games are runs of the engine. *)
Lemma two_players_reachable :
  reachable (H := sample_constants) Sample.two_players.
Proof.
  apply (reach_add_player _ "bob" None "b" 1 (Sample.at_time 1)).
  apply (reach_add_player _ "alice" None "a" 1 (Sample.at_time 1)).
  apply reach_init.
Qed.

Lemma bob_claimed_reachable :
  reachable (H := sample_constants) Sample.bob_claimed.
Proof.
  pose proof two_players_reachable as Hr.
  eapply (reach_place_fence _ "a" 0 0 "horizontal" (Sample.at_time 2)) in Hr;
    [|vm_compute; reflexivity].
  eapply (reach_place_fence _ "b" 1 0 "horizontal" (Sample.at_time 2)) in Hr;
    [|vm_compute; reflexivity].
  eapply (reach_place_fence _ "a" 0 0 "vertical" (Sample.at_time 2)) in Hr;
    [|vm_compute; reflexivity].
  eapply (reach_place_fence _ "b" 0 1 "vertical" (Sample.at_time 2)) in Hr;
    [|vm_compute; reflexivity].
  exact Hr.
Qed.

Lemma alice_left_reachable :
  reachable (H := sample_constants) Sample.alice_left.
Proof. apply reach_remove_player, bob_claimed_reachable. Qed.

Lemma roster_capacity_witness :
  (∃ g', add_player Sample.one_player Sample.bob (Sample.at_time 1)
           = (true, g') ∧
         players g' = players Sample.one_player ++ [Sample.bob] ∧
         max_players g' = max_players Sample.one_player) ∧
  add_player Sample.two_players Sample.carol (Sample.at_time 3)
    = (false, Sample.two_players) ∧
  Z.of_nat (length (players Sample.two_players))
    ≤ Z.max 0 (max_players Sample.two_players) ∧
  max_players Sample.two_players ≤ 4.
Proof.
  destruct (roster_capacity (H := sample_constants))
    as (_ & Hroom & Hfull & Hreach).
  split; [|split].
  - apply Hroom. vm_compute. reflexivity.
  - apply Hfull. vm_compute. discriminate.
  - apply Hreach, two_players_reachable.
Defined.

(** ** The lifecycle *)

Section Lifecycle.
Context `{Constants}.

Lemma remove_player_not_playing g player_id now :
  state g ≠ GAME_STATE_PLAYING →
  remove_player g player_id now
  = match list_find (λ p, Player.id p = player_id) (players g) with
    | Some (i, p) => (true, with_players (delete i (players g)) g, Some p)
    | None => (false, g, None)
    end.
Proof.
  intros Hst. unfold remove_player.
  destruct (list_find _ _) as [[i p]|] eqn:Hfind; [|done].
  apply list_find_Some in Hfind as (Hp & _).
  destruct (decide (state g = GAME_STATE_PLAYING)); [done|].
  simpl. rewrite bool_decide_eq_false_2 by done.
  by rewrite andb_false_r, Hp.
Qed.

(** On a finished game [remove_player], [place_fence], [check_inactivity]
    and [end_game] leave the state, the grid and the scores of the players
    who stay as they are. *)
Lemma finished_is_kept_by_the_other_operations g :
  state g = GAME_STATE_FINISHED →
  (∀ player_id now,
     let g' := (remove_player g player_id now).1.2 in
     state g' = GAME_STATE_FINISHED ∧
     horizontal_fences g' = horizontal_fences g ∧
     vertical_fences g' = vertical_fences g ∧
     land_cells g' = land_cells g ∧
     (players g' = players g ∨ ∃ i, players g' = delete i (players g))) ∧
  (∀ player_id row col orientation clock,
     place_fence g player_id row col orientation clock = Ok (false, [], g)) ∧
  (∀ clock, check_inactivity g clock = Ok (false, g)) ∧
  (∀ now, end_game g now = g).
Proof.
  intros Hfin. split; [|split; [|split]].
  - intros player_id now.
    rewrite remove_player_not_playing by (rewrite Hfin; done).
    destruct (list_find _ _) as [[i p]|]; simpl; eauto 10.
  - intros. unfold place_fence. by rewrite Hfin.
  - intros. unfold check_inactivity. by rewrite Hfin.
  - intros. by apply end_game_finished.
Qed.

(** [add_player] never touches the grid nor the players already there. *)
Lemma add_player_frame g player clock :
  let g' := (add_player g player clock).2 in
  horizontal_fences g' = horizontal_fences g ∧
  vertical_fences g' = vertical_fences g ∧
  land_cells g' = land_cells g ∧
  unclaimed_lands g' = unclaimed_lands g ∧
  grid_size g' = grid_size g ∧
  current_player_idx g' = current_player_idx g ∧
  (players g' = players g ∨ players g' = players g ++ [player]).
Proof.
  unfold add_player. repeat case_match; simpl; auto 10.
Qed.

(** C3, as the code has it: [add_player] does not look at the state, so a
    finished game that has room and is joined by a second player is set
    back to [playing]. *)
Theorem add_player_reopens_finished_game g player clock :
  state g = GAME_STATE_FINISHED →
  (1 ≤ length (players g))%nat →
  Z.of_nat (length (players g)) < max_players g →
  (add_player g player clock).1 = true ∧
  state (add_player g player clock).2 = GAME_STATE_PLAYING.
Proof.
  intros Hfin Hone Hroom. unfold add_player.
  destruct (Z.ltb_spec (Z.of_nat (length (players g))) (max_players g));
    [|lia].
  simpl. rewrite length_app. simpl.
  destruct (Z.leb_spec 2 (Z.of_nat (length (players g) + 1))); [done|lia].
Qed.

End Lifecycle.

Lemma add_player_reopens_finished_game_witness :
  state Sample.alice_left = GAME_STATE_FINISHED ∧
  (add_player Sample.alice_left Sample.carol (Sample.at_time 10)).1 = true ∧
  state (add_player Sample.alice_left Sample.carol (Sample.at_time 10)).2
    = GAME_STATE_PLAYING.
Proof.
  split; [reflexivity|].
  apply (add_player_reopens_finished_game Sample.alice_left).
  - reflexivity.
  - vm_compute. lia.
  - vm_compute. reflexivity.
Defined.

(** ** Placing a fence *)

Section PlaceFence.
Context `{Constants}.

Lemma next_turn_nonempty g now :
  players g ≠ [] →
  next_turn g now
  = with_turn_start_time (Some now)
      (with_current_player_idx
         ((current_player_idx g + 1) `mod` length (players g))%nat g).
Proof. intros Hne. unfold next_turn. by rewrite bool_decide_eq_false_2. Qed.

Lemma current_player_nonempty g p :
  get_current_player g = Ok (Some p) → players g ≠ [].
Proof.
  intros [Hp _]%get_current_player_Some Hnil. by rewrite Hnil in Hp.
Qed.

(** C4. A call of [place_fence] that returns [False] sets no fence, changes
    no owner and no score, appends nothing to the history and leaves the
    count of unclaimed cells as it is; it changes nothing at all unless the
    turn clock had run out, in which case the turn index advances and the
    turn clock is reset. *)
Theorem place_fence_failure_is_atomic
    g player_id row col orientation clock claimed g' :
  place_fence g player_id row col orientation clock
    = Ok (false, claimed, g') →
  claimed = [] ∧
  horizontal_fences g' = horizontal_fences g ∧
  vertical_fences g' = vertical_fences g ∧
  land_cells g' = land_cells g ∧
  players g' = players g ∧
  game_history g' = game_history g ∧
  unclaimed_lands g' = unclaimed_lands g ∧
  state g' = state g ∧
  (g' = g ∨
   (turn_expired g (clock 0%nat) = true ∧
    g' = with_turn_start_time (Some (clock 1%nat))
           (with_current_player_idx
              ((current_player_idx g + 1) `mod` length (players g))%nat g))).
Proof.
  intros (-> & [->|(_ & Hexp & [cp Hcp] & ->)])%place_fence_false.
  - repeat split; auto.
  - rewrite next_turn_nonempty by (by eapply current_player_nonempty).
    repeat split; auto.
Qed.

End PlaceFence.

Lemma place_fence_failure_is_atomic_witness :
  let g := Sample.two_players in
  let g' := with_turn_start_time (Some 100)
              (with_current_player_idx 1%nat g) in
  ([] : list (Z * Z)) = [] ∧
  horizontal_fences g' = horizontal_fences g ∧
  vertical_fences g' = vertical_fences g ∧
  land_cells g' = land_cells g ∧
  players g' = players g ∧
  game_history g' = game_history g ∧
  unclaimed_lands g' = unclaimed_lands g ∧
  state g' = state g ∧
  (g' = g ∨
   (turn_expired g 100 = true ∧
    g' = with_turn_start_time (Some 100)
           (with_current_player_idx
              ((current_player_idx g + 1) `mod` length (players g))%nat g))).
Proof.
  apply (place_fence_failure_is_atomic (H := sample_constants)
           Sample.two_players "a" 0 0 "horizontal" (Sample.at_time 100)).
  vm_compute. reflexivity.
Defined.

Section PlaceFenceFences.
Context `{Constants}.

(** The fences of the game after a successful move are those set by
    [set_fence]. *)
Lemma place_fence_fences g player_id row col orientation clock claimed g' :
  place_fence g player_id row col orientation clock = Ok (true, claimed, g') →
  ∃ g1, set_fence g row col orientation = Ok (Some g1) ∧
        horizontal_fences g' = horizontal_fences g1 ∧
        vertical_fences g' = vertical_fences g1.
Proof.
  intros (cp & g1 & _ & _ & _ & _ & Hset & _ & Hcases)%place_fence_true.
  exists g1. split; [done|].
  destruct Hcases as [[_ ->]|(_ & cells & gained & _ & ->)]; simpl.
  - pose proof (next_turn_frame
      (moved g1 player_id row col orientation clock) (clock 4%nat)) as Hf.
    simpl in Hf. destruct_and!. split; congruence.
  - pose proof (credited_frame
      (moved g1 player_id row col orientation clock)
      player_id claimed cells gained clock) as Hf.
    simpl in Hf. destruct_and!. split; congruence.
Qed.

(** Setting one entry of a lattice. *)
Lemma entry_setitem2 {A} (m m' : list (list A)) (row col : Z) (x y : A) :
  0 ≤ row → 0 ≤ col →
  getitem2 m row col = Ok x →
  setitem2 m row col y = Ok m' →
  entry m (Z.to_nat row) (Z.to_nat col) = Some x ∧
  entry m' (Z.to_nat row) (Z.to_nat col) = Some y ∧
  (∀ i j, (i, j) ≠ (Z.to_nat row, Z.to_nat col) →
          entry m' i j = entry m i j) ∧
  length m' = length m ∧
  length <$> m' = length <$> m.
Proof.
  intros Hrow Hcol (r & Hr & Hx)%getitem2_Ok (r' & Hr' & Hlt & ->)%setitem2_Ok;
    try done.
  assert (r' = r) as -> by congruence.
  assert (Hlen : (Z.to_nat row < length m)%nat) by by eapply lookup_lt_Some.
  unfold entry. repeat split.
  - by rewrite Hr.
  - rewrite list_lookup_insert_eq by done. simpl.
    by rewrite list_lookup_insert_eq.
  - intros i j Hne. destruct (decide (i = Z.to_nat row)) as [->|Hi].
    + rewrite list_lookup_insert_eq, Hr by done. simpl.
      rewrite list_lookup_insert_ne; [done|]. congruence.
    + by rewrite list_lookup_insert_ne.
  - by rewrite length_insert.
  - rewrite list_fmap_insert, length_insert.
    apply list_insert_id. by rewrite list_lookup_fmap, Hr.
Qed.

(** C8. A successful [place_fence] turns exactly one entry of exactly one
    lattice from false to true: the entry [(row, col)] of the lattice named
    by the orientation. Every other entry of that lattice and the whole
    other lattice are unchanged. *)
Theorem place_fence_sets_one_fence
    g player_id row col orientation clock claimed g' :
  place_fence g player_id row col orientation clock = Ok (true, claimed, g') →
  0 ≤ row ∧ 0 ≤ col ∧
  ((orientation = ORIENTATION_HORIZONTAL ∧
    entry (horizontal_fences g) (Z.to_nat row) (Z.to_nat col) = Some false ∧
    entry (horizontal_fences g') (Z.to_nat row) (Z.to_nat col) = Some true ∧
    (∀ i j, (i, j) ≠ (Z.to_nat row, Z.to_nat col) →
            entry (horizontal_fences g') i j
            = entry (horizontal_fences g) i j) ∧
    length <$> horizontal_fences g' = length <$> horizontal_fences g ∧
    vertical_fences g' = vertical_fences g)
   ∨
   (orientation = ORIENTATION_VERTICAL ∧
    entry (vertical_fences g) (Z.to_nat row) (Z.to_nat col) = Some false ∧
    entry (vertical_fences g') (Z.to_nat row) (Z.to_nat col) = Some true ∧
    (∀ i j, (i, j) ≠ (Z.to_nat row, Z.to_nat col) →
            entry (vertical_fences g') i j = entry (vertical_fences g) i j) ∧
    length <$> vertical_fences g' = length <$> vertical_fences g ∧
    horizontal_fences g' = horizontal_fences g)).
Proof.
  intros (g1 & Hset & Hh & Hv)%place_fence_fences.
  apply set_fence_Some in Hset
    as [(Ho & Hrow & Hcol & Hget & fences & Hfences & ->)
       |(_ & Ho & Hrow & Hcol & Hget & fences & Hfences & ->)];
    simpl in Hh, Hv; rewrite Hh, Hv;
    (split; [lia|]); (split; [lia|]);
    destruct (entry_setitem2 _ _ row col _ _ ltac:(lia) ltac:(lia)
                Hget Hfences) as (? & ? & ? & ? & ?);
    [left|right]; done.
Qed.

End PlaceFenceFences.

Lemma place_fence_sets_one_fence_witness :
  let g := Sample.two_players in
  let g' := Sample.move g "a" 0 0 "horizontal" in
  0 ≤ 0 ∧ 0 ≤ 0 ∧
  (("horizontal"%string = "horizontal"%string ∧
    entry (horizontal_fences g) 0 0 = Some false ∧
    entry (horizontal_fences g') 0 0 = Some true ∧
    (∀ i j, (i, j) ≠ (0%nat, 0%nat) →
            entry (horizontal_fences g') i j
            = entry (horizontal_fences g) i j) ∧
    length <$> horizontal_fences g' = length <$> horizontal_fences g ∧
    vertical_fences g' = vertical_fences g)
   ∨
   ("horizontal"%string = "vertical"%string ∧
    entry (vertical_fences g) 0 0 = Some false ∧
    entry (vertical_fences g') 0 0 = Some true ∧
    (∀ i j, (i, j) ≠ (0%nat, 0%nat) →
            entry (vertical_fences g') i j = entry (vertical_fences g) i j) ∧
    length <$> vertical_fences g' = length <$> vertical_fences g ∧
    horizontal_fences g' = horizontal_fences g)).
Proof.
  apply (place_fence_sets_one_fence (H := sample_constants)
           Sample.two_players "a" 0 0 "horizontal" (Sample.at_time 2) []).
  vm_compute. reflexivity.
Defined.

Section PlaceFenceTurn.
Context `{Constants}.

(** C1. After a successful [place_fence] the turn index is unchanged when
    cells were claimed, and is the next index modulo the size of the roster
    when none was. *)
Theorem place_fence_turn g player_id row col orientation clock claimed g' :
  state g = GAME_STATE_PLAYING →
  place_fence g player_id row col orientation clock = Ok (true, claimed, g') →
  (claimed ≠ [] → current_player_idx g' = current_player_idx g) ∧
  (claimed = [] →
   current_player_idx g'
   = ((current_player_idx g + 1) `mod` length (players g))%nat).
Proof.
  intros _ (cp & g1 & _ & Hcp & _ & _ & Hset & _ & Hcases)%place_fence_true.
  apply set_fence_frame in Hset as (Hps & Hidx & _).
  apply current_player_nonempty in Hcp.
  destruct Hcases as [[-> ->]|(Hne & cells & gained & _ & ->)].
  - split; [done|]. intros _. simpl.
    rewrite next_turn_nonempty.
    + simpl. by rewrite length_alter, Hps, Hidx.
    + simpl. intros Hnil%(f_equal length).
      rewrite length_alter, Hps in Hnil. by destruct (players g).
  - split; [|done]. intros _. simpl.
    pose proof (credited_frame
      (moved g1 player_id row col orientation clock)
      player_id claimed cells gained clock) as Hf.
    simpl in Hf. destruct_and!. congruence.
Qed.

End PlaceFenceTurn.

Lemma place_fence_turn_witness :
  (* alice's first fence claims nothing: the turn passes to bob *)
  ((([] : list (Z * Z)) ≠ [] →
    current_player_idx (Sample.move Sample.two_players "a" 0 0 "horizontal")
    = current_player_idx Sample.two_players) ∧
   (([] : list (Z * Z)) = [] →
    current_player_idx (Sample.move Sample.two_players "a" 0 0 "horizontal")
    = ((current_player_idx Sample.two_players + 1)
         `mod` length (players Sample.two_players))%nat)) ∧
  (* bob's fence closes cell (0,0): bob plays again *)
  (([(0, 0)] : list (Z * Z)) ≠ [] →
   current_player_idx Sample.bob_claimed
   = current_player_idx Sample.three_fences).
Proof.
  split.
  - apply (place_fence_turn (H := sample_constants)
             Sample.two_players "a" 0 0 "horizontal" (Sample.at_time 2)).
    + reflexivity.
    + vm_compute. reflexivity.
  - apply (place_fence_turn (H := sample_constants)
             Sample.three_fences "b" 0 1 "vertical" (Sample.at_time 2)).
    + vm_compute. reflexivity.
    + vm_compute. reflexivity.
Defined.

(** ** The claim detector *)

Section Loops.

Lemma for_each_ext {A S} (body body' : A → S → result S) xs s :
  (∀ x s, x ∈ xs → body x s = body' x s) →
  for_each xs body s = for_each xs body' s.
Proof.
  revert s. induction xs as [|x xs IH]; intros s Hext; simpl; [done|].
  rewrite Hext by apply list_elem_of_here.
  destruct (body' x s) as [s'|e]; simpl; [|done].
  apply IH. intros y t Hy. apply Hext. by apply list_elem_of_further.
Qed.

(** A loop that appends [f x] for the [x] that pass [test]. *)
Lemma for_each_collect {A B} (test : A → result bool) (f : A → B)
    (xs : list A) (acc acc' : list B) :
  for_each xs
    (λ x acc, b ← test x; Ok (if (b : bool) then acc ++ [f x] else acc)) acc
  = Ok acc' ↔
  Forall (λ x, ∃ b, test x = Ok b) xs ∧
  acc' = acc ++ (f <$> filter (λ x, test x = Ok true) xs).
Proof.
  revert acc. induction xs as [|x xs IH]; intros acc; simpl.
  - rewrite app_nil_r. split; [intros [= <-]; auto | intros [_ ->]; done].
  - rewrite list.Forall_cons. destruct (test x) as [[|]|e] eqn:Htest; simpl.
    + rewrite IH, filter_cons_True by done.
      rewrite fmap_cons, <- app_assoc. simpl.
      split; [intros [? ->]; eauto | intros [[_ ?] ->]; done].
    + rewrite IH, filter_cons_False by (by rewrite Htest).
      split; [intros [? ->]; eauto | intros [[_ ?] ->]; done].
    + split; [done|]. intros [[[b Hb] _] _]. done.
Qed.

(** A loop over the rows whose body collects [collect row]. *)
Lemma for_each_rows {A B} (inner : A → list B → result (list B))
    (ok : A → Prop) (collect : A → list B) (xs : list A) (acc acc' : list B) :
  (∀ x acc acc', x ∈ xs →
     inner x acc = Ok acc' ↔ ok x ∧ acc' = acc ++ collect x) →
  for_each xs inner acc = Ok acc' ↔
  Forall ok xs ∧ acc' = acc ++ (xs ≫= collect).
Proof.
  revert acc. induction xs as [|x xs IH]; intros acc Hinner; simpl.
  - rewrite app_nil_r. split; [intros [= <-]; auto | intros [_ ->]; done].
  - rewrite list.Forall_cons. split.
    + intros (mid & Hx & Hrest)%bind_Ok.
      apply Hinner in Hx as [Hok ->]; [|apply list_elem_of_here].
      apply IH in Hrest as [Hall ->].
      * by rewrite <- app_assoc.
      * intros y a a' Hy. apply Hinner. by apply list_elem_of_further.
    + intros [[Hok Hall] ->]. apply bind_Ok.
      exists (acc ++ collect x). split.
      * apply Hinner; [apply list_elem_of_here|done].
      * apply IH.
        -- intros y a a' Hy. apply Hinner. by apply list_elem_of_further.
        -- by rewrite <- app_assoc.
Qed.

End Loops.

Section ClaimDetector.
Import Grid.

Lemma visit_cell_qualifies g row col claimed :
  visit_cell g row col claimed
  = (b ← qualifies g row col;
     Ok (if (b : bool) then claimed ++ [(row, col)] else claimed)).
Proof.
  unfold visit_cell, qualifies.
  destruct (getitem2 (land_cells g) row col) as [cell|e]; simpl; [|done].
  destruct (LandCell.owner cell); simpl; [done|].
  by destruct (enclosed g row col) as [[|]|e].
Qed.

Lemma check_claimed_land_Ok g claimed :
  check_claimed_land g = Ok claimed ↔
  (∀ row col, row ∈ range (grid_size g) → col ∈ range (grid_size g) →
              ∃ b, qualifies g row col = Ok b) ∧
  claimed = scan g.
Proof.
  unfold check_claimed_land, scan.
  rewrite (for_each_rows _
    (λ row, Forall (λ col, ∃ b, qualifies g row col = Ok b)
                   (range (grid_size g)))
    (λ row, pair row <$> filter (λ col, qualifies g row col = Ok true)
                                (range (grid_size g)))).
  - simpl. rewrite list.Forall_forall. setoid_rewrite list.Forall_forall.
    split; intros [Hq ->]; (split; [|done]); intros; by apply Hq.
  - intros row acc acc' _.
    rewrite (for_each_ext _
      (λ col acc, b ← qualifies g row col;
                  Ok (if (b : bool) then acc ++ [(row, col)] else acc)))
      by (intros; apply visit_cell_qualifies).
    apply (for_each_collect (qualifies g row) (pair row)).
Qed.

Lemma elem_of_scan g r c :
  (r, c) ∈ scan g ↔
  0 ≤ r < grid_size g ∧ 0 ≤ c < grid_size g ∧ qualifies g r c = Ok true.
Proof.
  unfold scan. rewrite list_elem_of_bind. split.
  - intros (row & Hin & Hrow). apply list_elem_of_fmap in Hin
      as (col & [= -> ->] & Hcol).
    apply list_elem_of_filter in Hcol as [Hq Hcol].
    by rewrite <- !elem_of_range.
  - intros (Hr & Hc & Hq). exists r. rewrite elem_of_range. split; [|done].
    apply list_elem_of_fmap. exists c. split; [done|].
    apply list_elem_of_filter. by rewrite elem_of_range.
Qed.

Lemma NoDup_scan g : NoDup (scan g).
Proof.
  unfold scan. apply NoDup_bind.
  - intros r1 r2 rc Hr1 Hr2 (c1 & -> & _)%list_elem_of_fmap
      (c2 & [= -> _] & _)%list_elem_of_fmap. done.
  - intros row _. apply NoDup_fmap_2; [intros ?? [=]; done|].
    apply list.NoDup_filter, NoDup_range.
  - apply NoDup_range.
Qed.

Lemma enclosed_true g row col :
  enclosed g row col = Ok true ↔
  getitem2 (horizontal_fences g) row col = Ok true ∧
  getitem2 (horizontal_fences g) (row + 1) col = Ok true ∧
  getitem2 (vertical_fences g) row col = Ok true ∧
  getitem2 (vertical_fences g) row (col + 1) = Ok true.
Proof.
  unfold enclosed.
  destruct (getitem2 (horizontal_fences g) row col) as [[|]|]; simpl;
    [|intuition congruence..].
  destruct (getitem2 (horizontal_fences g) (row + 1) col) as [[|]|]; simpl;
    [|intuition congruence..].
  destruct (getitem2 (vertical_fences g) row col) as [[|]|]; simpl;
    intuition congruence.
Qed.

Lemma qualifies_true g row col :
  qualifies g row col = Ok true ↔
  (∃ cell, getitem2 (land_cells g) row col = Ok cell ∧
           LandCell.owner cell = None) ∧
  getitem2 (horizontal_fences g) row col = Ok true ∧
  getitem2 (horizontal_fences g) (row + 1) col = Ok true ∧
  getitem2 (vertical_fences g) row col = Ok true ∧
  getitem2 (vertical_fences g) row (col + 1) = Ok true.
Proof.
  rewrite <- enclosed_true. unfold qualifies.
  destruct (getitem2 (land_cells g) row col) as [cell|e]; simpl.
  - destruct (LandCell.owner cell) eqn:Howner.
    + split; [done|]. intros [(cell' & [= <-] & Hnone) _]. congruence.
    + split; [eauto|]. by intros [_ ?].
  - split; [done|]. by intros [(cell' & [=] & _) _].
Qed.

End ClaimDetector.

Section ClaimDetectorTotal.
Import Grid.

Lemma has_shape_getitem2 {A} (rows cols : Z) (m : list (list A)) (i j : Z) :
  has_shape rows cols m → 0 ≤ i < rows → 0 ≤ j < cols →
  ∃ x, getitem2 m i j = Ok x.
Proof.
  intros [Hlen Hrows] Hi Hj.
  destruct (lookup_lt_is_Some_2 m (Z.to_nat i)) as [row Hrow]; [lia|].
  assert (length row = Z.to_nat cols) as Hcols.
  { eapply list.Forall_forall in Hrows; [done|].
    by eapply list_elem_of_lookup_2. }
  destruct (lookup_lt_is_Some_2 row (Z.to_nat j)) as [x Hx]; [lia|].
  exists x. apply getitem2_Ok; [lia..|]. eauto.
Qed.

Lemma well_shaped_qualifies g row col :
  well_shaped g → 0 ≤ row < grid_size g → 0 ≤ col < grid_size g →
  ∃ b, qualifies g row col = Ok b.
Proof.
  intros (Hh & Hv & Hc) Hrow Hcol. unfold qualifies, enclosed.
  destruct (has_shape_getitem2 _ _ _ row col Hc) as [cell ->]; [lia..|].
  destruct (has_shape_getitem2 _ _ _ row col Hh) as [top ->]; [lia..|].
  destruct (has_shape_getitem2 _ _ _ (row + 1) col Hh) as [bottom ->];
    [lia..|].
  destruct (has_shape_getitem2 _ _ _ row col Hv) as [left ->]; [lia..|].
  destruct (has_shape_getitem2 _ _ _ row (col + 1) Hv) as [right ->];
    [lia..|].
  simpl. destruct (LandCell.owner cell), top, bottom, left; simpl; eauto.
Qed.

Lemma check_claimed_land_total g :
  well_shaped g → check_claimed_land g = Ok (scan g).
Proof.
  intros Hshape. apply check_claimed_land_Ok. split; [|done].
  intros row col Hrow%elem_of_range Hcol%elem_of_range.
  by apply well_shaped_qualifies.
Qed.

(** C2. On a grid of the constructor's dimensions [check_claimed_land]
    returns, and whenever it returns, a cell [(r, c)] of the grid is in the
    result if and only if its owner is unset and its four fences
    [horizontal_fences[r][c]], [horizontal_fences[r+1][c]],
    [vertical_fences[r][c]] and [vertical_fences[r][c+1]] are true; the
    result holds cells of the grid only, none of them owned. *)
Theorem check_claimed_land_spec (g : t) :
  (well_shaped g → ∃ claimed, check_claimed_land g = Ok claimed) ∧
  (∀ claimed, check_claimed_land g = Ok claimed →
     (∀ r c, 0 ≤ r < grid_size g → 0 ≤ c < grid_size g →
        (r, c) ∈ claimed ↔
        (∃ cell, getitem2 (land_cells g) r c = Ok cell ∧
                 LandCell.owner cell = None) ∧
        getitem2 (horizontal_fences g) r c = Ok true ∧
        getitem2 (horizontal_fences g) (r + 1) c = Ok true ∧
        getitem2 (vertical_fences g) r c = Ok true ∧
        getitem2 (vertical_fences g) r (c + 1) = Ok true) ∧
     (∀ r c, (r, c) ∈ claimed →
        0 ≤ r < grid_size g ∧ 0 ≤ c < grid_size g ∧
        ∀ cell, getitem2 (land_cells g) r c = Ok cell →
                LandCell.owner cell = None)).
Proof.
  split.
  - intros Hshape. exists (scan g). by apply check_claimed_land_total.
  - intros claimed [_ ->]%check_claimed_land_Ok. split.
    + intros r c Hr Hc. rewrite elem_of_scan, qualifies_true.
      split; [by intros (_ & _ & ?)|done].
    + intros r c (Hr & Hc & Hq)%elem_of_scan. do 2 (split; [done|]).
      apply qualifies_true in Hq as [(cell' & Hcell' & Hnone) _].
      intros cell Hcell. congruence.
Qed.

Lemma check_claimed_land_spec_witness :
  ∃ claimed,
    check_claimed_land Sample.fenced = Ok claimed ∧
    ((0, 0) ∈ claimed ↔
     (∃ cell, getitem2 (land_cells Sample.fenced) 0 0 = Ok cell ∧
              LandCell.owner cell = None) ∧
     getitem2 (horizontal_fences Sample.fenced) 0 0 = Ok true ∧
     getitem2 (horizontal_fences Sample.fenced) (0 + 1) 0 = Ok true ∧
     getitem2 (vertical_fences Sample.fenced) 0 0 = Ok true ∧
     getitem2 (vertical_fences Sample.fenced) 0 (0 + 1) = Ok true).
Proof.
  destruct (check_claimed_land_spec Sample.fenced) as [Htotal Hspec].
  destruct Htotal as [claimed Hclaimed].
  { repeat split; try reflexivity; vm_compute; repeat constructor. }
  exists claimed. split; [exact Hclaimed|].
  apply (Hspec claimed Hclaimed); vm_compute; split; congruence.
Defined.

End ClaimDetectorTotal.

(** ** Save and restore *)

Section SaveLoops.
Import Grid.

Lemma lookup_range (n : Z) (i : nat) :
  range n !! i = if decide (i < Z.to_nat n)%nat then Some (Z.of_nat i)
                 else None.
Proof.
  unfold range. rewrite list_lookup_fmap.
  destruct (decide (i < Z.to_nat n)%nat).
  - by rewrite lookup_seq_lt.
  - rewrite lookup_seq_ge by lia. done.
Qed.

(** A loop that appends [f y] for the value [y] computed from each [x]. *)
Lemma for_each_append {A B C} (h : A → result B) (f : B → C) (d : B)
    (xs : list A) (acc acc' : list C) :
  for_each xs (λ x acc, y ← h x; Ok (acc ++ [f y])) acc = Ok acc' ↔
  Forall (λ x, ∃ y, h x = Ok y) xs ∧
  acc' = acc ++ ((λ x, f (result_default d (h x))) <$> xs).
Proof.
  revert acc. induction xs as [|x xs IH]; intros acc; simpl.
  - rewrite app_nil_r. split; [intros [= <-]; auto | intros [_ ->]; done].
  - rewrite list.Forall_cons. destruct (h x) as [y|e] eqn:Hx; simpl.
    + rewrite IH, <- app_assoc. simpl.
      split; [intros [? ->]; eauto | intros [[_ ?] ->]; done].
    + split; [done|]. intros [[[y Hy] _] _]. done.
Qed.

Lemma land_cells_to_dict_Ok g land_cells_dict :
  land_cells_to_dict g = Ok land_cells_dict ↔
  (∀ row col, 0 ≤ row < grid_size g → 0 ≤ col < grid_size g →
              ∃ cell, getitem2 (land_cells g) row col = Ok cell) ∧
  land_cells_dict
  = (λ row, (λ col, LandCell.to_dict (cell_at g row col))
            <$> range (grid_size g)) <$> range (grid_size g).
Proof.
  unfold land_cells_to_dict.
  pose (inner := λ row : Z,
    for_each (range (grid_size g))
      (λ col row_dict,
         cell ← getitem2 (land_cells g) row col;
         Ok (row_dict ++ [LandCell.to_dict cell])) []).
  assert (Hinner : ∀ row row_dict,
    inner row = Ok row_dict ↔
    Forall (λ col, ∃ cell, getitem2 (land_cells g) row col = Ok cell)
           (range (grid_size g)) ∧
    row_dict = (λ col, LandCell.to_dict (cell_at g row col))
               <$> range (grid_size g)).
  { intros row row_dict. unfold inner.
    rewrite (for_each_append _ LandCell.to_dict (LandCell.mk "" None 0)).
    done. }
  etransitivity;
    [exact (for_each_append inner (λ z, z) [] (range (grid_size g)) []
              land_cells_dict)|].
  simpl.
  rewrite list.Forall_forall. split.
  - intros [Hall ->]. split.
    + intros row col Hrow%elem_of_range Hcol%elem_of_range.
      destruct (Hall row Hrow) as [row_dict [Hcells _]%Hinner].
      eapply list.Forall_forall in Hcells; eauto.
    + apply list_fmap_ext. intros i row Hrow%list_elem_of_lookup_2.
      destruct (Hall row Hrow) as [row_dict Hrd].
      rewrite Hrd. simpl. by apply Hinner in Hrd as [_ ->].
  - intros [Hcells ->].
    assert (Hrows : ∀ row, row ∈ range (grid_size g) →
      inner row = Ok ((λ col, LandCell.to_dict (cell_at g row col))
                      <$> range (grid_size g))).
    { intros row Hrow%elem_of_range. apply Hinner. split; [|done].
      apply list.Forall_forall. intros col Hcol%elem_of_range. eauto. }
    split; [eauto|].
    apply list_fmap_ext. intros i row Hrow%list_elem_of_lookup_2.
    simpl. by rewrite Hrows.
Qed.

End SaveLoops.

Section RestoreLoops.
Context `{Constants}.

(** A loop whose body keeps an invariant of the items already visited. *)
Lemma for_each_invariant {A S} (I : list A → S → Prop)
    (body : A → S → result S) (xs : list A) (s : S) :
  I [] s →
  (∀ visited x s, I visited s → x ∈ xs →
                  ∃ s', body x s = Ok s' ∧ I (visited ++ [x]) s') →
  ∃ s', for_each xs body s = Ok s' ∧ I xs s'.
Proof.
  intros Hinit Hstep.
  cut (∀ visited s, I visited s →
         ∃ s', for_each xs body s = Ok s' ∧ I (visited ++ xs) s').
  { intros Hcut. apply (Hcut [] s Hinit). }
  clear s Hinit. induction xs as [|x xs IH]; intros visited s Hvisited; simpl.
  - rewrite app_nil_r. eauto.
  - destruct (Hstep visited x s Hvisited) as (s1 & -> & Hs1);
      [apply list_elem_of_here|].
    simpl. destruct (IH (λ v y t Hv Hy, Hstep v y t Hv
                           (list_elem_of_further _ _ _ Hy))
                        (visited ++ [x]) s1 Hs1) as (s' & Hrun & Hs').
    exists s'. split; [done|]. by rewrite <- app_assoc in Hs'.
Qed.

Lemma entry_Some_getitem2 {A} (m : list (list A)) (row col : Z) (x : A) :
  0 ≤ row → 0 ≤ col →
  entry m (Z.to_nat row) (Z.to_nat col) = Some x ↔ getitem2 m row col = Ok x.
Proof.
  intros Hrow Hcol. rewrite getitem2_Ok by done. unfold entry.
  destruct (m !! Z.to_nat row) as [r|]; simpl.
  - split; [eauto|]. by intros (r' & [= <-] & ?).
  - split; [done|]. by intros (r' & [=] & ?).
Qed.

(** Assigning an entry that exists. *)
Lemma setitem2_entry {A} (m : list (list A)) (row col : Z) (y : A) :
  0 ≤ row → 0 ≤ col →
  is_Some (entry m (Z.to_nat row) (Z.to_nat col)) →
  ∃ m', setitem2 m row col y = Ok m' ∧
        length <$> m' = length <$> m ∧
        ∀ i j, entry m' i j
               = if decide (i = Z.to_nat row ∧ j = Z.to_nat col) then Some y
                 else entry m i j.
Proof.
  intros Hrow Hcol [x Hx]. pose proof Hx as Hget.
  apply entry_Some_getitem2 in Hget; [|done..].
  pose proof Hget as (r & Hr & Hrx)%getitem2_Ok; [|done..].
  assert (∃ m', setitem2 m row col y = Ok m') as [m' Hset].
  { eexists. apply setitem2_Ok; [done..|]. exists r.
    split; [done|]. split; [|done]. by eapply lookup_lt_Some. }
  destruct (entry_setitem2 m m' row col x y Hrow Hcol Hget Hset)
    as (_ & Hnew & Hother & _ & Hlen).
  exists m'. do 2 (split; [done|]). intros i j.
  case_decide as Hij.
  - by destruct Hij as [-> ->].
  - apply Hother. intros [= -> ->]. by destruct Hij.
Qed.

Lemma range_min_length (n : Z) :
  range (Z.min (Z.of_nat (Z.to_nat n)) n) = range n.
Proof. unfold range. f_equal. f_equal. lia. Qed.

Lemma restore_land_cells_Ok (grid_size_ : Z) (f : Z → Z → LandCell.dict)
    (cells0 : list (list LandCell.t)) :
  (∀ i j, (i < Z.to_nat grid_size_)%nat → (j < Z.to_nat grid_size_)%nat →
          is_Some (entry cells0 i j)) →
  ∃ cells,
    restore_land_cells grid_size_
      ((λ row, f row <$> range grid_size_) <$> range grid_size_) cells0
    = Ok cells ∧
    length <$> cells = length <$> cells0 ∧
    ∀ i j, entry cells i j
           = if decide (i < Z.to_nat grid_size_ ∧ j < Z.to_nat grid_size_)%nat
             then Some (LandCell.from_dict (f (Z.of_nat i) (Z.of_nat j)))
             else entry cells0 i j.
Proof.
  intros Hcells0. unfold restore_land_cells.
  rewrite length_fmap, length_range, range_min_length.
  destruct (for_each_invariant
    (λ visited cells,
       length <$> cells = length <$> cells0 ∧
       ∀ i j, entry cells i j
              = if decide (Z.of_nat i ∈ visited ∧ (j < Z.to_nat grid_size_)%nat)
                then Some (LandCell.from_dict (f (Z.of_nat i) (Z.of_nat j)))
                else entry cells0 i j)
    (λ row cells,
       row_data ← getitem ((λ row, f row <$> range grid_size_)
                           <$> range grid_size_) row;
       for_each (range (Z.min (Z.of_nat (length row_data)) grid_size_))
         (λ col cells,
            cell_data ← getitem row_data col;
            setitem2 cells row col (LandCell.from_dict cell_data))
         cells)
    (range grid_size_) cells0) as (cells & Hrun & Hlen & Hentries).
  - split; [done|]. intros i j. rewrite decide_False; [done|].
    intros [[]%not_elem_of_nil _].
  - intros visited row cells1 [Hlen1 Hentries1] Hrow%elem_of_range.
    rewrite (getitem_nonneg _ row) by lia.
    rewrite list_lookup_fmap, lookup_range, decide_True by lia. simpl.
    rewrite Z2Nat.id, length_fmap, length_range, range_min_length by lia.
    destruct (for_each_invariant
      (λ seen cells,
         length <$> cells = length <$> cells0 ∧
         ∀ i j, entry cells i j
                = if decide (i = Z.to_nat row ∧ Z.of_nat j ∈ seen)
                  then Some (LandCell.from_dict (f row (Z.of_nat j)))
                  else entry cells1 i j)
      (λ col cells,
         cell_data ← getitem (f row <$> range grid_size_) col;
         setitem2 cells row col (LandCell.from_dict cell_data))
      (range grid_size_) cells1) as (cells2 & Hrun2 & Hlen2 & Hentries2).
    + split; [done|]. intros i j. rewrite decide_False; [done|].
      intros [_ []%not_elem_of_nil].
    + intros seen col cells' [Hlen' Hentries'] Hcol%elem_of_range.
      rewrite (getitem_nonneg _ col) by lia.
      rewrite list_lookup_fmap, lookup_range, decide_True by lia. simpl.
      rewrite Z2Nat.id by lia.
      destruct (setitem2_entry cells' row col
                  (LandCell.from_dict (f row col)))
        as (cells'' & -> & Hlen'' & Hentries''); [lia..| |].
      { rewrite Hentries'. case_decide; [done|].
        rewrite Hentries1. case_decide; [done|].
        apply Hcells0; lia. }
      eexists. split; [done|]. split; [congruence|].
      intros i j. rewrite Hentries'', Hentries'.
      destruct (decide (i = Z.to_nat row ∧ j = Z.to_nat col)) as [[-> ->]|Hij].
      * rewrite decide_True; [by rewrite Z2Nat.id by lia|].
        split; [done|]. rewrite elem_of_app, list_elem_of_singleton. lia.
      * apply decide_ext. rewrite elem_of_app, list_elem_of_singleton.
        split; [tauto|]. intros [-> [Hseen|Hj]]; [done|].
        destruct Hij. split; [done|lia].
    + exists cells2. split; [done|]. split; [done|].
      intros i j. rewrite Hentries2, Hentries1.
      assert (Hin : Z.of_nat j ∈ range grid_size_
                    ↔ (j < Z.to_nat grid_size_)%nat)
        by (rewrite elem_of_range; lia).
      destruct (decide (i = Z.to_nat row)) as [->|Hi].
      * destruct (decide (j < Z.to_nat grid_size_)%nat) as [Hj|Hj].
        -- rewrite decide_True by tauto.
           rewrite decide_True; [by rewrite Z2Nat.id by lia|].
           split; [|done]. rewrite elem_of_app, list_elem_of_singleton. lia.
        -- rewrite !decide_False by tauto. done.
      * rewrite decide_False by tauto. apply decide_ext.
        rewrite elem_of_app, list_elem_of_singleton.
        split; [tauto|]. intros [[Hv|Hrow'] Hj]; [done|lia].
  - exists cells. split; [done|]. split; [done|].
    intros i j. rewrite Hentries. apply decide_ext.
    rewrite elem_of_range. lia.
Qed.

End RestoreLoops.

Section RoundTrip.
Context `{Constants}.
Import Grid.

Lemma range_nonpos (n : Z) : n ≤ 0 → range n = [].
Proof. intros Hn. unfold range. by replace (Z.to_nat n) with 0%nat by lia. Qed.

Lemma player_round_trip p fresh now :
  Player.from_dict (Player.to_dict p) fresh now = p.
Proof. by destruct p. Qed.

Lemma cell_round_trip c : LandCell.from_dict (LandCell.to_dict c) = c.
Proof. by destruct c. Qed.

Lemma players_round_trip (uuid : nat → string) (clock : nat → Z) ps :
  imap (λ k player_data,
          Player.from_dict player_data (uuid (S k)) (clock (S k)))
       (Player.to_dict <$> ps)
  = ps.
Proof.
  rewrite imap_fmap.
  rewrite (imap_ext _ (λ _ p, p)); [|intros; apply player_round_trip].
  induction ps as [|p ps IH]; simpl; [done|]. by f_equal.
Qed.

(** The land built by the constructor has an entry for every cell. *)
Lemma distribute_land_types_entry grid_size_ land_types (i j : nat) :
  (i < Z.to_nat grid_size_)%nat → (j < Z.to_nat grid_size_)%nat →
  is_Some (entry (distribute_land_types grid_size_ land_types) i j).
Proof.
  intros Hi Hj. unfold entry, distribute_land_types.
  rewrite list_lookup_fmap, lookup_range, decide_True by done. simpl.
  rewrite list_lookup_fmap, lookup_range.
  destruct (decide (j < Z.to_nat grid_size_)%nat); [|done]. simpl. eauto.
Qed.

Lemma distribute_land_types_shape grid_size_ land_types :
  has_shape grid_size_ grid_size_
    (distribute_land_types grid_size_ land_types).
Proof.
  unfold distribute_land_types. split.
  - by rewrite length_fmap, length_range.
  - apply Forall_fmap, Forall_true. intros row. simpl.
    by rewrite length_fmap, length_range.
Qed.

Lemma has_shape_lengths {A B} rows cols (m1 : list (list A))
    (m2 : list (list B)) :
  length <$> m1 = length <$> m2 →
  has_shape rows cols m2 → has_shape rows cols m1.
Proof.
  intros Hlen [Hrows Hcols]. split.
  - by rewrite <- (length_fmap length), Hlen, length_fmap.
  - apply (Forall_fmap length (λ n, n = Z.to_nat cols)). rewrite Hlen.
    by apply Forall_fmap.
Qed.

(** Two matrices of the same dimensions with the same entries are equal. *)
Lemma matrix_eq {A} rows cols (m1 m2 : list (list A)) :
  has_shape rows cols m1 → has_shape rows cols m2 →
  (∀ i j, (i < Z.to_nat rows)%nat → (j < Z.to_nat cols)%nat →
          entry m1 i j = entry m2 i j) →
  m1 = m2.
Proof.
  intros [Hr1 Hc1] [Hr2 Hc2] Hentries. apply list_eq. intros i.
  destruct (decide (i < Z.to_nat rows)%nat) as [Hi|Hi].
  - destruct (lookup_lt_is_Some_2 m1 i) as [r1 Hi1]; [lia|].
    destruct (lookup_lt_is_Some_2 m2 i) as [r2 Hi2]; [lia|].
    rewrite Hi1, Hi2. f_equal.
    assert (length r1 = Z.to_nat cols) as Hl1.
    { eapply list.Forall_forall in Hc1; [done|].
      by eapply list_elem_of_lookup_2. }
    assert (length r2 = Z.to_nat cols) as Hl2.
    { eapply list.Forall_forall in Hc2; [done|].
      by eapply list_elem_of_lookup_2. }
    apply list_eq. intros j.
    destruct (decide (j < Z.to_nat cols)%nat) as [Hj|Hj].
    + specialize (Hentries i j Hi Hj). unfold entry in Hentries.
      by rewrite Hi1, Hi2 in Hentries.
    + by rewrite !lookup_ge_None_2 by lia.
  - by rewrite !lookup_ge_None_2 by lia.
Qed.

(** The land cells are restored when there are some; with none the loops
    do nothing. *)
Lemma from_dict_land_cells (game : t)
    (land_cells_data : list (list LandCell.dict)) :
  match Some land_cells_data with
  | Some ((_ :: _) as land_cells_data) =>
      cells ← restore_land_cells (grid_size game) land_cells_data
                (land_cells game);
      Ok (with_land_cells cells game)
  | _ => Ok game
  end
  = (cells ← restore_land_cells (grid_size game) land_cells_data
               (land_cells game);
     Ok (with_land_cells cells game)).
Proof.
  destruct land_cells_data as [|row rows]; [|reflexivity].
  unfold restore_land_cells. simpl. rewrite range_nonpos by lia.
  by destruct game.
Qed.

(** The turn index found by [from_dict] for the id written by [to_dict]. *)
Lemma first_with_id_of_current g cur :
  get_current_player g = Ok cur →
  (if opt_str_truthy (Player.id <$> cur) then
     match list_find (λ p, Some (Player.id p) = Player.id <$> cur)
                     (players g) with
     | Some (i, _) => i
     | None => 0%nat
     end
   else 0%nat) = current_player_idx g
  ↔ pointer_survives g.
Proof.
  intros Hcur. unfold pointer_survives. destruct cur as [p|]; simpl.
  - apply get_current_player_Some in Hcur as [Hp Hlt].
    unfold str_truthy. destruct (String.eqb_spec (Player.id p) "") as [He|Hne];
      simpl.
    + split; [auto|]. intros [?|(q & Hq & Hne & _)]; [done|]. congruence.
    + destruct (list_find_elem_of (λ q, Some (Player.id q) = Some (Player.id p))
                  (players g) p) as [[i q] Hfind];
        [by eapply list_elem_of_lookup_2|done|].
      rewrite Hfind.
      apply list_find_Some in Hfind as (Hq & [= Hid] & Hfirst).
      split.
      * intros ->. right. exists p. do 2 (split; [done|]).
        intros j r Hj Hr Heq. eapply (Hfirst j r); [done..|]. by rewrite Heq.
      * intros [Hzero|(p' & Hp' & _ & Hearlier)].
        -- destruct (Nat.lt_trichotomy i (current_player_idx g))
             as [Hlt'|[?|Hgt]]; [lia|done|].
           destruct (Hfirst _ _ Hp Hgt). done.
        -- assert (p' = p) as -> by congruence.
           destruct (Nat.lt_trichotomy i (current_player_idx g))
             as [Hlt'|[?|Hgt]]; [|done|].
           ++ destruct (Hearlier i q Hlt' Hq). done.
           ++ destruct (Hfirst _ _ Hp Hgt). done.
  - split; [auto|]. intros [?|(q & Hq & _)]; [done|].
    destruct (Nat.lt_ge_cases (current_player_idx g) (length (players g)))
      as [Hlt|Hge].
    + destruct (get_current_player_in g Hlt) as (? & _ & ?). congruence.
    + apply lookup_ge_None_2 in Hge. congruence.
Qed.

Lemma to_dict_returns g now :
  has_shape (grid_size g) (grid_size g) (land_cells g) →
  ∃ data, to_dict g now = Ok data.
Proof.
  intros Hshape. unfold to_dict.
  rewrite (proj2 (land_cells_to_dict_Ok g _) (conj
    (λ row col Hrow Hcol, has_shape_getitem2 _ _ _ row col Hshape Hrow Hcol)
    eq_refl)).
  destruct (get_current_player_returns g) as [cur ->]. simpl. eauto.
Qed.

Lemma from_dict_to_dict g now uuid clock land_types data :
  to_dict g now = Ok data →
  ∃ g', from_dict data uuid clock land_types = Ok g' ∧
        horizontal_fences g' = horizontal_fences g ∧
        vertical_fences g' = vertical_fences g ∧
        players g' = players g ∧
        state g' = state g ∧
        grid_size g' = grid_size g ∧
        unclaimed_lands g' = unclaimed_lands g ∧
        (current_player_idx g' = current_player_idx g ↔ pointer_survives g) ∧
        length <$> land_cells g'
        = length <$> distribute_land_types (grid_size g) land_types ∧
        (∀ i j, (i < Z.to_nat (grid_size g))%nat →
                (j < Z.to_nat (grid_size g))%nat →
                entry (land_cells g') i j
                = Some (cell_at g (Z.of_nat i) (Z.of_nat j))) ∧
        (∀ r c, 0 ≤ r < grid_size g → 0 ≤ c < grid_size g →
                getitem2 (land_cells g) r c = Ok (cell_at g r c)).
Proof.
  unfold to_dict. intros (lcd & Hlcd & Hd)%bind_Ok.
  apply bind_Ok in Hd as (cur & Hcur & [= <-]).
  apply land_cells_to_dict_Ok in Hlcd as [Hcells ->].
  unfold from_dict. cbn [d_land_cells].
  rewrite from_dict_land_cells.
  cbn -[restore_land_cells distribute_land_types].
  rewrite players_round_trip.
  match goal with
  | |- context [restore_land_cells (grid_size ?x)] =>
      remember x as gp eqn:Hgp
  end.
  assert (grid_size gp = grid_size g ∧
          land_cells gp = distribute_land_types (grid_size g) land_types ∧
          players gp = players g ∧ state gp = state g ∧
          unclaimed_lands gp = unclaimed_lands g ∧
          current_player_idx gp
          = (if opt_str_truthy (Player.id <$> cur) then
               match list_find (λ p, Some (Player.id p) = Player.id <$> cur)
                               (players g) with
               | Some (i, _) => i
               | None => 0%nat
               end
             else 0%nat))
    as (Hgs & Hland & Hps & Hst & Hun & Hidx).
  { subst gp. destruct (opt_str_truthy _);
      [destruct (list_find _ _) as [[i ?]|]|]; done. }
  clear Hgp. rewrite Hgs, Hland.
  destruct (restore_land_cells_Ok (grid_size g)
              (λ row col, LandCell.to_dict (cell_at g row col))
              (distribute_land_types (grid_size g) land_types))
    as (cells & -> & Hlen & Hentries).
  { intros i j. apply distribute_land_types_entry. }
  simpl. eexists. split; [done|]. simpl.
  do 6 (split; [done|]).
  split; [rewrite Hidx; by apply first_with_id_of_current|].
  split; [done|]. split.
  - intros i j Hi Hj. rewrite Hentries, decide_True by done.
    by rewrite cell_round_trip.
  - intros r c Hr Hc. unfold cell_at.
    by destruct (Hcells r c Hr Hc) as [cell ->].
Qed.

(** C7, as the code has it. Saving a game with [to_dict] and restoring it
    with [from_dict] gives back the same fence lattices, the same land
    cells (type, owner and value) and the same players (hence the same
    scores), at every lifecycle stage. The turn index is saved as the id of
    the current player: the restored index is the same exactly when the
    index is 0 or designates a player whose id is not empty and not borne
    by an earlier player. *)
Theorem snapshot_round_trip g now uuid clock land_types :
  (has_shape (grid_size g) (grid_size g) (land_cells g) →
   ∃ data, to_dict g now = Ok data) ∧
  (∀ data, to_dict g now = Ok data →
     ∃ g', from_dict data uuid clock land_types = Ok g' ∧
           horizontal_fences g' = horizontal_fences g ∧
           vertical_fences g' = vertical_fences g ∧
           (∀ r c, 0 ≤ r < grid_size g → 0 ≤ c < grid_size g →
                   getitem2 (land_cells g') r c
                   = getitem2 (land_cells g) r c) ∧
           (has_shape (grid_size g) (grid_size g) (land_cells g) →
            land_cells g' = land_cells g) ∧
           players g' = players g ∧
           state g' = state g ∧
           (current_player_idx g' = current_player_idx g
            ↔ pointer_survives g)).
Proof.
  split; [apply to_dict_returns|].
  intros data Hdata.
  destruct (from_dict_to_dict g now uuid clock land_types data Hdata)
    as (g' & Hg' & Hh & Hv & Hps & Hst & Hgs & _ & Hidx & Hlen & Hentries
        & Hcells).
  exists g'. do 3 (split; [done|]).
  assert (Hinrange : ∀ i j, (i < Z.to_nat (grid_size g))%nat →
                            (j < Z.to_nat (grid_size g))%nat →
                            entry (land_cells g') i j
                            = entry (land_cells g) i j).
  { intros i j Hi Hj. rewrite Hentries by done. symmetry.
    pose proof (Hcells (Z.of_nat i) (Z.of_nat j) ltac:(lia) ltac:(lia))
      as Hcell.
    apply entry_Some_getitem2 in Hcell; [|lia..].
    by rewrite !Nat2Z.id in Hcell. }
  split; [|split; [|done]].
  - intros r c Hr Hc. rewrite Hcells by done.
    apply entry_Some_getitem2; [lia..|].
    rewrite Hentries by lia. by rewrite !Z2Nat.id by lia.
  - intros Hshape. eapply matrix_eq; [|done|done].
    eapply has_shape_lengths; [done|].
    apply distribute_land_types_shape.
Qed.

End RoundTrip.

Lemma snapshot_round_trip_witness :
  ∃ data g',
    to_dict Sample.bob_claimed 10 = Ok data ∧
    from_dict (H := sample_constants) data (λ _, "u"%string)
      (Sample.at_time 10) (λ _, "regular"%string) = Ok g' ∧
    horizontal_fences g' = horizontal_fences Sample.bob_claimed ∧
    vertical_fences g' = vertical_fences Sample.bob_claimed ∧
    land_cells g' = land_cells Sample.bob_claimed ∧
    players g' = players Sample.bob_claimed ∧
    current_player_idx g' = current_player_idx Sample.bob_claimed.
Proof.
  assert (Hshape : Grid.has_shape (grid_size Sample.bob_claimed)
                     (grid_size Sample.bob_claimed)
                     (land_cells Sample.bob_claimed)).
  { split; [reflexivity|]. vm_compute. repeat constructor. }
  destruct (snapshot_round_trip (H := sample_constants) Sample.bob_claimed 10
              (λ _, "u"%string) (Sample.at_time 10) (λ _, "regular"%string))
    as [Hreturns Hrestore].
  destruct (Hreturns Hshape) as [data Hdata].
  destruct (Hrestore data Hdata)
    as (g' & Hg' & Hh & Hv & _ & Hland & Hps & _ & Hidx).
  exists data, g'. do 4 (split; [done|]).
  split; [by apply Hland|]. split; [done|].
  apply Hidx. right. eexists.
  split; [vm_compute; reflexivity|]. split; [discriminate|].
  intros j q Hj Hq. vm_compute in Hj.
  assert (j = 0%nat) as -> by lia.
  vm_compute in Hq. injection Hq as <-. discriminate.
Defined.

(** C7 fails on the turn index: once alice has left the finished game the
    turn index (1) is past the end of the roster, no current player is
    saved, and the restored index is 0. *)
Lemma restored_turn_index_differs :
  reachable (H := sample_constants) Sample.alice_left ∧
  state Sample.alice_left = GAME_STATE_FINISHED ∧
  ∃ data g',
    to_dict Sample.alice_left 10 = Ok data ∧
    from_dict (H := sample_constants) data (λ _, "u"%string)
      (Sample.at_time 10) (λ _, "regular"%string) = Ok g' ∧
    current_player_idx Sample.alice_left = 1%nat ∧
    current_player_idx g' = 0%nat.
Proof.
  split; [apply alice_left_reachable|]. split; [reflexivity|].
  eexists _, _. split; [vm_compute; reflexivity|].
  split; [vm_compute; reflexivity|]. split; reflexivity.
Qed.

(** ** Scores *)

Section Sums.
Import Score.

Lemma zsum_app (l1 l2 : list Z) : zsum (l1 ++ l2) = zsum l1 + zsum l2.
Proof. induction l1 as [|x l1 IH]; simpl; lia. Qed.

Lemma zsum_insert (l : list Z) (i : nat) (x y : Z) :
  l !! i = Some x → zsum (<[i := y]> l) = zsum l - x + y.
Proof.
  revert i. induction l as [|z l IH]; intros [|i] Hi; simplify_eq/=; [lia|].
  rewrite (IH i Hi). lia.
Qed.

Lemma zsum_delete (l : list Z) (i : nat) (x : Z) :
  l !! i = Some x → zsum (delete i l) = zsum l - x.
Proof.
  revert i. induction l as [|z l IH]; intros [|i] Hi; simplify_eq/=; [lia|].
  rewrite (IH i Hi). lia.
Qed.

Lemma zsum_zero (l : list Z) : Forall (λ x, x = 0) l → zsum l = 0.
Proof. induction 1 as [|x l -> _ IH]; simpl; lia. Qed.

(** Replacing one cell changes a sum over the land by the difference of
    the two cells. *)
Lemma land_sum_insert (f : LandCell.t → Z) cells (i j : nat) row cell cell' :
  cells !! i = Some row → row !! j = Some cell →
  land_sum f (<[i := <[j := cell']> row]> cells)
  = land_sum f cells - f cell + f cell'.
Proof.
  intros Hrow Hcell. unfold land_sum.
  rewrite list_fmap_insert.
  rewrite (zsum_insert _ i (zsum (f <$> row))) by (by rewrite list_lookup_fmap, Hrow).
  rewrite list_fmap_insert.
  rewrite (zsum_insert _ j (f cell)) by (by rewrite list_lookup_fmap, Hcell).
  lia.
Qed.

Lemma zsum_cons (x : Z) (l : list Z) : zsum (x :: l) = x + zsum l.
Proof. done. Qed.

Lemma zsum_fmap_ext {A} (f f' : A → Z) (l : list A) :
  Forall (λ c, f c = f' c) l → zsum (f <$> l) = zsum (f' <$> l).
Proof.
  induction 1 as [|c l Hc _ IH]; [done|].
  by rewrite !fmap_cons, !zsum_cons, Hc, IH.
Qed.

Lemma land_sum_ext (f f' : LandCell.t → Z) cells :
  Forall (Forall (λ c, f c = f' c)) cells →
  land_sum f cells = land_sum f' cells.
Proof.
  intros Hall. unfold land_sum. apply zsum_fmap_ext.
  eapply list.Forall_impl; [done|]. intros row Hrow. by apply zsum_fmap_ext.
Qed.

Lemma land_sum_zero (f : LandCell.t → Z) cells :
  Forall (Forall (λ c, f c = 0)) cells → land_sum f cells = 0.
Proof.
  intros Hall. rewrite (land_sum_ext f (λ _, 0)) by done.
  unfold land_sum. apply zsum_zero, Forall_fmap, Forall_true.
  intros row. simpl. apply zsum_zero, Forall_fmap, Forall_true. done.
Qed.

(** An unowned cell becomes owned by [idx]. *)
Lemma claim_one_cell cells (i j idx : nat) row cell :
  cells !! i = Some row → row !! j = Some cell →
  LandCell.owner cell = None →
  let cells' :=
    <[i := <[j := LandCell.set_owner (Some idx) cell]> row]> cells in
  (∀ k, owned_value k cells'
        = owned_value k cells
          + if decide (k = idx) then LandCell.value cell else 0) ∧
  unowned_value cells' = unowned_value cells - LandCell.value cell ∧
  total_value cells' = total_value cells.
Proof.
  intros Hrow Hcell Hnone. simpl.
  unfold owned_value, unowned_value, total_value.
  split; [|split].
  - intros k. rewrite (land_sum_insert _ _ _ _ _ _ _ Hrow Hcell). simpl.
    rewrite Hnone. rewrite (decide_False (P := None = Some k)) by done.
    destruct (decide (k = idx)) as [->|Hne].
    + rewrite decide_True by done. lia.
    + rewrite decide_False by congruence. lia.
  - rewrite (land_sum_insert _ _ _ _ _ _ _ Hrow Hcell). simpl.
    rewrite Hnone. rewrite decide_True by done. lia.
  - rewrite (land_sum_insert _ _ _ _ _ _ _ Hrow Hcell). simpl. lia.
Qed.

End Sums.

Section ClaimLoop.
Import Score.

Lemma claim_cell_Ok idx r c cells gained cells1 gained1 :
  0 ≤ r → 0 ≤ c →
  claim_cell idx (r, c) (cells, gained) = Ok (cells1, gained1) →
  ∃ row cell,
    cells !! Z.to_nat r = Some row ∧ row !! Z.to_nat c = Some cell ∧
    cells1 = <[Z.to_nat r := <[Z.to_nat c := LandCell.set_owner (Some idx) cell]>
                               row]> cells ∧
    gained1 = gained + LandCell.value cell.
Proof.
  intros Hr Hc. unfold claim_cell. intros (cell & Hcell & Hrun)%bind_Ok.
  apply bind_Ok in Hrun as (cells' & Hset & [= <- <-]).
  apply getitem2_Ok in Hcell as (row & Hrow & Hcell); [|done..].
  apply setitem2_Ok in Hset as (row' & Hrow' & _ & ->); [|done..].
  assert (row' = row) as -> by congruence. eauto 10.
Qed.

Lemma claim_loop idx claimed cells gained0 cells' gained' :
  NoDup claimed →
  (∀ r c, (r, c) ∈ claimed →
          0 ≤ r ∧ 0 ≤ c ∧
          ∃ cell, entry cells (Z.to_nat r) (Z.to_nat c) = Some cell ∧
                  LandCell.owner cell = None) →
  for_each claimed (claim_cell idx) (cells, gained0) = Ok (cells', gained') →
  (∀ k, owned_value k cells'
        = owned_value k cells
          + if decide (k = idx) then gained' - gained0 else 0) ∧
  unowned_value cells' = unowned_value cells - (gained' - gained0) ∧
  total_value cells' = total_value cells ∧
  (∀ n, owners_below n cells → (idx < n)%nat → owners_below n cells').
Proof.
  intros Hnodup. revert cells gained0.
  induction Hnodup as [|[r c] claimed Hnotin Hnodup IH];
    intros cells gained0 Hcells Hrun.
  - injection Hrun as <- <-. rewrite Z.sub_diag.
    repeat split; try done; try lia. intros k. case_decide; lia.
  - simpl in Hrun. apply bind_Ok in Hrun as ([cells1 gained1] & Hstep & Hrun).
    destruct (Hcells r c) as (Hr & Hc & cell0 & Hcell0 & Hnone);
      [apply list_elem_of_here|].
    apply claim_cell_Ok in Hstep as (row & cell & Hrow & Hcell & -> & ->);
      [|done..].
    assert (cell0 = cell) as ->.
    { unfold entry in Hcell0. rewrite Hrow in Hcell0. simpl in Hcell0.
      congruence. }
    destruct (claim_one_cell cells _ _ idx row cell Hrow Hcell Hnone)
      as (Howned & Hunowned & Htotal).
    apply IH in Hrun as (Howned' & Hunowned' & Htotal' & Hbelow').
    + split; [|split; [|split]].
      * intros k. rewrite Howned', Howned. repeat case_decide; lia.
      * rewrite Hunowned', Hunowned. lia.
      * by rewrite Htotal', Htotal.
      * intros n Hbelow Hidx. apply Hbelow'; [|done].
        apply Forall_insert; [done|].
        apply Forall_insert.
        -- eapply (Forall_lookup_1 _ cells); eauto.
        -- simpl. intros k [= <-]. done.
    + intros r' c' Hin.
      destruct (Hcells r' c') as (Hr' & Hc' & cell' & Hcell' & Hnone');
        [by apply list_elem_of_further|].
      do 2 (split; [done|]). exists cell'. split; [|done].
      rewrite <- Hcell'. unfold entry.
      destruct (decide (Z.to_nat r' = Z.to_nat r)) as [Heq|Hne].
      * rewrite Heq, list_lookup_insert_eq by (by eapply lookup_lt_Some).
        rewrite Hrow. simpl. apply list_lookup_insert_ne.
        intros Heq'. apply Hnotin.
        assert (r' = r) as -> by lia. assert (c' = c) as -> by lia. done.
      * by rewrite list_lookup_insert_ne.
Qed.

End ClaimLoop.

Section ScoreInvariant.
Context `{Constants}.
Import Score Grid.

Lemma engine_invariant_score_invariant g :
  engine_invariant g → score_invariant g.
Proof.
  intros (Hscores & Hsum & _). split; [|done].
  intros k p Hp. apply Hscores. by rewrite list_lookup_fmap, Hp.
Qed.

Lemma engine_invariant_transfer g g' :
  Player.score <$> players g' = Player.score <$> players g →
  land_cells g' = land_cells g →
  (state g' = GAME_STATE_WAITING → state g = GAME_STATE_WAITING) →
  engine_invariant g → engine_invariant g'.
Proof.
  unfold engine_invariant, scores_match. intros -> -> Hst.
  intros (? & ? & ? & Hw). auto 10.
Qed.

Lemma unowned_all cells :
  Forall (Forall (λ c, LandCell.owner c = None)) cells →
  unowned_value cells = total_value cells ∧
  (∀ k, owned_value k cells = 0) ∧
  (∀ n, owners_below n cells).
Proof.
  intros Hnone. split; [|split].
  - apply land_sum_ext. eapply list.Forall_impl; [done|]. intros row Hrow.
    eapply list.Forall_impl; [done|]. intros c ->. done.
  - intros k. apply land_sum_zero. eapply list.Forall_impl; [done|].
    intros row Hrow. eapply list.Forall_impl; [done|]. intros c ->. done.
  - intros n. eapply list.Forall_impl; [done|]. intros row Hrow.
    eapply list.Forall_impl; [done|]. intros c -> k. done.
Qed.

Lemma owned_past_roster n cells k :
  owners_below n cells → (n ≤ k)%nat → owned_value k cells = 0.
Proof.
  intros Hbelow Hk. apply land_sum_zero. eapply list.Forall_impl; [done|].
  intros row Hrow. eapply list.Forall_impl; [done|]. intros c Hc. simpl.
  case_decide as Howner; [|done]. apply Hc in Howner. lia.
Qed.

Lemma owners_below_mono n n' cells :
  owners_below n cells → (n ≤ n')%nat → owners_below n' cells.
Proof.
  intros Hbelow Hn. eapply list.Forall_impl; [done|]. intros row Hrow.
  eapply list.Forall_impl; [done|]. intros c Hc k Hk%Hc. lia.
Qed.

Lemma init_invariant grid_size_ max_players_ game_id fresh turn_timeout_
    land_types :
  engine_invariant
    (init grid_size_ max_players_ game_id fresh turn_timeout_ land_types).
Proof.
  assert (Hnone : Forall (Forall (λ c, LandCell.owner c = None))
                    (distribute_land_types grid_size_ land_types)).
  { unfold distribute_land_types. apply Forall_fmap, Forall_true. intros row.
    simpl. apply Forall_fmap, Forall_true. done. }
  destruct (unowned_all _ Hnone) as (Hun & Hown & Hbelow).
  unfold engine_invariant, scores_match. simpl.
  split; [done|]. split; [by rewrite Hun|]. split; [done|]. done.
Qed.

Lemma add_player_invariant g name_ player_id fresh now clock :
  engine_invariant g →
  engine_invariant
    (add_player g (Player.init name_ player_id fresh now) clock).2.
Proof.
  intros (Hscores & Hsum & Hbelow & Hwaiting).
  unfold add_player. case_match; [|done]. simpl.
  assert (Hinv : scores_match
            (Player.score
               <$> players g ++ [Player.init name_ player_id fresh now])
            (land_cells g) (state g = GAME_STATE_WAITING)).
  { rewrite fmap_app. simpl. split; [|split; [|split]].
    - intros k s Hk. apply lookup_app_Some in Hk as [Hk|[Hge Hk]].
      + by apply Hscores.
      + apply list_lookup_singleton_Some in Hk as [_ <-]. symmetry.
        eapply owned_past_roster; [done|]. by rewrite length_fmap in *.
    - rewrite zsum_app. simpl. lia.
    - eapply owners_below_mono; [done|]. rewrite length_app. lia.
    - intros Hw. destruct (Hwaiting Hw) as [Hzero Hnone]. split; [|done].
      apply Forall_app. split; [done|]. by constructor. }
  case_match; [|done].
  destruct Hinv as (? & ? & ? & _). repeat split; try done.
Qed.

Lemma remove_player_invariant g player_id now :
  engine_invariant g →
  state g = GAME_STATE_WAITING ∨ (remove_player g player_id now).1.1 = false →
  engine_invariant (remove_player g player_id now).1.2.
Proof.
  intros Hinv [Hw|Habsent].
  - rewrite remove_player_not_playing by (rewrite Hw; done).
    destruct (list_find _ _) as [[i p]|] eqn:Hfind; [|done]. simpl.
    destruct Hinv as (_ & Hsum & _ & Hwaiting).
    destruct (Hwaiting Hw) as [Hzero Hnone].
    destruct (unowned_all _ Hnone) as (Hun & Hown & Hbelow).
    assert (Hzero' : Forall (λ s, s = 0)
                       (Player.score <$> delete i (players g))).
    { apply Forall_fmap, Forall_delete. by apply Forall_fmap in Hzero. }
    unfold engine_invariant, scores_match. simpl.
    split; [|split; [|split]]; [| |done|done].
    + intros k s Hk. rewrite Hown.
      eapply list.Forall_forall in Hzero'; [done|].
      by eapply list_elem_of_lookup_2.
    + rewrite (zsum_zero _ Hzero'). rewrite (zsum_zero _ Hzero) in Hsum. done.
  - unfold remove_player in *.
    destruct (list_find _ _) as [[i p]|]; [done|]. done.
Qed.

Lemma scores_add_score (ps : list Player.t) (idx : nat) gained p :
  ps !! idx = Some p →
  Player.score <$> alter (Player.add_score gained) idx ps
  = <[idx := Player.score p + gained]> (Player.score <$> ps).
Proof.
  intros Hp. apply list_eq. intros k.
  rewrite list_lookup_fmap. destruct (decide (k = idx)) as [->|Hne].
  - rewrite list_lookup_alter_eq, Hp. simpl.
    rewrite list_lookup_insert_eq; [done|].
    rewrite length_fmap. by eapply lookup_lt_Some.
  - rewrite list_lookup_alter_ne, list_lookup_insert_ne by done.
    by rewrite list_lookup_fmap.
Qed.

Lemma credited_state g3 player_id claimed cells score_gained clock :
  state g3 = GAME_STATE_PLAYING →
  state (credited g3 player_id claimed cells score_gained clock)
  ≠ GAME_STATE_WAITING.
Proof.
  intros Hst. unfold credited. simpl. case_match.
  - by rewrite end_game_state.
  - simpl. by rewrite Hst.
Qed.

Lemma moved_invariant g g1 row col orientation player_id clock :
  set_fence g row col orientation = Ok (Some g1) →
  engine_invariant g →
  engine_invariant (moved g1 player_id row col orientation clock).
Proof.
  intros (Hps & _ & Hst & Hcells & _)%set_fence_frame.
  apply engine_invariant_transfer; simpl.
  - rewrite Hps. by apply fmap_alter_keep.
  - done.
  - by rewrite Hst.
Qed.

Lemma place_fence_invariant g player_id row col orientation clock ok claimed
    g' :
  engine_invariant g →
  place_fence g player_id row col orientation clock = Ok (ok, claimed, g') →
  engine_invariant g'.
Proof.
  intros Hinv Hpf. destruct ok.
  - apply place_fence_true in Hpf
      as (cp & g1 & Hst & Hcp & _ & _ & Hset & Hscan & Hcases).
    pose proof (moved_invariant g g1 row col orientation player_id clock
                  Hset Hinv) as Hinv3.
    pose proof Hset as (Hps1 & Hidx1 & Hst1 & _)%set_fence_frame.
    set (g3 := moved g1 player_id row col orientation clock) in *.
    destruct Hcases as [[_ ->]|(_ & cells & gained & Hclaim & ->)].
    + revert Hinv3. apply engine_invariant_transfer; simpl.
      * by destruct (next_turn_frame g3 (clock 4%nat)) as (-> & _).
      * by destruct (next_turn_frame g3 (clock 4%nat)) as (_ & _ & -> & _).
      * by destruct (next_turn_frame g3 (clock 4%nat)) as (_ & -> & _).
    + apply check_claimed_land_Ok in Hscan as [_ ->].
      apply get_current_player_Some in Hcp as [Hcp Hlt].
      assert (Hp3 : ∃ p3, players g3 !! current_player_idx g3 = Some p3 ∧
                          Player.score p3 = Player.score cp).
      { exists (Player.update_activity (clock 2%nat) cp). split; [|done].
        subst g3. simpl. rewrite Hps1, Hidx1.
        by rewrite list_lookup_alter_eq, Hcp. }
      destruct Hp3 as (p3 & Hp3 & _).
      destruct (claim_loop (current_player_idx g3) (scan g3) (land_cells g3)
                  0 cells gained (NoDup_scan g3))
        as (Howned & Hunowned & Htotal & Hbelow); [|done|].
      { intros r c (Hr & Hc & Hq)%elem_of_scan.
        apply qualifies_true in Hq as [(cell & Hcell & Hnone) _].
        do 2 (split; [lia|]). exists cell. split; [|done].
        apply entry_Some_getitem2; [lia..|done]. }
      destruct (credited_frame g3 player_id (scan g3) cells gained clock)
        as (_ & _ & _ & _ & _ & Hcells' & _ & Hscores').
      destruct Hinv3 as (Hscores3 & Hsum3 & Hbelow3 & _).
      unfold engine_invariant, scores_match. simpl.
      rewrite Hcells', Hscores', (scores_add_score _ _ _ _ Hp3).
      assert (Hs3 : (Player.score <$> players g3) !! current_player_idx g3
                    = Some (Player.score p3))
        by by rewrite list_lookup_fmap, Hp3.
      split; [|split; [|split]].
      * intros k s Hk. rewrite Howned.
        destruct (decide (k = current_player_idx g3)) as [->|Hne].
        -- rewrite list_lookup_insert_eq in Hk by (by eapply lookup_lt_Some).
           injection Hk as <-. rewrite (Hscores3 _ _ Hs3). lia.
        -- rewrite list_lookup_insert_ne in Hk by done.
           rewrite (Hscores3 _ _ Hk). lia.
      * rewrite (zsum_insert _ _ _ _ Hs3), Hunowned, Htotal. lia.
      * rewrite length_insert. apply Hbelow; [done|].
        by eapply lookup_lt_Some.
      * intros Hw. exfalso. revert Hw. apply credited_state.
        subst g3. simpl. congruence.
  - apply place_fence_false in Hpf as (_ & [->|(_ & _ & _ & ->)]); [done|].
    revert Hinv. apply engine_invariant_transfer.
    + by destruct (next_turn_frame g (clock 1%nat)) as (-> & _).
    + by destruct (next_turn_frame g (clock 1%nat)) as (_ & _ & -> & _).
    + by destruct (next_turn_frame g (clock 1%nat)) as (_ & -> & _).
Qed.

Lemma end_game_invariant g now :
  engine_invariant g → engine_invariant (end_game g now).
Proof.
  apply engine_invariant_transfer.
  - apply end_game_scores.
  - by destruct (end_game_frame g now) as (_ & _ & _ & _ & _ & -> & _).
  - by rewrite end_game_state.
Qed.

Lemma reachable_keeping_players_invariant g :
  reachable_keeping_players g → engine_invariant g.
Proof.
  induction 1 as [| | | |g clock g' _ IH Hci|].
  - apply init_invariant.
  - by apply add_player_invariant.
  - by apply remove_player_invariant.
  - by eapply place_fence_invariant.
  - by apply check_inactivity_cases in Hci
      as [[_ ->]|([=] & _)].
  - by apply end_game_invariant.
Qed.

(** C6, as the code has it. As long as no player has left a game that has
    started, each player's score is the sum of the values of the cells
    whose owner field is that player's index, and the scores of the players
    plus the values of the unowned cells make up the total value of the
    land. *)
Theorem score_invariant_keeping_players g :
  reachable_keeping_players g → score_invariant g.
Proof.
  intros Hrun.
  by apply engine_invariant_score_invariant,
           reachable_keeping_players_invariant.
Qed.

End ScoreInvariant.

Lemma bob_claimed_keeping_players :
  Score.reachable_keeping_players (H := sample_constants) Sample.bob_claimed.
Proof.
  assert (Hr : Score.reachable_keeping_players (H := sample_constants)
                 Sample.two_players).
  { apply (Score.keep_add_player _ "bob" None "b" 1 (Sample.at_time 1)).
    apply (Score.keep_add_player _ "alice" None "a" 1 (Sample.at_time 1)).
    apply Score.keep_init. }
  eapply (Score.keep_place_fence _ "a" 0 0 "horizontal" (Sample.at_time 2))
    in Hr; [|vm_compute; reflexivity].
  eapply (Score.keep_place_fence _ "b" 1 0 "horizontal" (Sample.at_time 2))
    in Hr; [|vm_compute; reflexivity].
  eapply (Score.keep_place_fence _ "a" 0 0 "vertical" (Sample.at_time 2))
    in Hr; [|vm_compute; reflexivity].
  eapply (Score.keep_place_fence _ "b" 0 1 "vertical" (Sample.at_time 2))
    in Hr; [|vm_compute; reflexivity].
  exact Hr.
Qed.

Lemma score_invariant_keeping_players_witness :
  Score.score_invariant Sample.bob_claimed.
Proof.
  apply (score_invariant_keeping_players (H := sample_constants)).
  apply bob_claimed_keeping_players.
Defined.

(** C6 fails once a player has left. After alice's departure bob is at
    index 0 with a score of 5, while the gold cell he claimed still names
    index 1 as its owner; after bob's departure the scores (0) and the
    unowned cells (3) no longer add up to the value of the land (8). *)
Lemma score_invariant_broken_by_departure :
  (reachable (H := sample_constants) Sample.alice_left ∧
   ¬ Score.score_invariant Sample.alice_left) ∧
  (reachable (H := sample_constants) Sample.bob_left ∧
   ¬ Score.score_invariant Sample.bob_left).
Proof.
  split; split.
  - apply alice_left_reachable.
  - intros [Hscore _].
    destruct (players Sample.alice_left !! 0%nat) as [p|] eqn:Hp;
      [|vm_compute in Hp; discriminate].
    specialize (Hscore 0%nat p Hp).
    vm_compute in Hp. injection Hp as <-.
    vm_compute in Hscore. discriminate.
  - apply reach_remove_player, bob_claimed_reachable.
  - intros [_ Hsum]. vm_compute in Hsum. discriminate.
Qed.

(** ** No operation raises on a game of the constructor's dimensions *)

Section NoIndexError.
Context `{Constants}.
Import Grid.

Lemma has_shape_entry {A} rows cols (m : list (list A)) (i j : nat) :
  has_shape rows cols m →
  (i < Z.to_nat rows)%nat → (j < Z.to_nat cols)%nat →
  is_Some (entry m i j).
Proof.
  intros [Hlen Hrows] Hi Hj. unfold entry.
  destruct (lookup_lt_is_Some_2 m i) as [row Hrow]; [lia|].
  rewrite Hrow. simpl. apply lookup_lt_is_Some_2.
  eapply list.Forall_forall in Hrows; [|by eapply list_elem_of_lookup_2].
  simpl in Hrows. lia.
Qed.

Lemma init_well_shaped grid_size_ max_players_ game_id fresh turn_timeout_
    land_types :
  well_shaped
    (init grid_size_ max_players_ game_id fresh turn_timeout_ land_types).
Proof.
  split; [|split]; simpl.
  - split; [by rewrite length_replicate|].
    apply Forall_replicate. by rewrite length_replicate.
  - split; [by rewrite length_replicate|].
    apply Forall_replicate. by rewrite length_replicate.
  - apply distribute_land_types_shape.
Qed.

Lemma set_fence_returns g row col orientation :
  well_shaped g → ∃ r, set_fence g row col orientation = Ok r.
Proof.
  intros (Hh & Hv & _). unfold set_fence.
  destruct (String.eqb orientation ORIENTATION_HORIZONTAL).
  - destruct (negb _) eqn:Hrange; [eauto|].
    apply negb_false_iff in Hrange.
    repeat (apply andb_prop in Hrange as [Hrange ?]).
    destruct (has_shape_entry _ _ _ (Z.to_nat row) (Z.to_nat col) Hh)
      as [present Hpresent]; [lia..|].
    rewrite (proj1 (entry_Some_getitem2 _ row col present
                      ltac:(lia) ltac:(lia)) Hpresent). simpl.
    destruct present; [eauto|].
    destruct (setitem2_entry (horizontal_fences g) row col true)
      as (fences & -> & _); [lia..|by eexists|]. simpl. eauto.
  - destruct (String.eqb orientation ORIENTATION_VERTICAL); [|eauto].
    destruct (negb _) eqn:Hrange; [eauto|].
    apply negb_false_iff in Hrange.
    repeat (apply andb_prop in Hrange as [Hrange ?]).
    destruct (has_shape_entry _ _ _ (Z.to_nat row) (Z.to_nat col) Hv)
      as [present Hpresent]; [lia..|].
    rewrite (proj1 (entry_Some_getitem2 _ row col present
                      ltac:(lia) ltac:(lia)) Hpresent). simpl.
    destruct present; [eauto|].
    destruct (setitem2_entry (vertical_fences g) row col true)
      as (fences & -> & _); [lia..|by eexists|]. simpl. eauto.
Qed.

Lemma set_fence_well_shaped g row col orientation g1 :
  set_fence g row col orientation = Ok (Some g1) →
  well_shaped g → well_shaped g1.
Proof.
  intros Hset (Hh & Hv & Hc).
  pose proof Hset as (_ & _ & _ & Hcells & _ & _ & _ & Hgs)%set_fence_frame.
  apply set_fence_Some in Hset
    as [(_ & Hrow & Hcol & Hget & fences & Hfences & ->)
       |(_ & _ & Hrow & Hcol & Hget & fences & Hfences & ->)];
    destruct (entry_setitem2 _ _ row col _ _ ltac:(lia) ltac:(lia)
                Hget Hfences) as (_ & _ & _ & _ & Hlen);
    (split; [|split]); simpl; try done;
    by eapply has_shape_lengths.
Qed.

(** The claim loop keeps the dimensions of the land and never raises on
    cells that exist. *)
Lemma claim_cells_returns idx claimed cells :
  (∀ r c, (r, c) ∈ claimed →
          0 ≤ r ∧ 0 ≤ c ∧ is_Some (entry cells (Z.to_nat r) (Z.to_nat c))) →
  ∃ cells' gained,
    claim_cells idx claimed cells = Ok (cells', gained) ∧
    length <$> cells' = length <$> cells.
Proof.
  intros Hcells. unfold claim_cells.
  destruct (for_each_invariant
    (λ _ (acc : list (list LandCell.t) * Z),
       length <$> acc.1 = length <$> cells ∧
       ∀ i j, is_Some (entry acc.1 i j) ↔ is_Some (entry cells i j))
    (claim_cell idx) claimed (cells, 0))
    as ([cells' gained] & Hrun & Hlen & _).
  - done.
  - intros _ [r c] [cells1 gained1] [Hlen1 Hsome1] Hin. simpl in *.
    destruct (Hcells r c Hin) as (Hr & Hc & Hentry).
    apply Hsome1 in Hentry as [cell Hcell].
    destruct (setitem2_entry cells1 r c
                (LandCell.set_owner (Some idx) cell))
      as (cells2 & Hset & Hlen2 & Hentries2); [done..|by eexists|].
    apply entry_Some_getitem2 in Hcell; [|done..].
    unfold claim_cell. rewrite Hcell. simpl. rewrite Hset. simpl.
    eexists. split; [done|]. simpl. split; [congruence|].
    intros i j. rewrite Hentries2, <- Hsome1.
    case_decide as Hij; [|done]. destruct Hij as [-> ->].
    apply entry_Some_getitem2 in Hcell; [|done..]. rewrite Hcell.
    split; eauto.
  - eauto.
Qed.

Lemma moved_well_shaped g1 player_id row col orientation clock :
  well_shaped g1 →
  well_shaped (moved g1 player_id row col orientation clock).
Proof. done. Qed.

(** [place_fence] returns on every well-shaped game, and leaves it well
    shaped. *)
Lemma place_fence_returns g player_id row col orientation clock :
  well_shaped g →
  ∃ ok claimed g',
    place_fence g player_id row col orientation clock = Ok (ok, claimed, g') ∧
    well_shaped g'.
Proof.
  intros Hshape. unfold place_fence.
  destruct (decide (state g ≠ _)); [eauto 10|].
  destruct (get_current_player_returns g) as [[cp|] ->]; simpl; [|eauto 10].
  destruct (negb _); [eauto 10|].
  destruct (turn_expired g (clock 0%nat)).
  { do 3 eexists. split; [done|].
    destruct (next_turn_frame g (clock 1%nat))
      as (_ & _ & Hc & _ & _ & _ & Hgs & Hh & Hv).
    unfold well_shaped. by rewrite Hc, Hgs, Hh, Hv. }
  destruct (set_fence_returns g row col orientation Hshape) as [[g1|] Hset];
    rewrite Hset; simpl; [|eauto 10].
  pose proof (set_fence_well_shaped _ _ _ _ _ Hset Hshape) as Hshape1.
  pose proof (moved_well_shaped g1 player_id row col orientation clock
                Hshape1) as Hshape3.
  set (g3 := moved g1 player_id row col orientation clock) in *.
  rewrite (check_claimed_land_total g3 Hshape3). simpl.
  case_bool_decide as Hnil.
  - do 3 eexists. split; [done|].
    destruct (next_turn_frame g3 (clock 4%nat))
      as (_ & _ & Hc & _ & _ & _ & Hgs & Hh & Hv).
    unfold well_shaped. simpl. by rewrite Hc, Hgs, Hh, Hv.
  - destruct (claim_cells_returns (current_player_idx g1) (scan g3)
                (land_cells g1)) as (cells & gained & -> & Hlen).
    { intros r c (Hr & Hc & _)%elem_of_scan. do 2 (split; [lia|]).
      destruct Hshape3 as (_ & _ & Hland).
      apply (has_shape_entry _ _ _ _ _ Hland); lia. }
    simpl. do 3 eexists. split; [done|].
    destruct (credited_frame g3 player_id (scan g3) cells gained clock)
      as (Hgs & _ & _ & Hh & Hv & Hc & _).
    destruct Hshape3 as (Hh3 & Hv3 & Hland3).
    unfold well_shaped. simpl. rewrite Hgs, Hh, Hv, Hc.
    do 2 (split; [done|]). by eapply has_shape_lengths.
Qed.

Lemma remove_player_grid g player_id now :
  let g' := (remove_player g player_id now).1.2 in
  grid_size g' = grid_size g ∧
  horizontal_fences g' = horizontal_fences g ∧
  vertical_fences g' = vertical_fences g ∧
  land_cells g' = land_cells g.
Proof.
  unfold remove_player.
  destruct (list_find _ _) as [[i p]|]; simpl; [|done].
  destruct (decide (state g = GAME_STATE_PLAYING)); simpl;
    destruct (_ && _); done.
Qed.

(** Every game of a run has the dimensions of the constructor, so no
    operation of a run raises. *)
Lemma reachable_well_shaped g : reachable g → well_shaped g.
Proof.
  induction 1 as [| g name_ pid fresh now clock _ IH
                  | g pid now _ IH
                  | g pid row col o clock ok claimed g' _ IH Hpf
                  | g clock ok g' _ IH Hci
                  | g now _ IH].
  - apply init_well_shaped.
  - destruct (add_player_frame g (Player.init name_ pid fresh now) clock)
      as (Hh & Hv & Hc & _ & Hgs & _).
    unfold well_shaped. by rewrite Hh, Hv, Hc, Hgs.
  - destruct (remove_player_grid g pid now) as (Hgs & Hh & Hv & Hc).
    unfold well_shaped. by rewrite Hh, Hv, Hc, Hgs.
  - destruct (place_fence_returns g pid row col o clock IH)
      as (ok' & claimed' & g'' & Hpf' & Hshape).
    congruence.
  - apply check_inactivity_cases in Hci as [[_ ->]|(_ & _ & pid & ->)];
      [done|].
    destruct (remove_player_grid g pid (clock 1%nat)) as (Hgs & Hh & Hv & Hc).
    unfold well_shaped. by rewrite Hh, Hv, Hc, Hgs.
  - destruct (end_game_frame g now) as (Hgs & _ & _ & Hh & Hv & Hc & _).
    unfold well_shaped. by rewrite Hh, Hv, Hc, Hgs.
Qed.

End NoIndexError.

(** ** Scenarios *)

Section Scenarios.
#[local] Existing Instance sample_constants.

(** On a 2 x 2 grid the first three fences of cell (0,0) claim nothing. *)
Example three_fences_claim_nothing :
  place_fence Sample.two_players "a" 0 0 "horizontal" (Sample.at_time 2)
  = Ok (true, [],
        Sample.move Sample.two_players "a" 0 0 "horizontal") ∧
  Forall (Forall (λ c, LandCell.owner c = None))
         (land_cells Sample.three_fences) ∧
  Player.score <$> players Sample.three_fences = [0; 0].
Proof.
  split; [vm_compute; reflexivity|]. split; [|vm_compute; reflexivity].
  vm_compute. repeat constructor.
Qed.

(** The fourth fence claims the cell for the player who places it, whose
    score grows by the value of the cell, and who keeps the turn. *)
Example fourth_fence_claims :
  ∃ g', place_fence Sample.three_fences "b" 0 1 "vertical" (Sample.at_time 2)
        = Ok (true, [(0, 0)], g') ∧
        g' = Sample.bob_claimed ∧
        entry (land_cells g') 0 0
        = Some (LandCell.mk "gold" (Some 1%nat) 5) ∧
        Player.score <$> players g' = [0; 5] ∧
        current_player_idx g' = 1%nat ∧
        unclaimed_lands g' = 3.
Proof.
  eexists. split; [vm_compute; reflexivity|].
  repeat split; vm_compute; reflexivity.
Qed.

(** Once a player has left, the game is finished and no fence can be
    placed. *)
Example no_fence_after_departure :
  state Sample.alice_left = GAME_STATE_FINISHED ∧
  Player.wins <$> players Sample.alice_left = [1] ∧
  place_fence Sample.alice_left "b" 1 1 "horizontal" (Sample.at_time 12)
  = Ok (false, [], Sample.alice_left).
Proof. repeat split; vm_compute; reflexivity. Qed.

End Scenarios.

(** * Further properties of the engine *)

(** ** The grid after a move *)

Section ClaimedCells.
Import Score Land Grid.

(** The land after the claim loop: the claimed cells have the new owner,
    every other cell is as before; the score gained is the value of the
    claimed cells. *)
Lemma claim_loop_entries idx claimed cells gained0 cells' gained' :
  (∀ r c, (r, c) ∈ claimed → 0 ≤ r ∧ 0 ≤ c) →
  for_each claimed (claim_cell idx) (cells, gained0) = Ok (cells', gained') →
  (∀ i j, entry cells' i j
          = if decide ((Z.of_nat i, Z.of_nat j) ∈ claimed)
            then LandCell.set_owner (Some idx) <$> entry cells i j
            else entry cells i j) ∧
  gained' = gained0 + claimed_value cells claimed ∧
  length <$> cells' = length <$> cells.
Proof.
  revert cells gained0.
  induction claimed as [|[r c] claimed IH]; intros cells gained0 Hpos Hrun.
  - injection Hrun as <- <-. unfold claimed_value. simpl.
    split; [done|]. split; [lia|done].
  - simpl in Hrun. apply bind_Ok in Hrun as ([cells1 gained1] & Hstep & Hrun).
    destruct (Hpos r c) as [Hr Hc]; [apply list_elem_of_here|].
    apply claim_cell_Ok in Hstep as (row & cell & Hrow & Hcell & -> & ->);
      [|done..].
    apply IH in Hrun as (Hentries & -> & Hlen);
      [|intros r' c' Hin; apply Hpos; by apply list_elem_of_further].
    assert (Hcell' : entry cells (Z.to_nat r) (Z.to_nat c) = Some cell)
      by (unfold entry; by rewrite Hrow).
    assert (Hone : ∀ i j,
      entry (<[Z.to_nat r := <[Z.to_nat c :=
               LandCell.set_owner (Some idx) cell]> row]> cells) i j
      = if decide (i = Z.to_nat r ∧ j = Z.to_nat c)
        then Some (LandCell.set_owner (Some idx) cell)
        else entry cells i j).
    { intros i j. unfold entry. case_decide as Hij.
      - destruct Hij as [-> ->].
        rewrite list_lookup_insert_eq by (by eapply lookup_lt_Some). simpl.
        apply list_lookup_insert_eq. by eapply lookup_lt_Some.
      - destruct (decide (i = Z.to_nat r)) as [->|Hi].
        + rewrite list_lookup_insert_eq by (by eapply lookup_lt_Some).
          rewrite Hrow. simpl. apply list_lookup_insert_ne.
          intros <-. by destruct Hij.
        + by rewrite list_lookup_insert_ne. }
    split; [|split].
    + intros i j. rewrite Hentries, Hone.
      destruct (decide (i = Z.to_nat r ∧ j = Z.to_nat c)) as [[-> ->]|Hij].
      * rewrite !Z2Nat.id by lia. rewrite Hcell'. simpl.
        rewrite (decide_True (P := (r, c) ∈ (r, c) :: claimed))
          by apply list_elem_of_here.
        by case_decide.
      * apply decide_ext. rewrite elem_of_cons.
        split; [tauto|]. intros [[= <- <-]|?]; [|done].
        destruct Hij. by rewrite !Nat2Z.id.
    + unfold claimed_value. rewrite !fmap_cons. simpl.
      unfold value_at at 2. simpl. rewrite Hcell'. simpl.
      assert (value_at (<[Z.to_nat r := <[Z.to_nat c :=
                LandCell.set_owner (Some idx) cell]> row]> cells)
                <$> claimed
              = value_at cells <$> claimed) as ->; [|lia].
      apply list_fmap_ext. intros _ [r' c'] _. unfold value_at. simpl.
      rewrite Hone. case_decide as Hij; [|done].
      destruct Hij as [-> ->]. by rewrite Hcell'.
    + rewrite Hlen, list_fmap_insert, length_insert.
      apply list_insert_id. by rewrite list_lookup_fmap, Hrow.
Qed.

End ClaimedCells.

Section MoveOutcome.
Context `{Constants}.
Import Score Land Grid.

(** What a successful move does to the grid, the counter and the scores. *)
Lemma place_fence_outcome g player_id row col orientation clock claimed g' :
  place_fence g player_id row col orientation clock = Ok (true, claimed, g') →
  ∃ g1 mover,
    set_fence g row col orientation = Ok (Some g1) ∧
    players g !! current_player_idx g = Some mover ∧
    Player.id mover = player_id ∧
    claimed = scan g1 ∧
    horizontal_fences g' = horizontal_fences g1 ∧
    vertical_fences g' = vertical_fences g1 ∧
    grid_size g' = grid_size g ∧
    (∀ i j, entry (land_cells g') i j
            = if decide ((Z.of_nat i, Z.of_nat j) ∈ claimed)
              then LandCell.set_owner (Some (current_player_idx g))
                     <$> entry (land_cells g) i j
              else entry (land_cells g) i j) ∧
    length <$> land_cells g' = length <$> land_cells g ∧
    unclaimed_lands g' = unclaimed_lands g - Z.of_nat (length claimed) ∧
    Player.score <$> players g'
    = <[current_player_idx g :=
          Player.score mover + claimed_value (land_cells g) claimed]>
        (Player.score <$> players g).
Proof.
  intros (cp & g1 & Hst & Hcp & Hid & _ & Hset & Hscan & Hcases)
    %place_fence_true.
  pose proof Hset as (Hps1 & Hidx1 & _ & Hcells1 & Hun1 & _ & _ & Hgs1)
    %set_fence_frame.
  apply get_current_player_Some in Hcp as [Hcp Hlt].
  apply check_claimed_land_Ok in Hscan as [_ Hscan].
  change (scan (moved g1 player_id row col orientation clock))
    with (scan g1) in Hscan.
  exists g1, cp. do 4 (split; [done|]).
  assert (Hsame : Player.score <$> players g
                  = <[current_player_idx g := Player.score cp + 0]>
                      (Player.score <$> players g)).
  { symmetry. apply list_insert_id.
    rewrite list_lookup_fmap, Hcp. simpl. f_equal. lia. }
  destruct Hcases as [[Hnil ->]|(Hne & cells & gained & Hclaim & ->)].
  - pose proof (next_turn_frame
      (moved g1 player_id row col orientation clock) (clock 4%nat)) as Hf.
    simpl in Hf. destruct Hf as (Hps & _ & Hc & Hun & _ & _ & Hgs & Hh & Hv).
    simpl. rewrite Hps, Hc, Hun, Hgs, Hh, Hv, Hnil, Hps1, Hidx1, Hcells1, Hun1.
    do 3 (split; [done|]). split; [done|]. split; [done|].
    split; [simpl; lia|].
    unfold claimed_value. simpl.
    rewrite (fmap_alter_keep Player.score) by done. done.
  - pose proof (credited_frame
      (moved g1 player_id row col orientation clock)
      player_id claimed cells gained clock) as Hf.
    simpl in Hf. destruct Hf as (Hgs & _ & _ & Hh & Hv & Hc & Hun & Hsc).
    unfold claim_cells in Hclaim. simpl in Hclaim.
    apply claim_loop_entries in Hclaim as (Hentries & -> & Hlen).
    2:{ intros r c Hin. rewrite Hscan in Hin.
        apply elem_of_scan in Hin. lia. }
    simpl. rewrite Hgs, Hh, Hv, Hc, Hun, Hsc.
    rewrite Hidx1, Hcells1 in *. rewrite Hun1, Hgs1.
    do 3 (split; [done|]). split; [done|]. split; [done|].
    split; [done|].
    rewrite Hps1.
    erewrite scores_add_score
      by (rewrite list_lookup_alter_eq, Hcp; done).
    simpl. rewrite (fmap_alter_keep Player.score) by done.
    f_equal; lia.
Qed.

End MoveOutcome.

(** ** One operation at a time *)

Section Steps.
Context `{Constants}.
Import Score Land Grid.

(** Every run is a sequence of steps from a new game. *)
Lemma reachable_by_steps (P : t → Prop) :
  (∀ grid_size_ max_players_ game_id fresh turn_timeout_ land_types,
     P (init grid_size_ max_players_ game_id fresh turn_timeout_ land_types)) →
  (∀ g g', reachable g → P g → step g g' → P g') →
  ∀ g, reachable g → P g.
Proof.
  intros Hinit Hstep. induction 1; [apply Hinit|..];
    (eapply Hstep; [done|done|]).
  - apply step_add_player.
  - apply step_remove_player.
  - by eapply step_place_fence.
  - by eapply step_check_inactivity.
  - apply step_end_game.
Qed.

Lemma remove_player_keeps_grid g player_id now :
  let g' := (remove_player g player_id now).1.2 in
  grid_size g' = grid_size g ∧
  horizontal_fences g' = horizontal_fences g ∧
  vertical_fences g' = vertical_fences g ∧
  land_cells g' = land_cells g ∧
  unclaimed_lands g' = unclaimed_lands g.
Proof.
  unfold remove_player.
  destruct (list_find _ _) as [[i p]|]; simpl; [|done].
  destruct (decide (state g = GAME_STATE_PLAYING)); simpl;
    destruct (_ && _); done.
Qed.

(** A step either leaves the grid alone or is a successful move. *)
Lemma step_cases g g' :
  step g g' →
  (grid_size g' = grid_size g ∧
   horizontal_fences g' = horizontal_fences g ∧
   vertical_fences g' = vertical_fences g ∧
   land_cells g' = land_cells g ∧
   unclaimed_lands g' = unclaimed_lands g)
  ∨
  (∃ player_id row col orientation clock claimed,
     place_fence g player_id row col orientation clock
     = Ok (true, claimed, g')).
Proof.
  destruct 1 as [g player clock|g pid now
                |g pid row col o clock ok claimed g' Hpf
                |g clock ok g' Hci|g now].
  - left. destruct (add_player_frame g player clock)
      as (? & ? & ? & ? & ? & _). done.
  - left. apply remove_player_keeps_grid.
  - destruct ok; [right; eauto 10|left].
    apply place_fence_false in Hpf as (_ & [->|(_ & _ & _ & ->)]); [done|].
    destruct (next_turn_frame g (clock 1%nat))
      as (_ & _ & ? & ? & _ & _ & ? & ? & ?). done.
  - left. apply check_inactivity_cases in Hci
      as [[_ ->]|(_ & _ & pid & ->)]; [done|].
    apply remove_player_keeps_grid.
  - left. destruct (end_game_frame g now)
      as (? & _ & _ & ? & ? & ? & ? & _). done.
Qed.

(** The entries of the lattices after [set_fence]. *)
Lemma set_fence_entries g row col orientation g1 :
  set_fence g row col orientation = Ok (Some g1) →
  0 ≤ row ∧ 0 ≤ col ∧
  (∀ i j, entry (horizontal_fences g1) i j = Some true ↔
          entry (horizontal_fences g) i j = Some true ∨
          (orientation = ORIENTATION_HORIZONTAL ∧
           i = Z.to_nat row ∧ j = Z.to_nat col)) ∧
  (∀ i j, entry (vertical_fences g1) i j = Some true ↔
          entry (vertical_fences g) i j = Some true ∨
          (orientation ≠ ORIENTATION_HORIZONTAL ∧
           orientation = ORIENTATION_VERTICAL ∧
           i = Z.to_nat row ∧ j = Z.to_nat col)) ∧
  length <$> horizontal_fences g1 = length <$> horizontal_fences g ∧
  length <$> vertical_fences g1 = length <$> vertical_fences g.
Proof.
  intros [(Ho & Hrow & Hcol & Hget & fences & Hfences & ->)
         |(Hno & Ho & Hrow & Hcol & Hget & fences & Hfences & ->)]
    %set_fence_Some;
    destruct (entry_setitem2 _ _ row col _ _ ltac:(lia) ltac:(lia)
                Hget Hfences) as (Hold & Hnew & Hother & _ & Hlen);
    simpl; (split; [lia|]); (split; [lia|]).
  - split; [|split; [|done]].
    + intros i j.
      destruct (decide ((i, j) = (Z.to_nat row, Z.to_nat col)))
        as [[= -> ->]|Hne].
      * rewrite Hnew. split; [auto|done].
      * rewrite (Hother i j Hne). split; [auto|].
        intros [?|(_ & -> & ->)]; [done|]. by destruct Hne.
    + intros i j. split; [auto|]. intros [?|(? & _)]; done.
  - split; [|split; [|done]].
    + intros i j. split; [auto|]. intros [?|(? & _)]; [done|]. congruence.
    + intros i j.
      destruct (decide ((i, j) = (Z.to_nat row, Z.to_nat col)))
        as [[= -> ->]|Hne].
      * rewrite Hnew. split; [auto 10|done].
      * rewrite (Hother i j Hne). split; [auto|].
        intros [?|(_ & _ & -> & ->)]; [done|]. by destruct Hne.
Qed.

Lemma end_game_history g now :
  game_history (end_game g now)
  = game_history g
    ++ if decide (state g = GAME_STATE_FINISHED) then [] else [game_over now].
Proof.
  unfold end_game. case_decide; [by rewrite app_nil_r|].
  repeat case_match; done.
Qed.

End Steps.

(** ** What lasts for the lifetime of a game *)

Section Permanence.
Context `{Constants}.
Import Score Land Grid.

Lemma place_fence_history g player_id row col orientation clock claimed g' :
  place_fence g player_id row col orientation clock = Ok (true, claimed, g') →
  game_history g'
  = game_history g
    ++ fence_placed player_id row col orientation (clock 3%nat)
       :: if decide (claimed = []) then []
          else land_claimed player_id claimed
                 (claimed_value (land_cells g) claimed) (clock 5%nat)
               :: if unclaimed_lands g - Z.of_nat (length claimed) =? 0
                  then [game_over (clock 6%nat)]
                  else [].
Proof.
  intros (cp & g1 & Hst & _ & _ & _ & Hset & Hscan & Hcases)%place_fence_true.
  pose proof Hset as (_ & Hidx1 & Hst1 & Hcells1 & Hun1 & Hhist1 & _)
    %set_fence_frame.
  destruct Hcases as [[-> ->]|(Hne & cells & gained & Hclaim & ->)].
  - destruct (next_turn_frame
      (moved g1 player_id row col orientation clock) (clock 4%nat))
      as (_ & _ & _ & _ & Hhist & _).
    simpl in *. by rewrite Hhist, Hhist1.
  - rewrite decide_False by done.
    unfold claim_cells in Hclaim.
    apply claim_loop_entries in Hclaim as (_ & -> & _).
    2:{ intros r c Hin. apply check_claimed_land_Ok in Hscan as [_ ->].
        apply elem_of_scan in Hin. lia. }
    simpl. unfold credited. simpl. rewrite Hcells1, Hun1, Z.add_0_l.
    destruct (_ =? 0).
    + rewrite end_game_history. simpl.
      rewrite decide_False by (rewrite Hst1, Hst; done).
      by rewrite Hhist1, <- !app_assoc.
    + simpl. by rewrite Hhist1, <- !app_assoc.
Qed.

Lemma step_history g g' :
  step g g' → game_history g `prefix_of` game_history g'.
Proof.
  destruct 1 as [g player clock|g pid now
                |g pid row col o clock ok claimed g' Hpf
                |g clock ok g' Hci|g now].
  - unfold add_player. repeat case_match; done.
  - unfold remove_player. destruct (list_find _ _) as [[i p]|]; [|done].
    simpl. destruct (decide (state g = _)); simpl;
      destruct (_ && _); simpl; try done; by apply prefix_app_r.
  - destruct ok.
    + rewrite (place_fence_history _ _ _ _ _ _ _ _ Hpf).
      by apply prefix_app_r.
    + apply place_fence_false in Hpf as (_ & [->|(_ & _ & _ & ->)]); [done|].
      by destruct (next_turn_frame g (clock 1%nat))
        as (_ & _ & _ & _ & -> & _).
  - apply check_inactivity_cases in Hci as [[_ ->]|(_ & _ & pid & ->)];
      [done|].
    unfold remove_player. destruct (list_find _ _) as [[i p]|]; [|done].
    simpl. destruct (decide (state g = _)); simpl;
      destruct (_ && _); simpl; try done; by apply prefix_app_r.
  - rewrite end_game_history. by apply prefix_app_r.
Qed.

(** X1. The history of a game only grows: whatever operations are called,
    in whatever order, the replay of the earlier game is a prefix of the
    replay of the later one. *)
Theorem replay_is_append_only g g' :
  rtc step g g' → get_replay g `prefix_of` get_replay g'.
Proof.
  induction 1 as [g|g g1 g' Hstep _ IH]; [done|].
  etransitivity; [|exact IH]. by apply step_history.
Qed.

Lemma step_fences g g' :
  step g g' →
  (∀ i j, entry (horizontal_fences g) i j = Some true →
          entry (horizontal_fences g') i j = Some true) ∧
  (∀ i j, entry (vertical_fences g) i j = Some true →
          entry (vertical_fences g') i j = Some true) ∧
  length <$> horizontal_fences g' = length <$> horizontal_fences g ∧
  length <$> vertical_fences g' = length <$> vertical_fences g.
Proof.
  intros [(_ & -> & -> & _)|(pid & row & col & o & clock & claimed & Hpf)]
    %step_cases; [done|].
  apply place_fence_outcome in Hpf
    as (g1 & _ & Hset & _ & _ & _ & -> & -> & _).
  apply set_fence_entries in Hset as (_ & _ & Hh & Hv & Hlh & Hlv).
  repeat split; try done.
  - intros i j Htrue. apply Hh. by left.
  - intros i j Htrue. apply Hv. by left.
Qed.

(** X2. A fence that is set stays set, and the lattices keep their
    dimensions, whatever operations follow. *)
Theorem fences_are_permanent g g' :
  rtc step g g' →
  (∀ i j, entry (horizontal_fences g) i j = Some true →
          entry (horizontal_fences g') i j = Some true) ∧
  (∀ i j, entry (vertical_fences g) i j = Some true →
          entry (vertical_fences g') i j = Some true) ∧
  length <$> horizontal_fences g' = length <$> horizontal_fences g ∧
  length <$> vertical_fences g' = length <$> vertical_fences g.
Proof.
  induction 1 as [g|g g1 g' Hstep _ (IHh & IHv & IHlh & IHlv)]; [done|].
  apply step_fences in Hstep as (Hh & Hv & Hlh & Hlv).
  repeat split; [auto|auto|congruence|congruence].
Qed.

Lemma step_land g g' :
  step g g' →
  ∀ i j cell,
    entry (land_cells g) i j = Some cell →
    ∃ cell', entry (land_cells g') i j = Some cell' ∧
             LandCell.type cell' = LandCell.type cell ∧
             LandCell.value cell' = LandCell.value cell ∧
             (∀ k, LandCell.owner cell = Some k →
                   LandCell.owner cell' = Some k).
Proof.
  intros [(_ & _ & _ & -> & _)|(pid & row & col & o & clock & claimed & Hpf)]
    %step_cases i j cell Hcell; [eauto|].
  apply place_fence_outcome in Hpf
    as (g1 & _ & Hset & _ & _ & -> & _ & _ & _ & Hentries & _).
  apply set_fence_frame in Hset as (_ & _ & _ & Hcells1 & _).
  rewrite Hentries, Hcell. case_decide as Hin; [|eauto].
  simpl. eexists. split; [done|]. do 2 (split; [done|]).
  apply elem_of_scan in Hin as (Hi & Hj & Hq).
  apply qualifies_true in Hq as [(cell0 & Hcell0 & Hnone) _].
  rewrite Hcells1 in Hcell0.
  apply entry_Some_getitem2 in Hcell0; [|lia..].
  rewrite !Nat2Z.id in Hcell0. intros k Hk. congruence.
Qed.

(** X3. A land cell keeps its type and its value, and once it has an owner
    it keeps that owner: no operation hands an owned cell to another
    player or frees it. *)
Theorem owners_are_permanent g g' :
  rtc step g g' →
  ∀ i j cell,
    entry (land_cells g) i j = Some cell →
    ∃ cell', entry (land_cells g') i j = Some cell' ∧
             LandCell.type cell' = LandCell.type cell ∧
             LandCell.value cell' = LandCell.value cell ∧
             (∀ k, LandCell.owner cell = Some k →
                   LandCell.owner cell' = Some k).
Proof.
  induction 1 as [g|g g1 g' Hstep _ IH]; intros i j cell Hcell; [eauto|].
  destruct (step_land _ _ Hstep i j cell Hcell)
    as (cell1 & Hcell1 & Ht1 & Hv1 & Ho1).
  destruct (IH i j cell1 Hcell1) as (cell' & Hcell' & Ht & Hv & Ho).
  exists cell'. split; [done|]. repeat split; [congruence|congruence|auto].
Qed.

End Permanence.

Lemma sample_moves :
  rtc (step (H := sample_constants)) Sample.two_players Sample.bob_claimed.
Proof.
  eapply rtc_l.
  { apply (step_place_fence _ "a" 0 0 "horizontal" (Sample.at_time 2)
             true [] _). vm_compute. reflexivity. }
  eapply rtc_l.
  { apply (step_place_fence _ "b" 1 0 "horizontal" (Sample.at_time 2)
             true [] _). vm_compute. reflexivity. }
  eapply rtc_l.
  { apply (step_place_fence _ "a" 0 0 "vertical" (Sample.at_time 2)
             true [] _). vm_compute. reflexivity. }
  eapply rtc_l.
  { apply (step_place_fence _ "b" 0 1 "vertical" (Sample.at_time 2)
             true [(0, 0)] _). vm_compute. reflexivity. }
  apply rtc_refl.
Qed.

Lemma sample_departure :
  rtc (step (H := sample_constants)) Sample.two_players Sample.alice_left.
Proof.
  eapply rtc_r; [apply sample_moves|]. apply step_remove_player.
Qed.

Lemma replay_is_append_only_witness :
  get_replay Sample.two_players `prefix_of` get_replay Sample.alice_left.
Proof.
  apply (replay_is_append_only (H := sample_constants)).
  apply sample_departure.
Defined.

Lemma fences_are_permanent_witness :
  (∀ i j, entry (horizontal_fences Sample.three_fences) i j = Some true →
          entry (horizontal_fences Sample.alice_left) i j = Some true) ∧
  (∀ i j, entry (vertical_fences Sample.three_fences) i j = Some true →
          entry (vertical_fences Sample.alice_left) i j = Some true) ∧
  length <$> horizontal_fences Sample.alice_left
  = length <$> horizontal_fences Sample.three_fences ∧
  length <$> vertical_fences Sample.alice_left
  = length <$> vertical_fences Sample.three_fences.
Proof.
  apply (fences_are_permanent (H := sample_constants)).
  eapply rtc_l.
  { apply (step_place_fence _ "b" 0 1 "vertical" (Sample.at_time 2)
             true [(0, 0)] Sample.bob_claimed). vm_compute. reflexivity. }
  eapply rtc_l; [apply (step_remove_player _ "a" 9)|]. apply rtc_refl.
Defined.

Lemma owners_are_permanent_witness :
  ∃ cell', entry (land_cells Sample.alice_left) 0 0 = Some cell' ∧
           LandCell.type cell' = "gold"%string ∧
           LandCell.value cell' = 5 ∧
           (∀ k, Some 1%nat = Some k → LandCell.owner cell' = Some k).
Proof.
  apply (owners_are_permanent (H := sample_constants)
           Sample.bob_claimed Sample.alice_left
           (rtc_once _ _ (step_remove_player _ "a" 9))
           0%nat 0%nat (LandCell.mk "gold" (Some 1%nat) 5)).
  vm_compute. reflexivity.
Defined.

(** ** Owned cells and enclosed cells *)

Section Enclosure.
Context `{Constants}.
Import Score Land Grid.

Lemma entry_Forall {A} (P : A → Prop) (m : list (list A)) i j x :
  Forall (Forall P) m → entry m i j = Some x → P x.
Proof.
  unfold entry. intros Hall Hx.
  destruct (m !! i) as [row|] eqn:Hrow; [|done]. simpl in Hx.
  apply list_elem_of_lookup_2 in Hrow, Hx.
  rewrite list.Forall_forall in Hall. specialize (Hall row Hrow).
  rewrite list.Forall_forall in Hall. by apply Hall.
Qed.

Lemma entry_replicate {A} (n m : nat) (x y : A) i j :
  entry (replicate n (replicate m x)) i j = Some y → y = x.
Proof.
  unfold entry. intros Hy.
  destruct (replicate n (replicate m x) !! i) as [row|] eqn:Hrow; [|done].
  apply lookup_replicate in Hrow as [-> _]. simpl in Hy.
  by apply lookup_replicate in Hy as [-> _].
Qed.

Lemma distribute_land_types_unowned grid_size_ land_types :
  Forall (Forall (λ c, LandCell.owner c = None))
         (distribute_land_types grid_size_ land_types).
Proof.
  unfold distribute_land_types. apply Forall_fmap, Forall_true. intros row.
  simpl. apply Forall_fmap, Forall_true. done.
Qed.

Lemma init_enclosure grid_size_ max_players_ game_id fresh turn_timeout_
    land_types :
  enclosure
    (init grid_size_ max_players_ game_id fresh turn_timeout_ land_types).
Proof.
  intros i j _ _. split.
  - intros (cell & k & Hcell & Hk). simpl in Hcell.
    apply (entry_Forall _ _ _ _ _
             (distribute_land_types_unowned grid_size_ land_types)) in Hcell.
    congruence.
  - intros (Htop & _). simpl in Htop. by apply entry_replicate in Htop.
Qed.

(** Membership in the scan, on positions. *)
Lemma scan_positions g (i j : nat) :
  (Z.of_nat i, Z.of_nat j) ∈ scan g ↔
  (i < Z.to_nat (grid_size g))%nat ∧ (j < Z.to_nat (grid_size g))%nat ∧
  (∃ cell, entry (land_cells g) i j = Some cell ∧
           LandCell.owner cell = None) ∧
  fenced_in g i j.
Proof.
  rewrite elem_of_scan, qualifies_true. unfold fenced_in.
  rewrite <- !entry_Some_getitem2 by lia.
  replace (Z.to_nat (Z.of_nat i + 1)) with (S i) by lia.
  replace (Z.to_nat (Z.of_nat j + 1)) with (S j) by lia.
  rewrite !Nat2Z.id.
  setoid_rewrite <- (entry_Some_getitem2 (land_cells g) (Z.of_nat i)
                       (Z.of_nat j)); [|lia..].
  rewrite !Nat2Z.id. split.
  - intros (Hi & Hj & Hcell & Hf). split; [lia|]. split; [lia|]. done.
  - intros (Hi & Hj & Hcell & Hf). split; [lia|]. split; [lia|]. done.
Qed.

Lemma step_enclosure g g' :
  well_shaped g → enclosure g → step g g' → enclosure g'.
Proof.
  intros Hshape Hinv
    [(Hgs & Hh & Hv & Hc & _)|(pid & row & col & o & clock & claimed & Hpf)]
    %step_cases.
  - intros i j. rewrite Hgs. intros Hi Hj.
    unfold owned, fenced_in. rewrite Hh, Hv, Hc. by apply Hinv.
  - apply place_fence_outcome in Hpf
      as (g1 & _ & Hset & _ & _ & -> & Hh & Hv & Hgs & Hentries & _).
    pose proof Hset as (_ & _ & _ & Hcells1 & _ & _ & _ & Hgs1)
      %set_fence_frame.
    pose proof Hset as (_ & _ & Hh1 & Hv1 & _)%set_fence_entries.
    intros i j. rewrite Hgs. intros Hi Hj.
    assert (Hmono : fenced_in g i j → fenced_in g1 i j).
    { intros (? & ? & ? & ?). unfold fenced_in.
      rewrite !Hh1, !Hv1. auto 10. }
    assert (Hfenced : fenced_in g' i j ↔ fenced_in g1 i j).
    { unfold fenced_in. by rewrite Hh, Hv. }
    destruct Hshape as (_ & _ & Hland).
    destruct (has_shape_entry _ _ _ i j Hland Hi Hj) as [cell Hcell].
    rewrite Hfenced. unfold owned. rewrite Hentries.
    pose proof (scan_positions g1 i j) as Hscan.
    rewrite Hcells1, Hgs1 in Hscan. rewrite Hcell in *.
    destruct (LandCell.owner cell) as [k|] eqn:Howner.
    + assert (Hfenced0 : fenced_in g i j).
      { apply Hinv; [done..|]. exists cell, k. by rewrite Hcell. }
      split; [auto|]. intros _.
      case_decide; simpl; eauto.
    + split.
      * intros (cell' & k & Hcell' & Hk).
        case_decide as Hin; [by apply Hscan in Hin as (_ & _ & _ & ?)|].
        congruence.
      * intros Hf. rewrite decide_True by (apply Hscan; eauto 10).
        simpl. eauto.
Qed.

Lemma reachable_enclosure g : reachable g → enclosure g.
Proof.
  revert g. apply (reachable_by_steps enclosure).
  - apply init_enclosure.
  - intros g g' Hreach Hinv Hstep.
    eapply step_enclosure; [|done..]. by apply reachable_well_shaped.
Qed.

(** X4. In every game of a run, a cell of the grid has an owner if and only
    if its four fences are set: no enclosed cell is left unclaimed, and no
    cell is owned before it is enclosed. *)
Theorem owned_iff_enclosed g :
  reachable g →
  ∀ i j, (i < Z.to_nat (grid_size g))%nat → (j < Z.to_nat (grid_size g))%nat →
         owned g i j ↔ fenced_in g i j.
Proof. apply reachable_enclosure. Qed.

End Enclosure.

Lemma owned_iff_enclosed_witness :
  Land.owned Sample.bob_claimed 0 0 ↔ Land.fenced_in Sample.bob_claimed 0 0.
Proof.
  apply (owned_iff_enclosed (H := sample_constants)).
  - apply bob_claimed_reachable.
  - vm_compute. lia.
  - vm_compute. lia.
Defined.

(** ** The count of unclaimed cells *)

Section Counter.
Context `{Constants}.
Import Score Land Grid.

Lemma zsum_const {A} (k : Z) (l : list A) :
  zsum ((λ _, k) <$> l) = k * Z.of_nat (length l).
Proof.
  induction l as [|x l IH]; [simpl; lia|].
  rewrite fmap_cons, zsum_cons, IH, length_cons, Nat2Z.inj_succ. lia.
Qed.

Lemma land_sum_const rows cols (k : Z) cells :
  has_shape rows cols cells →
  land_sum (λ _, k) cells = k * Z.of_nat (Z.to_nat cols) * Z.of_nat (Z.to_nat rows).
Proof.
  intros [Hrows Hcols]. unfold land_sum.
  rewrite (zsum_fmap_ext _ (λ _, k * Z.of_nat (Z.to_nat cols))).
  - by rewrite zsum_const, Hrows.
  - eapply list.Forall_impl; [done|]. intros row Hrow. simpl.
    by rewrite zsum_const, Hrow.
Qed.

Lemma zsum_nonneg (l : list Z) : Forall (λ x, 0 ≤ x) l → 0 ≤ zsum l.
Proof. induction 1; simpl; lia. Qed.

Lemma zsum_lookup_le (l : list Z) i x :
  Forall (λ x, 0 ≤ x) l → l !! i = Some x → x ≤ zsum l.
Proof.
  intros Hall. revert i. induction Hall as [|y l Hy Hall IH]; intros [|i] Hi;
    simplify_eq/=.
  - apply zsum_nonneg in Hall. lia.
  - specialize (IH i Hi). lia.
Qed.

(** An unowned cell counts. *)
Lemma unowned_count_pos cells i j cell :
  entry cells i j = Some cell → LandCell.owner cell = None →
  1 ≤ unowned_count cells.
Proof.
  unfold entry. intros Hcell Hnone.
  destruct (cells !! i) as [row|] eqn:Hrow; [|done]. simpl in Hcell.
  unfold unowned_count, land_sum.
  set (f := λ c, if decide (LandCell.owner c = None) then 1 else 0).
  assert (Hnn : ∀ r : list LandCell.t, Forall (λ x, 0 ≤ x) (f <$> r)).
  { intros r. apply Forall_fmap, Forall_true. intros c. unfold f. simpl.
    case_decide; lia. }
  etransitivity;
    [|apply (zsum_lookup_le _ i (zsum (f <$> row)))].
  - apply (zsum_lookup_le _ j); [done|].
    rewrite list_lookup_fmap, Hcell. simpl. unfold f.
    by rewrite decide_True.
  - apply Forall_fmap, Forall_true. intros r. simpl. by apply zsum_nonneg.
  - by rewrite list_lookup_fmap, Hrow.
Qed.

(** The claim loop takes one unowned cell off the count per claimed cell. *)
Lemma claim_loop_count idx claimed cells gained0 cells' gained' :
  NoDup claimed →
  (∀ r c, (r, c) ∈ claimed →
          0 ≤ r ∧ 0 ≤ c ∧
          ∃ cell, entry cells (Z.to_nat r) (Z.to_nat c) = Some cell ∧
                  LandCell.owner cell = None) →
  for_each claimed (claim_cell idx) (cells, gained0) = Ok (cells', gained') →
  unowned_count cells' = unowned_count cells - Z.of_nat (length claimed).
Proof.
  intros Hnodup. revert cells gained0.
  induction Hnodup as [|[r c] claimed Hnotin Hnodup IH];
    intros cells gained0 Hcells Hrun.
  - injection Hrun as <- <-. simpl. lia.
  - simpl in Hrun. apply bind_Ok in Hrun as ([cells1 gained1] & Hstep & Hrun).
    destruct (Hcells r c) as (Hr & Hc & cell0 & Hcell0 & Hnone);
      [apply list_elem_of_here|].
    apply claim_cell_Ok in Hstep as (row & cell & Hrow & Hcell & -> & ->);
      [|done..].
    assert (cell0 = cell) as ->.
    { unfold entry in Hcell0. rewrite Hrow in Hcell0. simpl in Hcell0.
      congruence. }
    apply IH in Hrun as ->.
    + unfold unowned_count.
      rewrite (land_sum_insert _ _ _ _ _ _ _ Hrow Hcell). simpl.
      rewrite Hnone, decide_True by done. lia.
    + intros r' c' Hin.
      destruct (Hcells r' c') as (Hr' & Hc' & cell' & Hcell' & Hnone');
        [by apply list_elem_of_further|].
      do 2 (split; [done|]). exists cell'. split; [|done].
      rewrite <- Hcell'. unfold entry.
      destruct (decide (Z.to_nat r' = Z.to_nat r)) as [Heq|Hne].
      * rewrite Heq, list_lookup_insert_eq by (by eapply lookup_lt_Some).
        rewrite Hrow. simpl. apply list_lookup_insert_ne.
        intros Heq'. apply Hnotin.
        assert (r' = r) as -> by lia. assert (c' = c) as -> by lia. done.
      * by rewrite list_lookup_insert_ne.
Qed.

Lemma init_counter grid_size_ max_players_ game_id fresh turn_timeout_
    land_types :
  counter_is_exact
    (init grid_size_ max_players_ game_id fresh turn_timeout_ land_types).
Proof.
  intros Hgs. simpl in *. unfold unowned_count.
  rewrite (land_sum_ext _ (λ _, 1)).
  - rewrite (land_sum_const grid_size_ grid_size_)
      by apply distribute_land_types_shape. lia.
  - eapply list.Forall_impl; [apply distribute_land_types_unowned|].
    intros row Hrow. eapply list.Forall_impl; [done|].
    intros c ->. done.
Qed.

Lemma step_counter g g' :
  counter_is_exact g → step g g' → counter_is_exact g'.
Proof.
  intros Hinv
    [(Hgs & _ & _ & Hc & Hun)|(pid & row & col & o & clock & claimed & Hpf)]
    %step_cases.
  - unfold counter_is_exact. by rewrite Hgs, Hc, Hun.
  - pose proof Hpf as (g1 & _ & Hset & _ & _ & Hscan & _ & _ & Hgs & _ & _
                       & Hun & _)%place_fence_outcome.
    apply place_fence_true in Hpf
      as (_ & g1' & _ & _ & _ & _ & Hset' & _ & Hcases).
    assert (g1' = g1) as -> by congruence.
    pose proof Hset as (_ & _ & _ & Hcells1 & _)%set_fence_frame.
    intros Hpos. rewrite Hgs in Hpos. rewrite Hun, (Hinv Hpos).
    destruct Hcases as [[-> ->]|(_ & cells & gained & Hclaim & ->)].
    + destruct (next_turn_frame
        (moved g1 pid row col o clock) (clock 4%nat))
        as (_ & _ & Hc & _).
      simpl in *. rewrite Hc, Hcells1. lia.
    + destruct (credited_frame (moved g1 pid row col o clock)
                  pid claimed cells gained clock)
        as (_ & _ & _ & _ & _ & Hc & _).
      simpl. rewrite Hc. unfold claim_cells in Hclaim. simpl in Hclaim.
      rewrite Hcells1 in Hclaim. symmetry.
      eapply claim_loop_count; [|  |exact Hclaim].
      * rewrite Hscan. apply NoDup_scan.
      * intros r c Hin. rewrite Hscan in Hin.
        apply elem_of_scan in Hin as (Hr & Hc' & Hq).
        apply qualifies_true in Hq as [(cell & Hcell & Hnone) _].
        do 2 (split; [lia|]). exists cell. split; [|done].
        rewrite <- Hcells1. apply entry_Some_getitem2; [lia..|done].
Qed.

Lemma reachable_counter g : reachable g → counter_is_exact g.
Proof.
  revert g. apply (reachable_by_steps counter_is_exact).
  - apply init_counter.
  - intros g g' _ Hinv Hstep. by eapply step_counter.
Qed.

(** X5. In every game of a run on a grid of side N >= 0, the counter
    [unclaimed_lands] is the number of land cells that have no owner. *)
Theorem unclaimed_lands_counts_unowned_cells g :
  reachable g → 0 ≤ grid_size g →
  unclaimed_lands g = unowned_count (land_cells g).
Proof. apply reachable_counter. Qed.

End Counter.

Lemma unclaimed_lands_counts_unowned_cells_witness :
  unclaimed_lands Sample.bob_claimed
  = Land.unowned_count (land_cells Sample.bob_claimed).
Proof.
  apply (unclaimed_lands_counts_unowned_cells (H := sample_constants)).
  - apply bob_claimed_reachable.
  - vm_compute. discriminate.
Defined.

(** ** The end of the game *)

Section LastCell.
Context `{Constants}.
Import Score Land Grid.

(** A free slot borders a cell of the grid that is not enclosed. *)
Lemma free_slot_borders_open_cell g row col orientation g1 :
  set_fence g row col orientation = Ok (Some g1) →
  ∃ i j, (i < Z.to_nat (grid_size g))%nat ∧ (j < Z.to_nat (grid_size g))%nat ∧
         ¬ fenced_in g i j.
Proof.
  intros [(_ & Hrow & Hcol & Hfree & _)|(_ & _ & Hrow & Hcol & Hfree & _)]
    %set_fence_Some;
    apply entry_Some_getitem2 in Hfree; try lia.
  - destruct (decide (row < grid_size g)) as [Hlt|Hge].
    + exists (Z.to_nat row), (Z.to_nat col). do 2 (split; [lia|]).
      intros (Htop & _). congruence.
    + exists (Z.to_nat (grid_size g - 1)), (Z.to_nat col).
      do 2 (split; [lia|]). intros (_ & Hbottom & _).
      replace (S (Z.to_nat (grid_size g - 1))) with (Z.to_nat row)
        in Hbottom by lia.
      congruence.
  - destruct (decide (col < grid_size g)) as [Hlt|Hge].
    + exists (Z.to_nat row), (Z.to_nat col). do 2 (split; [lia|]).
      intros (_ & _ & Hleft & _). congruence.
    + exists (Z.to_nat row), (Z.to_nat (grid_size g - 1)).
      do 2 (split; [lia|]). intros (_ & _ & _ & Hright).
      replace (S (Z.to_nat (grid_size g - 1))) with (Z.to_nat col)
        in Hright by lia.
      congruence.
Qed.

(** While a slot is free, the counter of a game of a run is not 0. *)
Lemma free_slot_counter g row col orientation g1 :
  reachable g → set_fence g row col orientation = Ok (Some g1) →
  1 ≤ unclaimed_lands g.
Proof.
  intros Hreach Hset.
  destruct (free_slot_borders_open_cell _ _ _ _ _ Hset)
    as (i & j & Hi & Hj & Hopen).
  pose proof (reachable_well_shaped g Hreach) as (_ & _ & Hland).
  destruct (has_shape_entry _ _ _ i j Hland Hi Hj) as [cell Hcell].
  rewrite (reachable_counter g Hreach) by lia.
  apply (unowned_count_pos _ i j cell); [done|].
  destruct (LandCell.owner cell) as [k|] eqn:Howner; [|done].
  destruct Hopen. apply (reachable_enclosure g Hreach); [done..|].
  by exists cell, k.
Qed.

(** X6. After a successful move in a game of a run, the game is finished
    exactly when the counter of unclaimed cells has reached 0: the move that
    claims the last cell ends the game, and no other move does. *)
Theorem move_ends_game_iff_no_land_left g player_id row col orientation clock
    claimed g' :
  reachable g →
  place_fence g player_id row col orientation clock = Ok (true, claimed, g') →
  state g' = GAME_STATE_FINISHED ↔ unclaimed_lands g' = 0.
Proof.
  intros Hreach Hpf.
  apply place_fence_true in Hpf
    as (cp & g1 & Hstate & _ & _ & _ & Hset & _ & Hcases).
  pose proof (free_slot_counter _ _ _ _ _ Hreach Hset) as Hpos.
  pose proof Hset as (_ & _ & Hstate1 & _ & Hun1 & _)%set_fence_frame.
  destruct Hcases as [[-> ->]|(_ & cells & gained & _ & ->)].
  - destruct (next_turn_frame (moved g1 player_id row col orientation clock)
                (clock 4%nat)) as (_ & Hst & _ & Hun & _).
    simpl in *. rewrite Hst, Hun, Hstate1, Hun1, Hstate. split; [done|lia].
  - unfold credited. simpl.
    destruct (_ =? 0) eqn:Hzero.
    + rewrite end_game_state.
      destruct (end_game_frame
        (record (land_claimed player_id claimed gained (clock 5%nat))
           (with_unclaimed_lands
              (unclaimed_lands g1 - Z.of_nat (length claimed))
              (with_players
                 (alter (Player.add_score gained) (current_player_idx g1)
                    (alter (Player.update_activity (clock 2%nat))
                       (current_player_idx g1) (players g1)))
                 (with_land_cells cells
                    (moved g1 player_id row col orientation clock)))))
        (clock 6%nat)) as (_ & _ & _ & _ & _ & _ & Hun & _).
      simpl in Hun. rewrite Hun. apply Z.eqb_eq in Hzero. done.
    + simpl. apply Z.eqb_neq in Hzero. rewrite Hstate1, Hstate.
      split; [done|]. intros Hz. by destruct Hzero.
Qed.

End LastCell.

Lemma move_ends_game_iff_no_land_left_witness :
  state (Sample.move Sample.two_players "a" 0 0 "horizontal")
    = GAME_STATE_FINISHED
  ↔ unclaimed_lands (Sample.move Sample.two_players "a" 0 0 "horizontal") = 0.
Proof.
  apply (move_ends_game_iff_no_land_left (H := sample_constants)
           Sample.two_players "a" 0 0 "horizontal" (Sample.at_time 2) []).
  - apply two_players_reachable.
  - vm_compute. reflexivity.
Defined.

(** ** The cells a move claims *)

Section ClaimedByAMove.
Context `{Constants}.
Import Score Land Grid.

(** A cell claimed by a move in a game of a run touches the new fence. *)
Lemma claimed_cell_touches_fence g row col orientation g1 r c :
  reachable g →
  set_fence g row col orientation = Ok (Some g1) →
  (r, c) ∈ scan g1 →
  (orientation = ORIENTATION_HORIZONTAL ∧ c = col ∧ (r = row ∨ r = row - 1)) ∨
  (orientation ≠ ORIENTATION_HORIZONTAL ∧ orientation = ORIENTATION_VERTICAL ∧
   r = row ∧ (c = col ∨ c = col - 1)).
Proof.
  intros Hreach Hset Hin.
  pose proof Hin as (Hr & Hc & _)%elem_of_scan.
  pose proof Hset as (_ & _ & _ & Hcells1 & _ & _ & _ & Hgs1)%set_fence_frame.
  pose proof Hset as (Hrow & Hcol & Hh1 & Hv1 & _)%set_fence_entries.
  rewrite <- (Z2Nat.id r), <- (Z2Nat.id c) in Hin by lia.
  apply scan_positions in Hin
    as (Hi & Hj & (cell & Hcell & Hnone) & Htop & Hbottom & Hleft & Hright).
  rewrite Hgs1 in Hi, Hj. rewrite Hcells1 in Hcell.
  assert (Hopen : ¬ fenced_in g (Z.to_nat r) (Z.to_nat c)).
  { intros Hf. apply (reachable_enclosure g Hreach) in Hf
      as (cell' & k & Hcell' & Hk); [|done..]. congruence. }
  apply Hh1 in Htop, Hbottom. apply Hv1 in Hleft, Hright.
  destruct Htop as [Htop|(Ho & Hi' & Hj')];
    [|left; split; [done|]; lia].
  destruct Hbottom as [Hbottom|(Ho & Hi' & Hj')];
    [|left; split; [done|]; lia].
  destruct Hleft as [Hleft|(Hne & Ho & Hi' & Hj')];
    [|right; do 2 (split; [done|]); lia].
  destruct Hright as [Hright|(Hne & Ho & Hi' & Hj')];
    [|right; do 2 (split; [done|]); lia].
  destruct Hopen. done.
Qed.

(** X7. A successful move in a game of a run claims at most two cells, and
    only cells that touch the new fence: the cells above and below a
    horizontal fence, left and right of a vertical one. *)
Theorem move_claims_cells_beside_the_fence g player_id row col orientation
    clock claimed g' :
  reachable g →
  place_fence g player_id row col orientation clock = Ok (true, claimed, g') →
  (length claimed ≤ 2)%nat ∧
  ∀ r c, (r, c) ∈ claimed →
    (orientation = ORIENTATION_HORIZONTAL ∧ c = col ∧
     (r = row ∨ r = row - 1)) ∨
    (orientation = ORIENTATION_VERTICAL ∧ r = row ∧
     (c = col ∨ c = col - 1)).
Proof.
  intros Hreach Hpf.
  apply place_fence_outcome in Hpf as (g1 & _ & Hset & _ & _ & -> & _).
  pose proof (λ r c, claimed_cell_touches_fence g row col orientation g1 r c
                       Hreach Hset) as Htouch.
  split; [|intros r c Hin; destruct (Htouch r c Hin); intuition].
  set (around := if String.eqb orientation ORIENTATION_HORIZONTAL
                 then [(row, col); (row - 1, col)]
                 else [(row, col); (row, col - 1)]).
  assert (length around = 2%nat) as <- by (unfold around; by case_match).
  apply submseteq_length, NoDup_submseteq; [apply NoDup_scan|].
  intros [r c] Hin. unfold around.
  destruct (Htouch r c Hin) as [(Ho & -> & Hr)|(Hne & Ho & -> & Hc)].
  - rewrite Ho, String.eqb_refl.
    destruct Hr as [-> | ->];
      [apply list_elem_of_here|apply list_elem_of_further, list_elem_of_here].
  - destruct (String.eqb_spec orientation ORIENTATION_HORIZONTAL); [done|].
    destruct Hc as [-> | ->];
      [apply list_elem_of_here|apply list_elem_of_further, list_elem_of_here].
Qed.

End ClaimedByAMove.

Lemma three_fences_reachable :
  reachable (H := sample_constants) Sample.three_fences.
Proof.
  pose proof two_players_reachable as Hr.
  eapply (reach_place_fence _ "a" 0 0 "horizontal" (Sample.at_time 2)) in Hr;
    [|vm_compute; reflexivity].
  eapply (reach_place_fence _ "b" 1 0 "horizontal" (Sample.at_time 2)) in Hr;
    [|vm_compute; reflexivity].
  eapply (reach_place_fence _ "a" 0 0 "vertical" (Sample.at_time 2)) in Hr;
    [|vm_compute; reflexivity].
  exact Hr.
Qed.

Lemma move_claims_cells_beside_the_fence_witness :
  (length [(0, 0)] ≤ 2)%nat ∧
  ∀ r c, (r, c) ∈ [(0, 0)] →
    ("vertical" = "horizontal" ∧ c = 1 ∧ (r = 0 ∨ r = 0 - 1)) ∨
    ("vertical" = "vertical" ∧ r = 0 ∧ (c = 1 ∨ c = 1 - 1)).
Proof.
  apply (move_claims_cells_beside_the_fence (H := sample_constants)
           Sample.three_fences "b" 0 1 "vertical" (Sample.at_time 2)
           [(0, 0)] Sample.bob_claimed).
  - apply three_fences_reachable.
  - vm_compute. reflexivity.
Defined.

(** ** The grid sent to the clients *)

Section ClientGrid.
Context `{Constants}.
Import Score Land Grid ProspectorServer.

Lemma format_grid_for_client_Ok g grid :
  format_grid_for_client g = Ok grid ↔
  (∀ row col, 0 ≤ row < grid_size g → 0 ≤ col < grid_size g →
              ∃ cell, format_cell g row col = Ok cell) ∧
  grid = (λ row, (λ col, result_default no_cell (format_cell g row col))
                 <$> range (grid_size g)) <$> range (grid_size g).
Proof.
  unfold format_grid_for_client.
  pose (inner := λ row : Z,
    for_each (range (grid_size g))
      (λ col grid_row, cell ← format_cell g row col; Ok (grid_row ++ [cell]))
      []).
  assert (Hinner : ∀ row grid_row,
    inner row = Ok grid_row ↔
    Forall (λ col, ∃ cell, format_cell g row col = Ok cell)
           (range (grid_size g)) ∧
    grid_row = (λ col, result_default no_cell (format_cell g row col))
               <$> range (grid_size g)).
  { intros row grid_row. unfold inner.
    rewrite (for_each_append _ (λ c, c) no_cell). done. }
  etransitivity;
    [exact (for_each_append inner (λ z, z) [] (range (grid_size g)) [] grid)|].
  simpl.
  rewrite list.Forall_forall. split.
  - intros [Hall ->]. split.
    + intros row col Hrow%elem_of_range Hcol%elem_of_range.
      destruct (Hall row Hrow) as [grid_row [Hcells _]%Hinner].
      eapply list.Forall_forall in Hcells; eauto.
    + apply list_fmap_ext. intros i row Hrow%list_elem_of_lookup_2.
      destruct (Hall row Hrow) as [grid_row Hrd].
      rewrite Hrd. simpl. by apply Hinner in Hrd as [_ ->].
  - intros [Hcells ->].
    assert (Hrows : ∀ row, row ∈ range (grid_size g) →
      inner row = Ok ((λ col, result_default no_cell (format_cell g row col))
                      <$> range (grid_size g))).
    { intros row Hrow%elem_of_range. apply Hinner. split; [|done].
      apply list.Forall_forall. intros col Hcol%elem_of_range. eauto. }
    split; [eauto|].
    apply list_fmap_ext. intros i row Hrow%list_elem_of_lookup_2.
    simpl. by rewrite Hrows.
Qed.

(** On a grid of the constructor's dimensions the five reads of
    [format_cell] succeed. *)
Lemma format_cell_Ok g (i j : nat) :
  well_shaped g →
  (i < Z.to_nat (grid_size g))%nat → (j < Z.to_nat (grid_size g))%nat →
  ∃ top bottom left right cell,
    entry (horizontal_fences g) i j = Some top ∧
    entry (horizontal_fences g) (S i) j = Some bottom ∧
    entry (vertical_fences g) i j = Some left ∧
    entry (vertical_fences g) i (S j) = Some right ∧
    entry (land_cells g) i j = Some cell ∧
    format_cell g (Z.of_nat i) (Z.of_nat j)
    = Ok (mk_client_cell top bottom left right (LandCell.owner cell)).
Proof.
  intros (Hh & Hv & Hc) Hi Hj.
  destruct (has_shape_entry _ _ _ i j Hh) as [top Htop]; [lia..|].
  destruct (has_shape_entry _ _ _ (S i) j Hh) as [bottom Hbottom]; [lia..|].
  destruct (has_shape_entry _ _ _ i j Hv) as [left Hleft]; [lia..|].
  destruct (has_shape_entry _ _ _ i (S j) Hv) as [right Hright]; [lia..|].
  destruct (has_shape_entry _ _ _ i j Hc) as [cell Hcell]; [lia..|].
  exists top, bottom, left, right, cell. do 5 (split; [done|]).
  assert (Hnil : land_cells g ≠ []).
  { intros Hnil. unfold entry in Hcell. by rewrite Hnil in Hcell. }
  rewrite <- (Nat2Z.id i), <- (Nat2Z.id j) in Htop, Hleft, Hcell.
  replace (S i) with (Z.to_nat (Z.of_nat i + 1)) in Hbottom by lia.
  rewrite <- (Nat2Z.id j) in Hbottom.
  replace (S j) with (Z.to_nat (Z.of_nat j + 1)) in Hright by lia.
  rewrite <- (Nat2Z.id i) in Hright.
  apply entry_Some_getitem2 in Htop, Hbottom, Hleft, Hright, Hcell; try lia.
  unfold format_cell.
  rewrite Htop, Hbottom, Hleft, Hright, Hcell. simpl.
  by rewrite bool_decide_eq_true_2.
Qed.

Lemma format_grid_for_client_returns g :
  well_shaped g →
  ∃ grid, format_grid_for_client g = Ok grid ∧
    ∀ i j, (i < Z.to_nat (grid_size g))%nat → (j < Z.to_nat (grid_size g))%nat →
      entry grid i j
      = Some (result_default no_cell
                (format_cell g (Z.of_nat i) (Z.of_nat j))).
Proof.
  intros Hshape. eexists. split.
  - apply format_grid_for_client_Ok. split; [|done].
    intros row col Hrow Hcol.
    destruct (format_cell_Ok g (Z.to_nat row) (Z.to_nat col) Hshape)
      as (top & bottom & left & right & cell & _ & _ & _ & _ & _ & Hcell);
      [lia..|].
    rewrite !Z2Nat.id in Hcell by lia. eauto.
  - intros i j Hi Hj. unfold entry, range.
    rewrite !list_lookup_fmap, lookup_seq_lt by done. simpl.
    rewrite !list_lookup_fmap, lookup_seq_lt by done. done.
Qed.

(** X8. For every game of a run the server's [format_grid_for_client]
    returns a grid of N rows of N cells (it does not raise), in which a cell
    shows an owner exactly when its four fence flags are set, and in which
    two neighbouring cells agree on the fence they share. *)
Theorem client_grid_is_consistent g :
  reachable g →
  ∃ grid,
    format_grid_for_client g = Ok grid ∧
    has_shape (grid_size g) (grid_size g) grid ∧
    ∀ i j c, entry grid i j = Some c →
      (is_Some (cell_owner c) ↔
       top_fence c = true ∧ bottom_fence c = true ∧
       left_fence c = true ∧ right_fence c = true) ∧
      (∀ below, entry grid (S i) j = Some below →
                top_fence below = bottom_fence c) ∧
      (∀ beside, entry grid i (S j) = Some beside →
                 left_fence beside = right_fence c).
Proof.
  intros Hreach. pose proof (reachable_well_shaped g Hreach) as Hshape.
  destruct (format_grid_for_client_returns g Hshape) as (grid & Hgrid & Hentry).
  exists grid. split; [done|].
  assert (Hs : has_shape (grid_size g) (grid_size g) grid).
  { apply format_grid_for_client_Ok in Hgrid as [_ ->]. split.
    - by rewrite length_fmap, length_range.
    - apply Forall_fmap, Forall_true. intros row. simpl.
      by rewrite length_fmap, length_range. }
  split; [done|].
  assert (Hin : ∀ i j c, entry grid i j = Some c →
            (i < Z.to_nat (grid_size g))%nat ∧
            (j < Z.to_nat (grid_size g))%nat).
  { intros i j c Hc. destruct Hs as [Hrows Hcols]. unfold entry in Hc.
    destruct (grid !! i) as [row|] eqn:Hrow; [|done]. simpl in Hc.
    apply lookup_lt_Some in Hc. pose proof Hrow as Hlt%lookup_lt_Some.
    eapply list.Forall_forall in Hcols; [|by eapply list_elem_of_lookup_2].
    simpl in Hcols. lia. }
  assert (Hread : ∀ i j c, entry grid i j = Some c →
    ∃ cell,
      entry (horizontal_fences g) i j = Some (top_fence c) ∧
      entry (horizontal_fences g) (S i) j = Some (bottom_fence c) ∧
      entry (vertical_fences g) i j = Some (left_fence c) ∧
      entry (vertical_fences g) i (S j) = Some (right_fence c) ∧
      entry (land_cells g) i j = Some cell ∧
      cell_owner c = LandCell.owner cell).
  { intros i j c Hc. destruct (Hin i j c Hc) as [Hi Hj].
    rewrite Hentry in Hc by done.
    destruct (format_cell_Ok g i j Hshape Hi Hj)
      as (top & bottom & left & right & cell & ? & ? & ? & ? & ? & Hcell).
    rewrite Hcell in Hc. injection Hc as <-. simpl. eauto 10. }
  intros i j c Hc.
  destruct (Hin i j c Hc) as [Hi Hj].
  destruct (Hread i j c Hc) as (cell & Ht & Hb & Hl & Hr & Hcell & Howner).
  split; [|split].
  - rewrite Howner.
    pose proof (reachable_enclosure g Hreach i j Hi Hj) as Henc.
    unfold owned, fenced_in in Henc. rewrite Ht, Hb, Hl, Hr, Hcell in Henc.
    split.
    + intros [k Hk]. destruct Henc as [Henc _].
      destruct Henc as (? & ? & ? & ?); [eauto|]. by simplify_eq.
    + intros (Ht' & Hb' & Hl' & Hr'). rewrite Ht', Hb', Hl', Hr' in Henc.
      destruct Henc as [_ Henc].
      destruct Henc as (cell' & k & ? & ?); [done|]. simplify_eq. eauto.
  - intros below Hbelow.
    destruct (Hread _ _ _ Hbelow) as (_ & Ht' & _). congruence.
  - intros beside Hbeside.
    destruct (Hread _ _ _ Hbeside) as (_ & _ & _ & Hl' & _). congruence.
Qed.

End ClientGrid.

Lemma client_grid_is_consistent_witness :
  ∃ grid,
    ProspectorServer.format_grid_for_client Sample.bob_claimed = Ok grid ∧
    entry grid 0 0
    = Some (ProspectorServer.mk_client_cell true true true true (Some 1%nat)).
Proof.
  destruct (client_grid_is_consistent (H := sample_constants)
              Sample.bob_claimed bob_claimed_reachable)
    as (grid & Hgrid & _).
  exists grid. split; [done|].
  vm_compute in Hgrid. injection Hgrid as <-. reflexivity.
Defined.

(** ** No operation raises *)

Section NeverRaises.
Context `{Constants}.
Import Score Land Grid.

Lemma check_inactivity_returns g clock :
  ∃ ok g', check_inactivity g clock = Ok (ok, g').
Proof.
  unfold check_inactivity. destruct (_ || _); [eauto|].
  destruct (get_current_player_returns g) as [[cp|] ->]; simpl; [|eauto].
  case_match; eauto.
Qed.

Lemma get_land_value_returns g row col :
  well_shaped g →
  ∃ v, get_land_value g row col = Ok v ∧
       v = from_option LandCell.value 0
             (if decide (0 ≤ row < grid_size g ∧ 0 ≤ col < grid_size g)
              then entry (land_cells g) (Z.to_nat row) (Z.to_nat col)
              else None).
Proof.
  intros (_ & _ & Hc). unfold get_land_value.
  destruct (_ && _) eqn:Hrange.
  - repeat (apply andb_prop in Hrange as [Hrange ?]).
    rewrite decide_True by lia.
    destruct (has_shape_getitem2 _ _ _ row col Hc) as [cell Hcell]; [lia..|].
    rewrite Hcell. simpl.
    apply entry_Some_getitem2 in Hcell; [|lia..]. rewrite Hcell. eauto.
  - rewrite decide_False; [eauto|]. intros [? ?].
    assert ((0 <=? row) && (row <? grid_size g) && (0 <=? col)
            && (col <? grid_size g) = true); [|congruence].
    repeat (apply andb_true_intro; split); lia.
Qed.

Lemma get_land_type_returns g row col :
  well_shaped g → ∃ s, get_land_type g row col = Ok s.
Proof.
  intros (_ & _ & Hc). unfold get_land_type.
  destruct (_ && _) eqn:Hrange; [|eauto].
  repeat (apply andb_prop in Hrange as [Hrange ?]).
  destruct (has_shape_getitem2 _ _ _ row col Hc) as [cell Hcell]; [lia..|].
  rewrite Hcell. simpl. eauto.
Qed.

(** X9. On a game of a run no operation of the engine raises IndexError,
    whatever its arguments: [place_fence], [check_inactivity], [to_dict],
    [get_land_value] and [get_land_type] all return. *)
Theorem engine_never_raises g :
  reachable g →
  (∀ player_id row col orientation clock,
     ∃ ok claimed g',
       place_fence g player_id row col orientation clock
       = Ok (ok, claimed, g')) ∧
  (∀ clock, ∃ ok g', check_inactivity g clock = Ok (ok, g')) ∧
  (∀ now, ∃ data, to_dict g now = Ok data) ∧
  (∀ row col, ∃ v, get_land_value g row col = Ok v) ∧
  (∀ row col, ∃ s, get_land_type g row col = Ok s).
Proof.
  intros Hshape%reachable_well_shaped. repeat split.
  - intros pid row col o clock.
    destruct (place_fence_returns g pid row col o clock Hshape)
      as (ok & claimed & g' & Hpf & _). eauto.
  - intros clock. apply check_inactivity_returns.
  - intros now. apply to_dict_returns. by destruct Hshape as (_ & _ & ?).
  - intros row col.
    destruct (get_land_value_returns g row col Hshape) as (v & Hv & _). eauto.
  - intros row col. by apply get_land_type_returns.
Qed.

End NeverRaises.

Lemma engine_never_raises_witness :
  ∃ ok claimed g',
    place_fence (H := sample_constants) Sample.bob_claimed "a" 7 (-3) "horizontal"
      (Sample.at_time 2)
    = Ok (ok, claimed, g').
Proof.
  apply (engine_never_raises (H := sample_constants) Sample.bob_claimed).
  apply bob_claimed_reachable.
Defined.

(** ** When a move is accepted *)

Section Acceptance.
Context `{Constants}.
Import Score Land Grid.

(** The reasons for which [place_fence] returns [False]. *)
Lemma place_fence_rejected g player_id row col orientation clock claimed g' :
  place_fence g player_id row col orientation clock
    = Ok (false, claimed, g') →
  state g ≠ GAME_STATE_PLAYING ∨
  get_current_player g = Ok None ∨
  (∃ p, get_current_player g = Ok (Some p) ∧ Player.id p ≠ player_id) ∨
  turn_expired g (clock 0%nat) = true ∨
  set_fence g row col orientation = Ok None.
Proof.
  unfold place_fence. intros Hpf.
  destruct (decide (state g ≠ _)) as [|Hst]; [auto|].
  apply bind_Ok in Hpf as ([cp|] & Hcur & Hpf); [|auto].
  destruct (String.eqb_spec (Player.id cp) player_id) as [Hid|Hid];
    [|eauto 10].
  simpl in Hpf.
  destruct (turn_expired g (clock 0%nat)) eqn:Hexp; [auto|].
  apply bind_Ok in Hpf as ([g1|] & Hset & Hpf); [|auto 10].
  apply bind_Ok in Hpf as (cl & Hcl & Hpf).
  case_bool_decide; [done|].
  apply bind_Ok in Hpf as ([cells gained] & Hcells & [=]).
Qed.

(** A slot of the lattice that holds [False] can be set. *)
Lemma set_fence_free_slot g row col orientation :
  (orientation = ORIENTATION_HORIZONTAL ∧
   0 ≤ row ≤ grid_size g ∧ 0 ≤ col < grid_size g ∧
   entry (horizontal_fences g) (Z.to_nat row) (Z.to_nat col) = Some false)
  ∨
  (orientation ≠ ORIENTATION_HORIZONTAL ∧
   orientation = ORIENTATION_VERTICAL ∧
   0 ≤ row < grid_size g ∧ 0 ≤ col ≤ grid_size g ∧
   entry (vertical_fences g) (Z.to_nat row) (Z.to_nat col) = Some false) →
  ∃ g1, set_fence g row col orientation = Ok (Some g1).
Proof.
  unfold set_fence.
  intros [(-> & Hrow & Hcol & Hfree)|(Hne & -> & Hrow & Hcol & Hfree)].
  - rewrite String.eqb_refl.
    replace ((0 <=? row) && (row <=? grid_size g) && (0 <=? col)
             && (col <? grid_size g)) with true
      by (symmetry; repeat (apply andb_true_intro; split); lia).
    simpl.
    destruct (setitem2_entry (horizontal_fences g) row col true)
      as (fences & -> & _); [lia..|by rewrite Hfree|].
    apply entry_Some_getitem2 in Hfree as ->; [|lia..]. simpl. eauto.
  - apply String.eqb_neq in Hne. rewrite Hne, String.eqb_refl.
    replace ((0 <=? row) && (row <? grid_size g) && (0 <=? col)
             && (col <=? grid_size g)) with true
      by (symmetry; repeat (apply andb_true_intro; split); lia).
    simpl.
    destruct (setitem2_entry (vertical_fences g) row col true)
      as (fences & -> & _); [lia..|by rewrite Hfree|].
    apply entry_Some_getitem2 in Hfree as ->; [|lia..]. simpl. eauto.
Qed.

(** X10. On a game of a run, [place_fence] accepts a move exactly when the
    game is being played, the player at the turn index has the given id, the
    turn clock has not run out, and the slot named by the orientation and
    the coordinates is in the lattice and still free. *)
Theorem move_accepted_iff g player_id row col orientation clock :
  reachable g →
  (∃ claimed g',
     place_fence g player_id row col orientation clock
     = Ok (true, claimed, g'))
  ↔
  state g = GAME_STATE_PLAYING ∧
  (∃ p, players g !! current_player_idx g = Some p ∧
        Player.id p = player_id) ∧
  turn_expired g (clock 0%nat) = false ∧
  ((orientation = ORIENTATION_HORIZONTAL ∧
    0 ≤ row ≤ grid_size g ∧ 0 ≤ col < grid_size g ∧
    entry (horizontal_fences g) (Z.to_nat row) (Z.to_nat col) = Some false)
   ∨
   (orientation ≠ ORIENTATION_HORIZONTAL ∧
    orientation = ORIENTATION_VERTICAL ∧
    0 ≤ row < grid_size g ∧ 0 ≤ col ≤ grid_size g ∧
    entry (vertical_fences g) (Z.to_nat row) (Z.to_nat col) = Some false)).
Proof.
  intros Hshape%reachable_well_shaped. split.
  - intros (claimed & g' & Hpf).
    apply place_fence_true in Hpf
      as (cp & g1 & Hstate & Hcur & Hid & Hexp & Hset & _).
    apply get_current_player_Some in Hcur as [Hcp _].
    do 2 (split; [eauto|]). split; [done|].
    apply set_fence_Some in Hset
      as [(Ho & Hrow & Hcol & Hfree & _)|(Hne & Ho & Hrow & Hcol & Hfree & _)];
      apply entry_Some_getitem2 in Hfree; try lia; [left|right]; done.
  - intros (Hstate & (p & Hp & Hid) & Hexp & Hslot).
    apply set_fence_free_slot in Hslot as [g1 Hset].
    destruct (place_fence_returns g player_id row col orientation clock
                Hshape) as ([|] & claimed & g' & Hpf & _); [eauto|].
    pose proof (lookup_lt_Some _ _ _ Hp) as Hlt.
    destruct (get_current_player_in g Hlt) as (q & Hq & Hcur).
    assert (q = p) as -> by congruence.
    apply place_fence_rejected in Hpf
      as [?|[?|[(p' & ? & ?)|[?|?]]]]; congruence.
Qed.

End Acceptance.

Lemma move_accepted_iff_witness :
  (∃ claimed g',
     place_fence (H := sample_constants) Sample.three_fences "b" 0 1 "vertical"
       (Sample.at_time 2)
     = Ok (true, claimed, g')).
Proof.
  apply (move_accepted_iff (H := sample_constants) Sample.three_fences
           "b" 0 1 "vertical" (Sample.at_time 2) three_fences_reachable).
  split; [reflexivity|]. split; [eexists; split; vm_compute; reflexivity|].
  split; [reflexivity|]. right.
  split; [discriminate|]. split; [reflexivity|].
  split; [vm_compute; intuition discriminate|].
  split; [vm_compute; intuition discriminate|]. reflexivity.
Defined.

(** ** What a move gives to the mover *)

Section Credit.
Context `{Constants}.
Import Score Land Grid ProspectorServer.

(** X11. A successful move gives the cells it claims to the player at the
    turn index: each claimed cell had no owner and now has this index as
    owner, every other entry of [land_cells] is as before, and
    [unclaimed_lands] has dropped by the number of claimed cells. *)
Theorem claimed_cells_go_to_the_mover g player_id row col orientation clock
    claimed g' :
  place_fence g player_id row col orientation clock = Ok (true, claimed, g') →
  unclaimed_lands g' = unclaimed_lands g - Z.of_nat (length claimed) ∧
  ∀ i j,
    if decide ((Z.of_nat i, Z.of_nat j) ∈ claimed) then
      ∃ cell, entry (land_cells g) i j = Some cell ∧
              LandCell.owner cell = None ∧
              entry (land_cells g') i j
              = Some (LandCell.set_owner (Some (current_player_idx g)) cell)
    else entry (land_cells g') i j = entry (land_cells g) i j.
Proof.
  intros (g1 & mover & Hset & _ & _ & Hscan & _ & _ & _ & Hentries & _ & Hun
          & _)%place_fence_outcome.
  split; [done|]. intros i j. rewrite Hentries.
  case_decide as Hin; [|done].
  rewrite Hscan in Hin.
  apply scan_positions in Hin as (_ & _ & (cell & Hcell & Hnone) & _).
  apply set_fence_frame in Hset as (_ & _ & _ & Hcells1 & _).
  rewrite Hcells1 in Hcell. exists cell. by rewrite Hcell.
Qed.

(** A loop that adds up the values computed from the items. *)
Lemma for_each_sum {A} (h : A → result Z) (f : A → Z) (xs : list A) (acc : Z) :
  (∀ x, x ∈ xs → h x = Ok (f x)) →
  for_each xs (λ x acc, v ← h x; Ok (acc + v)) acc = Ok (acc + zsum (f <$> xs)).
Proof.
  revert acc. induction xs as [|x xs IH]; intros acc Hh; simpl.
  - f_equal. lia.
  - rewrite Hh by apply list_elem_of_here. simpl.
    rewrite IH by (intros y Hy; apply Hh; by apply list_elem_of_further).
    rewrite Z.add_assoc. reflexivity.
Qed.

(** X12. After a successful move in a game of a run, the score the server
    computes for the move (the sum of [get_land_value] over the claimed
    cells, read from the game after the move) is the amount by which the
    score of the mover has grown; the scores of the other players are
    unchanged. *)
Theorem reported_score_is_the_gain g player_id row col orientation clock
    claimed g' :
  reachable g →
  place_fence g player_id row col orientation clock = Ok (true, claimed, g') →
  ∃ mover mover',
    players g !! current_player_idx g = Some mover ∧
    players g' !! current_player_idx g = Some mover' ∧
    Player.id mover = player_id ∧
    reported_score_gained g' claimed
    = Ok (Player.score mover' - Player.score mover) ∧
    ∀ k p p', k ≠ current_player_idx g →
              players g !! k = Some p → players g' !! k = Some p' →
              Player.score p' = Player.score p.
Proof.
  intros Hreach Hpf.
  assert (Hshape' : well_shaped g').
  { apply reachable_well_shaped. by eapply reach_place_fence. }
  apply place_fence_outcome in Hpf
    as (g1 & mover & Hset & Hmover & Hid & Hscan & _ & _ & Hgs & Hentries & _
        & _ & Hscores).
  assert (Hlook : ∀ k, Player.score <$> players g' !! k
            = if decide (k = current_player_idx g)
              then Some (Player.score mover
                         + claimed_value (land_cells g) claimed)
              else Player.score <$> players g !! k).
  { intros k. rewrite <- !list_lookup_fmap, Hscores.
    case_decide as Hk.
    - subst k. apply list_lookup_insert_eq. rewrite length_fmap.
      by eapply lookup_lt_Some.
    - by rewrite list_lookup_insert_ne. }
  pose proof (Hlook (current_player_idx g)) as Hme.
  rewrite decide_True in Hme by done.
  destruct (players g' !! current_player_idx g) as [mover'|] eqn:Hmover';
    [|done].
  injection Hme as Hme.
  exists mover, mover'. do 3 (split; [done|]). split.
  - unfold reported_score_gained.
    rewrite (for_each_ext _
      (λ cell score_gained,
         value ← get_land_value g' cell.1 cell.2; Ok (score_gained + value)))
      by (by intros [r c] ? _).
    rewrite (for_each_sum _ (value_at (land_cells g))).
    + f_equal. rewrite Hme. unfold claimed_value. lia.
    + intros [r c] Hin. rewrite Hscan in Hin.
      apply elem_of_scan in Hin as (Hr & Hc & _).
      apply set_fence_frame in Hset as (_ & _ & _ & _ & _ & _ & _ & Hgs1).
      rewrite Hgs1 in Hr, Hc. cbn [fst snd].
      destruct (get_land_value_returns g' r c Hshape') as (v & -> & ->).
      f_equal. rewrite Hgs, decide_True by lia.
      unfold value_at. cbn [fst snd]. rewrite Hentries.
      case_decide; [|done]. by destruct (entry _ _ _).
  - intros k p p' Hk Hp Hp'. specialize (Hlook k).
    rewrite decide_False, Hp, Hp' in Hlook by done. by injection Hlook.
Qed.

End Credit.

Lemma claimed_cells_go_to_the_mover_witness :
  unclaimed_lands Sample.bob_claimed
  = unclaimed_lands Sample.three_fences - Z.of_nat (length [(0, 0)]).
Proof.
  apply (claimed_cells_go_to_the_mover (H := sample_constants)
           Sample.three_fences "b" 0 1 "vertical" (Sample.at_time 2)
           [(0, 0)] Sample.bob_claimed).
  vm_compute. reflexivity.
Defined.

Lemma reported_score_is_the_gain_witness :
  ProspectorServer.reported_score_gained Sample.bob_claimed [(0, 0)]
  = Ok (5 - 0).
Proof.
  destruct (reported_score_is_the_gain (H := sample_constants)
              Sample.three_fences "b" 0 1 "vertical" (Sample.at_time 2)
              [(0, 0)] Sample.bob_claimed three_fences_reachable)
    as (mover & mover' & Hm & Hm' & _ & Hreported & _).
  - vm_compute. reflexivity.
  - vm_compute in Hm, Hm'. injection Hm as <-. injection Hm' as <-.
    exact Hreported.
Defined.

(** ** The awards of [end_game] *)

Section Awards.

(** The loop of [end_game] that looks for the highest score: it ends with
    the highest score of the roster, or -1 if that is higher, and with the
    indices of the players who have it. *)
Lemma find_winners_spec ps :
  let max_score := (find_winners ps).1 in
  let winners := (find_winners ps).2 in
  -1 ≤ max_score ∧
  (∀ q, q ∈ ps → Player.score q ≤ max_score) ∧
  (max_score = -1 ∨ ∃ q, q ∈ ps ∧ Player.score q = max_score) ∧
  NoDup winners ∧
  ∀ i, i ∈ winners ↔ ∃ p, ps !! i = Some p ∧ Player.score p = max_score.
Proof.
  induction ps as [|p ps IH] using rev_ind.
  - simpl. split; [done|]. split; [by intros q ?%elem_of_nil|].
    split; [auto|]. split; [constructor|].
    intros i. split; [by intros ?%elem_of_nil|by intros (p & ? & _)].
  - unfold find_winners, enumerate in *.
    rewrite imap_app, foldl_app. simpl.
    destruct (foldl _ _ (imap pair ps)) as [m ws]. simpl in IH.
    destruct IH as (Hm & Hle & Hatt & Hnodup & Hws).
    rewrite Nat.add_0_r.
    assert (Hlook : ∀ i q, (ps ++ [p]) !! i = Some q ↔
                           ps !! i = Some q ∨ (i = length ps ∧ q = p)).
    { intros i q. rewrite lookup_app. destruct (ps !! i) eqn:Hi.
      - apply lookup_lt_Some in Hi. split; [auto|]. intros [?|[-> _]]; [done|lia].
      - apply lookup_ge_None in Hi. rewrite list_lookup_singleton_Some.
        split; [intros [? ?]; right; split; [lia|done]
               |intros [?|[-> ->]]; [done|split; [lia|done]]]. }
    destruct (Z.gtb_spec (Player.score p) m) as [Hgt|Hngt]; simpl.
    + split; [lia|]. split.
      { intros q [Hq| ->%list_elem_of_singleton]%elem_of_app; [|lia].
        specialize (Hle q Hq). lia. }
      split.
      { right. exists p. split; [|done]. apply elem_of_app. right.
        by apply list_elem_of_singleton. }
      split; [apply NoDup_singleton|].
      intros i. rewrite list_elem_of_singleton. split.
      * intros ->. exists p. split; [|done]. apply Hlook. auto.
      * intros (q & [Hq|[-> _]]%Hlook & Hs); [|done].
        apply list_elem_of_lookup_2, Hle in Hq. lia.
    + destruct (Z.eqb_spec (Player.score p) m) as [Heq|Hne]; simpl.
      * split; [done|]. split.
        { intros q [Hq| ->%list_elem_of_singleton]%elem_of_app; [auto|lia]. }
        split.
        { right. exists p. split; [|done]. apply elem_of_app. right.
          by apply list_elem_of_singleton. }
        split.
        { apply NoDup_app. split; [done|]. split; [|apply NoDup_singleton].
          intros i (q & Hq & _)%Hws ->%list_elem_of_singleton.
          apply lookup_lt_Some in Hq. lia. }
        intros i. rewrite elem_of_app, list_elem_of_singleton, Hws. split.
        -- intros [(q & Hq & Hs)| ->]; [exists q|exists p];
             (split; [apply Hlook; auto|done]).
        -- intros (q & [Hq|[-> ->]]%Hlook & Hs); eauto.
      * split; [done|]. split.
        { intros q [Hq| ->%list_elem_of_singleton]%elem_of_app; [auto|lia]. }
        split.
        { destruct Hatt as [?|(q & Hq & Hs)]; [auto|].
          right. exists q. split; [|done]. apply elem_of_app. auto. }
        split; [done|].
        intros i. rewrite Hws. split.
        -- intros (q & Hq & Hs). exists q. split; [apply Hlook; auto|done].
        -- intros (q & [Hq|[-> ->]]%Hlook & Hs); [eauto|done].
Qed.

Lemma foldl_alter_lookup {A} (f : A → A) (ws : list nat) (l : list A) i :
  NoDup ws →
  foldl (λ l w, alter f w l) l ws !! i
  = if decide (i ∈ ws) then f <$> l !! i else l !! i.
Proof.
  intros Hnodup. revert l.
  induction Hnodup as [|w ws Hnotin Hnodup IH]; intros l; cbn [foldl].
  - rewrite decide_False; [done|]. by intros ?%elem_of_nil.
  - rewrite IH. destruct (decide (i = w)) as [->|Hne].
    + rewrite decide_False by done.
      rewrite decide_True by apply list_elem_of_here.
      destruct (l !! w) as [x|] eqn:Hx.
      * rewrite list_lookup_alter_eq. by rewrite Hx.
      * rewrite (proj2 (lookup_ge_None _ _));
          [done|rewrite length_alter; by apply lookup_ge_None].
    + rewrite list_lookup_alter_ne by done.
      case_decide as Hin.
      * rewrite decide_True; [done|]. by apply list_elem_of_further.
      * rewrite decide_False; [done|].
        intros [?|?]%elem_of_cons; done.
Qed.

(** X13. [end_game] on a game that is not finished, with two players or
    more whose scores are at least -1: a player below the highest score
    gets a loss; the holder of the highest score gets a win if no other
    player has this score, and a draw otherwise. *)
Theorem end_game_awards g now i p :
  state g ≠ GAME_STATE_FINISHED →
  (2 ≤ length (players g))%nat →
  Forall (λ q, -1 ≤ Player.score q) (players g) →
  players g !! i = Some p →
  let p' := players (end_game g now) !! i in
  ((∃ q, q ∈ players g ∧ Player.score p < Player.score q) →
   p' = Some (Player.lose_game p)) ∧
  ((∀ q, q ∈ players g → Player.score q ≤ Player.score p) →
   (∀ j q, players g !! j = Some q → Player.score q = Player.score p →
           j = i) →
   p' = Some (Player.win_game p)) ∧
  ((∀ q, q ∈ players g → Player.score q ≤ Player.score p) →
   (∃ j q, j ≠ i ∧ players g !! j = Some q ∧
           Player.score q = Player.score p) →
   p' = Some (Player.draw_game p)).
Proof.
  intros Hstate Hlen Hscores Hp.
  pose proof (find_winners_spec (players g))
    as (Hm & Hle & Hatt & Hnodup & Hws).
  unfold end_game. rewrite decide_False by done. simpl.
  destruct (Z.ltb_spec (Z.of_nat (length (players g))) 2) as [|_]; [lia|].
  set (m := (find_winners (players g)).1) in *.
  set (ws := (find_winners (players g)).2) in *.
  assert (Htop : (∀ q, q ∈ players g → Player.score q ≤ Player.score p) →
                 Player.score p = m).
  { intros Hall. apply Z.le_antisymm.
    - apply Hle. by eapply list_elem_of_lookup_2.
    - destruct Hatt as [->|(q & Hq & <-)]; [|by apply Hall].
      eapply list.Forall_forall in Hscores;
        [done|by eapply list_elem_of_lookup_2]. }
  assert (Hbelow : (∃ q, q ∈ players g ∧ Player.score p < Player.score q) →
                   i ∉ ws).
  { intros (q & Hq & Hlt) (p0 & Hp0 & Hs)%Hws.
    assert (p0 = p) as -> by congruence.
    specialize (Hle q Hq). lia. }
  destruct (Nat.eqb_spec (length ws) 1) as [Hone|Hmany]; simpl;
    rewrite list_lookup_imap.
  - destruct ws as [|w [|? ?]] eqn:Hwseq; try done. simpl.
    setoid_rewrite list_elem_of_singleton in Hws.
    setoid_rewrite list_elem_of_singleton in Hbelow.
    repeat split.
    + intros Hex. specialize (Hbelow Hex).
      rewrite list_lookup_alter_ne, Hp by done. simpl.
      by rewrite decide_True.
    + intros Hall Huniq. assert (i = w) as <-.
      { apply Hws. exists p. split; [done|]. by apply Htop. }
      rewrite list_lookup_alter_eq, Hp. simpl.
      rewrite decide_False; [done|]. by intros [].
    + intros Hall (j & q & Hne & Hq & Hs). exfalso.
      assert (i = w).
      { apply Hws. exists p. split; [done|]. by apply Htop. }
      assert (j = w); [|congruence].
      apply Hws. exists q. split; [done|]. rewrite Hs. by apply Htop.
  - rewrite foldl_alter_lookup, Hp by done. repeat split.
    + intros Hex. specialize (Hbelow Hex).
      rewrite decide_False by done. simpl.
      by rewrite bool_decide_eq_true_2.
    + intros Hall Huniq. exfalso. apply Hmany.
      assert (Hw : ∀ j, j ∈ ws ↔ j ∈ [i]).
      { intros j. rewrite list_elem_of_singleton, Hws. split.
        - intros (q & Hq & Hs). apply (Huniq j q Hq).
          rewrite Hs. symmetry. by apply Htop.
        - intros ->. exists p. split; [done|]. by apply Htop. }
      assert (ws ≡ₚ [i]) as ->; [|done].
      apply NoDup_Permutation; [done|apply NoDup_singleton|done].
    + intros Hall _.
      assert (i ∈ ws) by (apply Hws; exists p; split; [done|by apply Htop]).
      rewrite decide_True by done. simpl.
      by rewrite bool_decide_eq_false_2 by (by intros []).
Qed.

End Awards.

Lemma end_game_awards_witness :
  ∃ p, players Sample.bob_claimed !! 1%nat = Some p ∧
       players (end_game Sample.bob_claimed 9) !! 1%nat
       = Some (Player.win_game p).
Proof.
  eexists. split; [vm_compute; reflexivity|].
  apply (end_game_awards Sample.bob_claimed 9 1).
  - vm_compute. discriminate.
  - vm_compute. lia.
  - vm_compute. repeat constructor; discriminate.
  - vm_compute. reflexivity.
  - intros q Hq. vm_compute in Hq.
    apply elem_of_cons in Hq as [->|Hq]; [vm_compute; discriminate|].
    apply list_elem_of_singleton in Hq as ->. vm_compute. discriminate.
  - intros [|[|j]] q Hq Hs; vm_compute in Hq; [|done..].
    injection Hq as <-. vm_compute in Hs. discriminate.
Defined.

(** ** The statistics of the players *)

Section Statistics.
Context `{Constants}.
Import Land.

Section Closure.
Variable P : Player.t → Prop.
Hypothesis P_update_activity : ∀ now p, P p → P (Player.update_activity now p).
Hypothesis P_add_score : ∀ points p, P p → P (Player.add_score points p).
Hypothesis P_win_game : ∀ p, P p → P (Player.win_game p).
Hypothesis P_lose_game : ∀ p, P p → P (Player.lose_game p).
Hypothesis P_draw_game : ∀ p, P p → P (Player.draw_game p).

Lemma Forall_imap_keep (f : nat → Player.t → Player.t) ps :
  (∀ i p, P p → P (f i p)) → Forall P ps → Forall P (imap f ps).
Proof.
  intros Hf Hps. apply list.Forall_lookup_2. intros i p.
  rewrite list_lookup_imap. intros (q & Hq & ->)%fmap_Some.
  apply Hf. by eapply list.Forall_lookup_1 in Hps.
Qed.

Lemma Forall_foldl_alter_keep (f : Player.t → Player.t) ws ps :
  (∀ p, P p → P (f p)) →
  Forall P ps → Forall P (foldl (λ ps w, alter f w ps) ps ws).
Proof.
  intros Hf. revert ps. induction ws as [|w ws IH]; intros ps Hps; [done|].
  simpl. apply IH, Forall_alter; auto.
Qed.

Lemma end_game_roster g now :
  Forall P (players g) → Forall P (players (end_game g now)).
Proof.
  intros Hps. unfold end_game. repeat case_match; simpl; try done.
  - apply Forall_alter; auto.
  - apply Forall_imap_keep; [intros; case_match; auto|].
    apply Forall_alter; auto.
  - apply Forall_imap_keep; [intros; case_match; auto|].
    by apply Forall_foldl_alter_keep.
Qed.

Lemma remove_player_roster g player_id now :
  Forall P (players g) →
  Forall P (players (remove_player g player_id now).1.2).
Proof.
  intros Hps. unfold remove_player.
  destruct (list_find _ _) as [[i p]|]; simpl; [|done].
  destruct (decide (state g = GAME_STATE_PLAYING)); simpl;
    destruct (_ && _); simpl; apply Forall_delete; try done;
    (apply Forall_alter; [|by auto]);
    (apply Forall_imap_keep; [intros; case_match; auto|done]).
Qed.

Lemma place_fence_roster g player_id row col orientation clock ok claimed g' :
  place_fence g player_id row col orientation clock = Ok (ok, claimed, g') →
  Forall P (players g) → Forall P (players g').
Proof.
  intros Hpf Hps. destruct ok.
  - apply place_fence_true in Hpf
      as (cp & g1 & _ & _ & _ & _ & Hset & _ & Hcases).
    apply set_fence_frame in Hset as (Hps1 & _).
    assert (Hmoved : Forall P
              (players (moved g1 player_id row col orientation clock))).
    { simpl. apply Forall_alter; [by rewrite Hps1|auto]. }
    destruct Hcases as [[_ ->]|(_ & cells & gained & _ & ->)].
    + destruct (next_turn_frame
        (moved g1 player_id row col orientation clock) (clock 4%nat))
        as (Heq & _).
      simpl in *. by rewrite Heq.
    + unfold credited. simpl. case_match.
      * apply end_game_roster. simpl. apply Forall_alter; auto.
      * simpl. apply Forall_alter; auto.
  - apply place_fence_false in Hpf as (_ & [->|(_ & _ & _ & ->)]); [done|].
    destruct (next_turn_frame g (clock 1%nat)) as (Heq & _). by rewrite Heq.
Qed.

Lemma check_inactivity_roster g clock ok g' :
  check_inactivity g clock = Ok (ok, g') →
  Forall P (players g) → Forall P (players g').
Proof.
  intros [[_ ->]|(_ & _ & pid & ->)]%check_inactivity_cases Hps; [done|].
  by apply remove_player_roster.
Qed.

(** A property of the new players that the five updates of [Player] keep
    holds of every player of every game of a run. *)
Lemma reachable_roster :
  (∀ name_ player_id fresh now, P (Player.init name_ player_id fresh now)) →
  ∀ g, reachable g → Forall P (players g).
Proof.
  intros Hinit g.
  induction 1 as [| g name_ pid fresh now clock _ IH
                  | g pid now _ IH
                  | g pid row col o clock ok claimed g' _ IH Hpf
                  | g clock ok g' _ IH Hci
                  | g now _ IH].
  - constructor.
  - unfold add_player. case_match; [|done]. simpl.
    case_match; simpl; (apply Forall_app; split; [done|]);
      by repeat constructor.
  - by apply remove_player_roster.
  - by eapply place_fence_roster.
  - by eapply check_inactivity_roster.
  - by apply end_game_roster.
Qed.

End Closure.

(** X14. In every game of a run (players join with fresh statistics), the
    statistics of each player of the roster add up: [games_played] is the
    sum of [wins], [losses] and [draws], and none of them is negative. *)
Theorem statistics_add_up g p :
  reachable g → p ∈ players g →
  Player.games_played p = Player.wins p + Player.losses p + Player.draws p ∧
  0 ≤ Player.wins p ∧ 0 ≤ Player.losses p ∧ 0 ≤ Player.draws p.
Proof.
  intros Hreach Hp.
  pose proof (reachable_roster tally) as Hall.
  eapply list.Forall_forall in Hall; [exact Hall|..|done|done];
    unfold tally; simpl; intros; lia.
Qed.

End Statistics.

Lemma statistics_add_up_witness :
  ∃ p, players Sample.alice_left !! 0%nat = Some p ∧
       Player.games_played p
       = Player.wins p + Player.losses p + Player.draws p.
Proof.
  eexists. split; [vm_compute; reflexivity|].
  apply (statistics_add_up (H := sample_constants) Sample.alice_left).
  - apply alice_left_reachable.
  - vm_compute. apply list_elem_of_here.
Defined.

(** ** Restoring a game from any dictionary *)

Section Restore.
Context `{Constants}.
Import Grid.



End Restore.


(** ** The inactivity check *)

Section Inactivity.
Context `{Constants}.

(** Removing a player of the roster from a game that is being played. *)
Lemma remove_player_ends_game g p now :
  state g = GAME_STATE_PLAYING → p ∈ players g →
  let g' := (remove_player g (Player.id p) now).1.2 in
  state g' = GAME_STATE_FINISHED ∧
  S (length (players g')) = length (players g) ∧
  last (game_history g') = Some (player_left (Player.id p) now).
Proof.
  intros Hstate Hp.
  destruct (list_find_elem_of (λ q, Player.id q = Player.id p) (players g) p)
    as [[i q] Hfind]; [done..|].
  unfold remove_player. rewrite Hfind.
  apply list_find_Some in Hfind as (Hq & _).
  rewrite decide_True by done. simpl.
  assert (Hlen : S (length (delete i
            (alter Player.lose_game i
               (imap (λ j other, if decide (j ≠ i) then Player.win_game other
                                 else other) (players g)))))
          = length (players g)).
  { rewrite length_delete; rewrite ?length_alter, ?length_imap.
    - apply lookup_lt_Some in Hq. lia.
    - apply lookup_lt_is_Some_2. rewrite length_alter, length_imap.
      by eapply lookup_lt_Some. }
  destruct (_ && _); simpl; (split; [done|]); (split; [done|]);
    apply last_snoc.
Qed.

(** X16. [check_inactivity] never raises. It returns [True] exactly when
    the game is being played, the turn clock is set (and not 0), there is a
    player at the turn index and more than [turn_timeout] seconds have
    passed since the turn started; the game is then finished, the roster has
    lost one player (the first one with the id of the current player) and a
    [player_left] entry ends the history. When it returns [False] the game
    is unchanged. *)
Theorem check_inactivity_spec g clock :
  ∃ ok g',
    check_inactivity g clock = Ok (ok, g') ∧
    (ok = true ↔
     state g = GAME_STATE_PLAYING ∧
     ∃ started p,
       turn_start_time g = Some started ∧ started ≠ 0 ∧
       players g !! current_player_idx g = Some p ∧
       turn_timeout g < clock 0%nat - started) ∧
    (ok = false → g' = g) ∧
    (ok = true →
     state g' = GAME_STATE_FINISHED ∧
     S (length (players g')) = length (players g) ∧
     ∃ p, players g !! current_player_idx g = Some p ∧
          g' = (remove_player g (Player.id p) (clock 1%nat)).1.2 ∧
          last (game_history g')
          = Some (player_left (Player.id p) (clock 1%nat))).
Proof.
  unfold check_inactivity.
  destruct (decide (state g = GAME_STATE_PLAYING)) as [Hstate|Hstate].
  2: { rewrite bool_decide_eq_true_2 by done. simpl.
       exists false, g. split; [done|]. split; [|done].
       split; [done|]. by intros [? _]. }
  rewrite bool_decide_eq_false_2 by (by intros []). simpl.
  destruct (turn_start_time g) as [started|] eqn:Hstart; simpl.
  2: { exists false, g. split; [done|]. split; [|done].
       split; [done|]. by intros (_ & ? & ? & ? & _). }
  destruct (Z.eqb_spec started 0) as [Hzero|Hzero]; simpl.
  { exists false, g. split; [done|]. split; [|done].
    split; [done|]. intros (_ & ? & ? & ? & ? & _). congruence. }
  destruct (Nat.lt_ge_cases (current_player_idx g) (length (players g)))
    as [Hlt|Hge].
  - destruct (get_current_player_in g Hlt) as (p & Hp & ->). simpl.
    destruct (Z.ltb_spec (turn_timeout g) (clock 0%nat - started))
      as [Hlate|Hearly].
    + eexists true, _. split; [done|]. split; [|split; [done|]].
      * split; [|done]. intros _. split; [done|]. eauto 10.
      * intros _.
        destruct (remove_player_ends_game g p (clock 1%nat) Hstate)
          as (? & ? & ?); [by eapply list_elem_of_lookup_2|].
        eauto 10.
    + exists false, g. split; [done|]. split; [|done].
      split; [done|]. intros (_ & s & q & [= <-] & _ & _ & ?). lia.
  - rewrite get_current_player_out by auto. simpl.
    exists false, g. split; [done|]. split; [|done].
    split; [done|]. intros (_ & ? & q & _ & _ & Hq & _).
    apply lookup_lt_Some in Hq. lia.
Qed.

End Inactivity.

Lemma check_inactivity_spec_witness :
  ∃ g', check_inactivity Sample.bob_claimed (Sample.at_time 100)
        = Ok (true, g') ∧
        state g' = GAME_STATE_FINISHED.
Proof.
  destruct (check_inactivity_spec Sample.bob_claimed (Sample.at_time 100))
    as (ok & g' & Hci & _ & _ & Htrue).
  assert (ok = true) as ->.
  { vm_compute in Hci. by injection Hci as <- _. }
  exists g'. split; [exact Hci|]. exact (proj1 (Htrue eq_refl)).
Defined.

(** ** The value and the type of the land *)

Section LandValues.
Context `{Constants}.
Import Land Grid.

(** Inside the grid both accessors read the land cell. *)
Lemma land_accessors_inside g row col :
  well_shaped g →
  0 ≤ row < grid_size g → 0 ≤ col < grid_size g →
  ∃ cell,
    entry (land_cells g) (Z.to_nat row) (Z.to_nat col) = Some cell ∧
    get_land_value g row col = Ok (LandCell.value cell) ∧
    get_land_type g row col = Ok (LandCell.type cell).
Proof.
  intros (_ & _ & Hc) Hrow Hcol.
  destruct (has_shape_getitem2 _ _ _ row col Hc) as [cell Hcell]; [lia..|].
  exists cell. unfold get_land_value, get_land_type.
  replace ((0 <=? row) && (row <? grid_size g) && (0 <=? col)
           && (col <? grid_size g)) with true
    by (symmetry; repeat (apply andb_true_intro; split); lia).
  rewrite Hcell. split; [|done]. apply entry_Some_getitem2; [lia..|done].
Qed.

(** Outside the grid they answer 0 and the regular type. *)
Lemma land_accessors_outside g row col :
  ¬ (0 ≤ row < grid_size g ∧ 0 ≤ col < grid_size g) →
  get_land_value g row col = Ok 0 ∧
  get_land_type g row col = Ok LAND_TYPE_REGULAR.
Proof.
  intros Hout. unfold get_land_value, get_land_type.
  destruct (_ && _) eqn:Hrange; [|done].
  repeat (apply andb_prop in Hrange as [Hrange ?]). destruct Hout. lia.
Qed.

Lemma init_cells_priced grid_size_ land_types i j cell :
  entry (distribute_land_types grid_size_ land_types) i j = Some cell →
  LandCell.value cell = LandCell.get_value_for_type (LandCell.type cell).
Proof.
  unfold entry, distribute_land_types. rewrite list_lookup_fmap.
  destruct (range grid_size_ !! i) as [row|]; [|done]. simpl.
  rewrite list_lookup_fmap.
  destruct (range grid_size_ !! j) as [col|]; [|done]. simpl.
  by intros [= <-].
Qed.

Lemma reachable_cells_priced g i j cell :
  reachable g →
  entry (land_cells g) i j = Some cell →
  LandCell.value cell = LandCell.get_value_for_type (LandCell.type cell).
Proof.
  intros Hreach. revert i j cell. revert g Hreach.
  apply (reachable_by_steps
    (λ g, ∀ i j cell, entry (land_cells g) i j = Some cell →
       LandCell.value cell = LandCell.get_value_for_type (LandCell.type cell))).
  - intros gs mp gid fresh tt lt i j cell. apply init_cells_priced.
  - intros g g' _ IH
      [(_ & _ & _ & Hc & _)|(pid & row & col & o & clock & claimed & Hpf)]
      %step_cases i j cell.
    + rewrite Hc. apply IH.
    + apply place_fence_outcome in Hpf
        as (_ & _ & _ & _ & _ & _ & _ & _ & _ & Hentries & _).
      rewrite Hentries. case_decide; [|apply IH].
      intros (cell0 & Hcell0 & ->)%fmap_Some. simpl. by eapply IH.
Qed.

(** X17. On a game of a run, the value [get_land_value] reports for a cell
    of the grid is the value of the type [get_land_type] reports for it;
    outside the grid the two accessors answer 0 and the regular type. *)
Theorem land_value_matches_type g row col :
  reachable g →
  ∃ v ty,
    get_land_value g row col = Ok v ∧
    get_land_type g row col = Ok ty ∧
    (0 ≤ row < grid_size g ∧ 0 ≤ col < grid_size g →
     v = LandCell.get_value_for_type ty) ∧
    (¬ (0 ≤ row < grid_size g ∧ 0 ≤ col < grid_size g) →
     v = 0 ∧ ty = LAND_TYPE_REGULAR).
Proof.
  intros Hreach.
  destruct (decide (0 ≤ row < grid_size g ∧ 0 ≤ col < grid_size g))
    as [[Hrow Hcol]|Hout].
  - destruct (land_accessors_inside g row col) as (cell & Hcell & -> & ->);
      [by apply reachable_well_shaped|done..|].
    eexists _, _. do 2 (split; [done|]). split; [|tauto].
    intros _. by eapply reachable_cells_priced.
  - destruct (land_accessors_outside g row col Hout) as [-> ->].
    eexists _, _. do 2 (split; [done|]). split; [tauto|done].
Qed.

End LandValues.

Lemma land_value_matches_type_witness :
  get_land_value Sample.bob_claimed 0 0 = Ok 5 ∧
  get_land_type (H := sample_constants) Sample.bob_claimed 0 0 = Ok "gold".
Proof.
  destruct (land_value_matches_type (H := sample_constants)
              Sample.bob_claimed 0 0 bob_claimed_reachable)
    as (v & ty & Hv & Hty & _).
  vm_compute in Hv, Hty. injection Hv as <-. injection Hty as <-.
  split; reflexivity.
Defined.

(** ** The player to move *)

Section PlayerToMove.
Context `{Constants}.
Import Score.

Lemma remove_player_false g player_id now :
  (remove_player g player_id now).1.1 = false →
  (remove_player g player_id now).1.2 = g.
Proof.
  unfold remove_player. by destruct (list_find _ _) as [[i p]|].
Qed.

(** The turn index, the roster and the state after a call of
    [place_fence]. *)
Lemma turn_index_after_place_fence g player_id row col orientation clock ok claimed
    g' :
  place_fence g player_id row col orientation clock = Ok (ok, claimed, g') →
  g' = g ∨
  (state g = GAME_STATE_PLAYING ∧
   length (players g') = length (players g) ∧
   state g' ≠ GAME_STATE_WAITING ∧
   (current_player_idx g' = current_player_idx g ∨
    (current_player_idx g' < length (players g'))%nat)).
Proof.
  intros Hpf. destruct ok.
  - right. apply place_fence_true in Hpf
      as (cp & g1 & Hstate & Hcur & _ & _ & Hset & _ & Hcases).
    apply set_fence_frame in Hset as (Hps1 & Hidx1 & Hst1 & _).
    apply get_current_player_Some in Hcur as [_ Hlt].
    split; [done|].
    destruct Hcases as [[_ ->]|(_ & cells & gained & _ & ->)].
    + unfold next_turn. simpl.
      case_bool_decide as Hnil; simpl;
        rewrite ?length_alter, Hps1, Hst1, Hstate.
      * split; [done|]. split; [done|]. left. done.
      * split; [done|]. split; [done|]. right.
        apply Nat.mod_upper_bound. lia.
    + destruct (credited_frame (moved g1 player_id row col orientation clock)
                  player_id claimed cells gained clock)
        as (_ & _ & Hidx & _ & _ & _ & _ & Hscores).
      simpl in *. rewrite Hidx.
      apply (f_equal length) in Hscores.
      rewrite !length_fmap, !length_alter, Hps1 in Hscores.
      split; [done|]. split; [|auto].
      unfold credited. simpl. case_match.
      * by rewrite end_game_state.
      * simpl. by rewrite Hst1, Hstate.
  - apply place_fence_false in Hpf
      as (_ & [->|(Hstate & _ & (cp & Hcur) & ->)]); [by left|].
    right. apply get_current_player_Some in Hcur as [_ Hlt].
    unfold next_turn. case_bool_decide as Hnil; simpl.
    + rewrite Hstate. split; [done|]. split; [done|]. split; [done|]. by left.
    + rewrite Hstate. split; [done|]. split; [done|]. split; [done|].
      right. apply Nat.mod_upper_bound. lia.
Qed.

(** The turn index of a run in which nobody leaves a game that has
    started. *)
Lemma keeping_players_turn_index g :
  reachable_keeping_players g →
  (state g = GAME_STATE_WAITING → current_player_idx g = 0%nat) ∧
  (current_player_idx g = 0%nat
   ∨ (current_player_idx g < length (players g))%nat) ∧
  (state g = GAME_STATE_PLAYING → (2 ≤ length (players g))%nat).
Proof.
  induction 1 as [| g name_ pid fresh now clock _ (IHw & IHi & IHp)
                  | g pid now _ (IHw & IHi & IHp) Hkeep
                  | g pid row col o clock ok claimed g' _ (IHw & IHi & IHp) Hpf
                  | g clock g' _ IH Hci
                  | g now _ (IHw & IHi & IHp)].
  - simpl. split; [done|]. split; [by left|done].
  - unfold add_player. case_match; [|done]. simpl.
    destruct (Z.leb_spec 2
      (Z.of_nat (length (players g ++ [Player.init name_ pid fresh now]))));
      simpl; rewrite length_app in *; simpl in *.
    + split; [done|]. split; [lia|]. lia.
    + split; [done|]. split; [lia|]. intros Hst. specialize (IHp Hst). lia.
  - destruct Hkeep as [Hwait|Hfalse];
      [|by rewrite (remove_player_false _ _ _ Hfalse)].
    rewrite remove_player_not_playing by (by rewrite Hwait).
    destruct (list_find _ _) as [[i p]|]; simpl; [|done].
    rewrite Hwait. specialize (IHw Hwait).
    split; [done|]. split; [by left|done].
  - apply turn_index_after_place_fence in Hpf
      as [->|(Hstate & Hlen & Hnw & Hidx)]; [done|].
    split; [done|]. rewrite Hlen in *. specialize (IHp Hstate).
    split; [|done]. destruct Hidx as [->|?]; [|auto]. lia.
  - by apply check_inactivity_cases in Hci as [[_ ->]|[? _]].
  - destruct (end_game_frame g now) as (_ & _ & Hidx & _).
    rewrite end_game_state, end_game_length, Hidx. done.
Qed.

(** X18. In a run in which no player leaves a game that has started, a
    game that is being played has at least two players and a player to
    move: [get_current_player] returns the player at the turn index. *)
Theorem playing_game_has_a_player_to_move g :
  reachable_keeping_players g →
  state g = GAME_STATE_PLAYING →
  (2 ≤ length (players g))%nat ∧
  ∃ p, players g !! current_player_idx g = Some p ∧
       get_current_player g = Ok (Some p).
Proof.
  intros (_ & Hidx & Hlen)%keeping_players_turn_index Hstate.
  specialize (Hlen Hstate). split; [done|].
  apply get_current_player_in. lia.
Qed.

End PlayerToMove.

Lemma playing_game_has_a_player_to_move_witness :
  (2 ≤ length (players Sample.bob_claimed))%nat ∧
  ∃ p, players Sample.bob_claimed
         !! current_player_idx Sample.bob_claimed = Some p ∧
       get_current_player Sample.bob_claimed = Ok (Some p).
Proof.
  apply (playing_game_has_a_player_to_move (H := sample_constants)).
  - apply bob_claimed_keeping_players.
  - reflexivity.
Defined.

(** ** The record of a move *)

Section MoveRecord.
Context `{Constants}.
Import Land.

(** X19. A successful move appends to the history a [fence_placed] entry,
    followed, when cells were claimed, by a [land_claimed] entry with the
    claimed cells and their summed value, itself followed by a [game_over]
    entry when the move leaves no cell unclaimed; nothing else is
    recorded. *)
Theorem move_is_recorded g player_id row col orientation clock claimed g' :
  place_fence g player_id row col orientation clock = Ok (true, claimed, g') →
  get_replay g'
  = get_replay g
    ++ fence_placed player_id row col orientation (clock 3%nat)
       :: if decide (claimed = []) then []
          else land_claimed player_id claimed
                 (claimed_value (land_cells g) claimed) (clock 5%nat)
               :: if unclaimed_lands g' =? 0
                  then [game_over (clock 6%nat)]
                  else [].
Proof.
  intros Hpf. unfold get_replay.
  rewrite (place_fence_history _ _ _ _ _ _ _ _ Hpf).
  apply place_fence_outcome in Hpf
    as (_ & _ & _ & _ & _ & _ & _ & _ & _ & _ & _ & -> & _).
  done.
Qed.

End MoveRecord.

(** ** The order of the turns *)

Section TurnOrder.

(** Turns go round the roster: [k] calls of [next_turn] move the turn index
    [k] places forward, modulo the number of players. *)
Lemma next_turns_index g (nows : list Z) :
  players g ≠ [] →
  (current_player_idx g < length (players g))%nat →
  let g' := foldl next_turn g nows in
  players g' = players g ∧
  current_player_idx g'
  = ((current_player_idx g + length nows) `mod` length (players g))%nat.
Proof.
  intros Hne. revert g Hne.
  induction nows as [|now nows IH]; intros g Hne Hlt; simpl.
  - split; [done|]. rewrite Nat.add_0_r. symmetry. by apply Nat.mod_small.
  - assert (Hlen : length (players g) ≠ 0%nat)
      by (by destruct (players g)).
    destruct (IH (next_turn g now)) as [Hps Hidx].
    + unfold next_turn. by rewrite bool_decide_eq_false_2.
    + unfold next_turn. rewrite bool_decide_eq_false_2 by done. simpl.
      by apply Nat.mod_upper_bound.
    + rewrite Hps, Hidx. unfold next_turn.
      rewrite bool_decide_eq_false_2 by done. simpl. split; [done|].
      rewrite Nat.Div0.add_mod_idemp_l. f_equal. lia.
Qed.

(** X20. Turns go round the roster: on a game with a player at the turn
    index, [k] calls of [next_turn] move the turn index [k] places forward
    modulo the number of players, so that as many calls as there are
    players bring the turn back to the same player. *)
Theorem next_turn_round_robin g (nows : list Z) :
  (current_player_idx g < length (players g))%nat →
  current_player_idx (foldl next_turn g nows)
  = ((current_player_idx g + length nows) `mod` length (players g))%nat ∧
  (length nows = length (players g) →
   current_player_idx (foldl next_turn g nows) = current_player_idx g).
Proof.
  intros Hlt.
  assert (Hne : players g ≠ []).
  { intros Hnil. rewrite Hnil in Hlt. simpl in Hlt. lia. }
  destruct (next_turns_index g nows Hne Hlt) as [_ Hidx].
  split; [done|]. intros Hk. rewrite Hidx, Hk.
  rewrite <- Nat.Div0.add_mod_idemp_r, Nat.Div0.mod_same, Nat.add_0_r.
  by apply Nat.mod_small.
Qed.

End TurnOrder.

Lemma move_is_recorded_witness :
  get_replay Sample.bob_claimed
  = get_replay Sample.three_fences
    ++ [fence_placed "b" 0 1 "vertical" 2; land_claimed "b" [(0, 0)] 5 2].
Proof.
  apply (move_is_recorded (H := sample_constants) Sample.three_fences
           "b" 0 1 "vertical" (Sample.at_time 2) [(0, 0)] Sample.bob_claimed).
  vm_compute. reflexivity.
Defined.

Lemma next_turn_round_robin_witness :
  current_player_idx (foldl next_turn Sample.two_players [5; 6])
  = current_player_idx Sample.two_players.
Proof.
  apply (next_turn_round_robin Sample.two_players [5; 6]).
  - vm_compute. lia.
  - reflexivity.
Defined.

(** ** Before the game starts *)

Section Waiting.
Context `{Constants}.

(** One call of the engine does not bring a game back to the waiting
    state. *)
Lemma step_not_waiting g g' :
  step g g' → state g ≠ GAME_STATE_WAITING → state g' ≠ GAME_STATE_WAITING.
Proof.
  destruct 1 as [g player clock|g pid now
                |g pid row col o clock ok claimed g' Hpf
                |g clock ok g' Hci|g now]; intros Hstate.
  - unfold add_player. repeat case_match; done.
  - unfold remove_player. destruct (list_find _ _) as [[i p]|]; [|done].
    simpl. destruct (decide (state g = _)); simpl;
      destruct (_ && _); done.
  - by apply turn_index_after_place_fence in Hpf as [->|(_ & _ & ? & _)].
  - apply check_inactivity_cases in Hci as [[_ ->]|(_ & Hplay & pid & ->)];
      [done|].
    unfold remove_player. destruct (list_find _ _) as [[i p]|]; [|done].
    simpl. rewrite decide_True by done. simpl. destruct (_ && _); done.
  - by rewrite end_game_state.
Qed.

(** X21. A game never returns to the waiting state: once it has left it,
    no sequence of engine calls brings it back. *)
Theorem never_back_to_waiting g g' :
  rtc step g g' →
  state g ≠ GAME_STATE_WAITING → state g' ≠ GAME_STATE_WAITING.
Proof.
  induction 1 as [g|g g1 g' Hstep _ IH]; [done|].
  intros Hstate. by apply IH, (step_not_waiting g).
Qed.

(** X22. A game of a run that is still waiting is untouched: it has
    fewer than two players, all with a score of 0, the turn index is 0, the
    history is empty, no fence is set, no cell has an owner and
    [unclaimed_lands] is the number of cells. *)
Theorem waiting_game_is_untouched g :
  reachable g → state g = GAME_STATE_WAITING →
  (length (players g) < 2)%nat ∧
  Forall (λ p, Player.score p = 0) (players g) ∧
  current_player_idx g = 0%nat ∧
  get_replay g = [] ∧
  Forall (Forall (λ fence, fence = false)) (horizontal_fences g) ∧
  Forall (Forall (λ fence, fence = false)) (vertical_fences g) ∧
  Forall (Forall (λ cell, LandCell.owner cell = None)) (land_cells g) ∧
  unclaimed_lands g = grid_size g * grid_size g.
Proof.
  unfold get_replay.
  induction 1 as [| g name_ pid fresh now clock _ IH
                  | g pid now _ IH
                  | g pid row col o clock ok claimed g' Hreach IH Hpf
                  | g clock ok g' Hreach IH Hci
                  | g now _ IH].
  - intros _. simpl. split; [lia|]. split; [constructor|].
    do 2 (split; [done|]).
    split; [apply Forall_replicate, Forall_replicate; done|].
    split; [apply Forall_replicate, Forall_replicate; done|].
    split; [apply distribute_land_types_unowned|done].
  - unfold add_player. case_match; [|done]. simpl.
    destruct (Z.leb_spec 2
      (Z.of_nat (length (players g ++ [Player.init name_ pid fresh now]))))
      as [|Hlt]; simpl; [done|].
    intros Hstate. destruct (IH Hstate) as (_ & Hscores & Hrest).
    split; [lia|]. split; [|done].
    apply Forall_app. split; [done|]. by repeat constructor.
  - destruct (decide (state g = GAME_STATE_PLAYING)) as [Hplay|Hplay].
    + unfold remove_player. destruct (list_find _ _) as [[i p]|];
        [|simpl; congruence].
      simpl. rewrite decide_True by done. simpl. destruct (_ && _); done.
    + rewrite remove_player_not_playing by done.
      destruct (list_find _ _) as [[i p]|]; [|done]. simpl.
      intros Hstate. destruct (IH Hstate) as (Hlen & Hscores & Hrest).
      split; [pose proof (length_delete_le i (players g)); simpl; lia|].
      split; [by apply Forall_delete|done].
  - apply turn_index_after_place_fence in Hpf as [->|(_ & _ & ? & _)]; done.
  - apply check_inactivity_cases in Hci as [[_ ->]|(_ & Hplay & pid & ->)];
      [done|].
    unfold remove_player. destruct (list_find _ _) as [[i p]|];
      [|simpl; congruence].
    simpl. rewrite decide_True by done. simpl. destruct (_ && _); done.
  - by rewrite end_game_state.
Qed.

(** X23. Leaving a game that is not being played (waiting or finished)
    only takes the first player with the given id off the roster: nobody's
    statistics change, the state stays as it is and nothing is recorded.
    For an unknown id the call returns [False] and changes nothing. *)
Theorem remove_player_outside_play g player_id now :
  state g ≠ GAME_STATE_PLAYING →
  (player_id ∉ Player.id <$> players g →
   remove_player g player_id now = (false, g, None)) ∧
  (player_id ∈ Player.id <$> players g →
   ∃ i leaver,
     list_find (λ p, Player.id p = player_id) (players g) = Some (i, leaver) ∧
     remove_player g player_id now
     = (true, with_players (delete i (players g)) g, Some leaver)).
Proof.
  intros Hstate. split; [apply remove_player_absent|].
  intros (q & Hid & Hq)%list_elem_of_fmap.
  destruct (list_find_elem_of (λ p, Player.id p = player_id) (players g) q)
    as [[i leaver] Hfind]; [done..|].
  exists i, leaver. split; [done|].
  by rewrite remove_player_not_playing, Hfind.
Qed.

End Waiting.

Lemma never_back_to_waiting_witness :
  state Sample.alice_left ≠ GAME_STATE_WAITING.
Proof.
  apply (never_back_to_waiting (H := sample_constants) Sample.two_players).
  - apply sample_departure.
  - discriminate.
Defined.

Lemma waiting_game_is_untouched_witness :
  (length (players Sample.one_player) < 2)%nat ∧
  Forall (λ p, Player.score p = 0) (players Sample.one_player) ∧
  current_player_idx Sample.one_player = 0%nat ∧
  get_replay Sample.one_player = [] ∧
  Forall (Forall (λ fence, fence = false))
         (horizontal_fences Sample.one_player) ∧
  Forall (Forall (λ fence, fence = false))
         (vertical_fences Sample.one_player) ∧
  Forall (Forall (λ cell, LandCell.owner cell = None))
         (land_cells Sample.one_player) ∧
  unclaimed_lands Sample.one_player
  = grid_size Sample.one_player * grid_size Sample.one_player.
Proof.
  apply (waiting_game_is_untouched (H := sample_constants)).
  - apply (reach_add_player _ "alice" None "a" 1 (Sample.at_time 1)).
    apply reach_init.
  - reflexivity.
Defined.

Lemma remove_player_outside_play_witness :
  ∃ i leaver,
    list_find (λ p, Player.id p = "a") (players Sample.one_player)
    = Some (i, leaver) ∧
    remove_player Sample.one_player "a" 4
    = (true, with_players (delete i (players Sample.one_player))
               Sample.one_player, Some leaver).
Proof.
  apply (remove_player_outside_play Sample.one_player "a" 4).
  - discriminate.
  - vm_compute. apply list_elem_of_here.
Defined.

(** ** Saving and restoring players and cells *)

Section Dictionaries.
Context `{Constants}.

(** X24. Restoring a player or a land cell from the dictionary [to_dict]
    made of it gives it back unchanged: every field is written and read
    again, and none of the defaults of [from_dict] (a new uuid, the current
    time, the regular land type and value) is used. *)
Theorem player_and_cell_round_trip :
  (∀ p fresh now, Player.from_dict (Player.to_dict p) fresh now = p) ∧
  (∀ c, LandCell.from_dict (LandCell.to_dict c) = c).
Proof.
  split; [intros p fresh now; apply player_round_trip|].
  intros c. apply cell_round_trip.
Qed.

End Dictionaries.

(** ** The history and the grid *)

Section Replay.
Context `{Constants}.
Import Land Grid.

(** A step that is not a successful move leaves the grid alone and records
    no move. *)
Lemma step_records g g' :
  step g g' →
  (horizontal_fences g' = horizontal_fences g ∧
   vertical_fences g' = vertical_fences g ∧
   land_cells g' = land_cells g ∧
   ∃ events, game_history g' = game_history g ++ events ∧
             Forall (λ e, ¬ is_move e) events)
  ∨
  (∃ player_id row col orientation clock claimed,
     place_fence g player_id row col orientation clock
     = Ok (true, claimed, g')).
Proof.
  assert (Hnone : ∀ g0 : t, ∃ events,
            game_history g0 = game_history g0 ++ events ∧
            Forall (λ e, ¬ is_move e) events).
  { intros g0. exists []. by rewrite app_nil_r. }
  assert (Hremove : ∀ g0 pid now,
    ∃ events,
      game_history (remove_player g0 pid now).1.2 = game_history g0 ++ events ∧
      Forall (λ e, ¬ is_move e) events).
  { intros g0 pid now. unfold remove_player.
    destruct (list_find _ _) as [[i p]|]; simpl; [|apply Hnone].
    destruct (decide (state g0 = _)); simpl; destruct (_ && _); simpl;
      try apply Hnone;
      (exists [player_left pid now]; split; [done|];
       repeat constructor; simpl; auto). }
  destruct 1 as [g player clock|g pid now
                |g pid row col o clock ok claimed g' Hpf
                |g clock ok g' Hci|g now].
  - left. destruct (add_player_frame g player clock) as (? & ? & ? & _).
    do 3 (split; [done|]). exists []. rewrite app_nil_r. split; [|done].
    unfold add_player. repeat case_match; done.
  - left. destruct (remove_player_keeps_grid g pid now) as (_ & ? & ? & ? & _).
    do 3 (split; [done|]). apply Hremove.
  - destruct ok; [right; eauto 10|left].
    apply place_fence_false in Hpf as (_ & [->|(_ & _ & _ & ->)]).
    + do 3 (split; [done|]). apply Hnone.
    + destruct (next_turn_frame g (clock 1%nat))
        as (_ & _ & ? & _ & Hhist & _ & _ & ? & ?).
      do 3 (split; [done|]). rewrite Hhist. apply Hnone.
  - left. apply check_inactivity_cases in Hci
      as [[_ ->]|(_ & _ & pid & ->)].
    + do 3 (split; [done|]). apply Hnone.
    + destruct (remove_player_keeps_grid g pid (clock 1%nat))
        as (_ & ? & ? & ? & _).
      do 3 (split; [done|]). apply Hremove.
  - left. destruct (end_game_frame g now) as (_ & _ & _ & ? & ? & ? & _).
    do 3 (split; [done|]). rewrite end_game_history.
    eexists. split; [done|].
    case_decide; repeat constructor. simpl. auto.
Qed.

(** The entries a successful move appends. *)
Lemma place_fence_fence_events g player_id row col orientation clock claimed
    g' p r c o t :
  place_fence g player_id row col orientation clock = Ok (true, claimed, g') →
  fence_placed p r c o t ∈ game_history g' ↔
  fence_placed p r c o t ∈ game_history g ∨
  (p = player_id ∧ r = row ∧ c = col ∧ o = orientation ∧ t = clock 3%nat).
Proof.
  intros Hpf. rewrite (place_fence_history _ _ _ _ _ _ _ _ Hpf).
  rewrite elem_of_app, elem_of_cons. split.
  - intros [?|[[= -> -> -> -> ->]|Hrest]]; [auto|auto 10|].
    case_decide; [by apply elem_of_nil in Hrest|].
    apply elem_of_cons in Hrest as [[=]|Hrest].
    case_match; [|by apply elem_of_nil in Hrest].
    by apply list_elem_of_singleton in Hrest.
  - intros [?|(-> & -> & -> & -> & ->)]; auto.
Qed.

Lemma place_fence_claim_events g player_id row col orientation clock claimed
    g' p lands v t :
  place_fence g player_id row col orientation clock = Ok (true, claimed, g') →
  land_claimed p lands v t ∈ game_history g' ↔
  land_claimed p lands v t ∈ game_history g ∨
  (claimed ≠ [] ∧ p = player_id ∧ lands = claimed ∧
   v = claimed_value (land_cells g) claimed ∧ t = clock 5%nat).
Proof.
  intros Hpf. rewrite (place_fence_history _ _ _ _ _ _ _ _ Hpf).
  rewrite elem_of_app, elem_of_cons. split.
  - intros [?|[[=]|Hrest]]; [auto|].
    case_decide; [by apply elem_of_nil in Hrest|].
    apply elem_of_cons in Hrest as [[= -> -> -> ->]|Hrest]; [auto 10|].
    case_match; [|by apply elem_of_nil in Hrest].
    by apply list_elem_of_singleton in Hrest.
  - intros [?|(Hne & -> & -> & -> & ->)]; [auto|]. right. right.
    rewrite decide_False by done. apply list_elem_of_here.
Qed.

(** X25. The history of a game of a run accounts for its grid: a
    horizontal or vertical fence is set exactly when the history has a
    [fence_placed] entry for its slot, and a cell has an owner exactly when
    it is among the lands of a [land_claimed] entry. *)
Theorem replay_accounts_for_the_grid g (i j : nat) :
  reachable g →
  (entry (horizontal_fences g) i j = Some true ↔
   ∃ player_id time,
     fence_placed player_id (Z.of_nat i) (Z.of_nat j)
                  ORIENTATION_HORIZONTAL time ∈ get_replay g) ∧
  (entry (vertical_fences g) i j = Some true ↔
   ∃ player_id time,
     ORIENTATION_VERTICAL ≠ ORIENTATION_HORIZONTAL ∧
     fence_placed player_id (Z.of_nat i) (Z.of_nat j)
                  ORIENTATION_VERTICAL time ∈ get_replay g) ∧
  (owned g i j ↔
   ∃ player_id lands score_gained time,
     land_claimed player_id lands score_gained time ∈ get_replay g ∧
     (Z.of_nat i, Z.of_nat j) ∈ lands).
Proof.
  intros Hreach. revert i j. revert g Hreach. unfold get_replay.
  apply (reachable_by_steps (λ g, ∀ i j : nat,
    (entry (horizontal_fences g) i j = Some true ↔
     ∃ player_id time,
       fence_placed player_id (Z.of_nat i) (Z.of_nat j)
                    ORIENTATION_HORIZONTAL time ∈ game_history g) ∧
    (entry (vertical_fences g) i j = Some true ↔
     ∃ player_id time,
       ORIENTATION_VERTICAL ≠ ORIENTATION_HORIZONTAL ∧
       fence_placed player_id (Z.of_nat i) (Z.of_nat j)
                    ORIENTATION_VERTICAL time ∈ game_history g) ∧
    (owned g i j ↔
     ∃ player_id lands score_gained time,
       land_claimed player_id lands score_gained time ∈ game_history g ∧
       (Z.of_nat i, Z.of_nat j) ∈ lands))).
  - intros gs mp gid fresh tt lt i j. simpl. split; [|split].
    + split; [by intros ?%entry_replicate|].
      by intros (? & ? & ?%elem_of_nil).
    + split; [by intros ?%entry_replicate|].
      by intros (? & ? & _ & ?%elem_of_nil).
    + split.
      * intros (cell & k & Hcell & Hk). simpl in Hcell.
        apply (entry_Forall _ _ _ _ _
                 (distribute_land_types_unowned gs lt)) in Hcell.
        congruence.
      * by intros (? & ? & ? & ? & ?%elem_of_nil & _).
  - intros g g' _ IH
      [(Hh & Hv & Hc & events & Hhist & Hevents)
      |(pid & row & col & o & clock & claimed & Hpf)]%step_records i j.
    + destruct (IH i j) as (IHh & IHv & IHo). unfold owned in *.
      rewrite Hh, Hv, Hc, Hhist, IHh, IHv, IHo.
      assert (Hold : ∀ e, is_move e →
                e ∈ game_history g ++ events ↔ e ∈ game_history g).
      { intros e He. rewrite elem_of_app. split; [|auto].
        intros [?|Hin]; [done|].
        eapply list.Forall_forall in Hevents; [|done]. done. }
      split; [|split].
      * by setoid_rewrite (Hold (fence_placed _ _ _ _ _) I).
      * by setoid_rewrite (Hold (fence_placed _ _ _ _ _) I).
      * by setoid_rewrite (Hold (land_claimed _ _ _ _) I).
    + pose proof (λ p r c o' t,
        place_fence_fence_events _ _ _ _ _ _ _ _ p r c o' t Hpf) as Hfence.
      pose proof (λ p lands v t,
        place_fence_claim_events _ _ _ _ _ _ _ _ p lands v t Hpf) as Hclaim.
      apply place_fence_outcome in Hpf
        as (g1 & _ & Hset & _ & _ & Hscan & Hh & Hv & _ & Hentries & _).
      pose proof Hset as (_ & _ & _ & Hcells1 & _)%set_fence_frame.
      apply set_fence_entries in Hset as (Hrow & Hcol & Hh1 & Hv1 & _).
      destruct (IH i j) as (IHh & IHv & IHo).
      split; [|split].
      * rewrite Hh, Hh1, IHh. setoid_rewrite Hfence. split.
        -- intros [(p & t & Hin)|(-> & -> & ->)]; [eauto|].
           exists pid, (clock 3%nat). right.
           rewrite !Z2Nat.id by lia. done.
        -- intros (p & t & [Hin|(-> & Hr & Hc' & Ho & ->)]); [eauto|].
           right. split; [done|]. lia.
      * rewrite Hv, Hv1, IHv. setoid_rewrite Hfence. split.
        -- intros [(p & t & Hne & Hin)|(Hne & -> & -> & ->)]; [eauto 10|].
           exists pid, (clock 3%nat). split; [done|]. right.
           rewrite !Z2Nat.id by lia. done.
        -- intros (p & t & Hne & [Hin|(-> & Hr & Hc' & Ho & ->)]);
             [eauto 10|].
           right. rewrite <- Ho. do 2 (split; [done|]). lia.
      * unfold owned in *. rewrite Hentries. setoid_rewrite Hclaim.
        case_decide as Hin.
        -- split; [|intros _].
           ++ intros _. exists pid, claimed. eexists _, _. split; [|done].
              right. split; [|done]. intros ->. by apply elem_of_nil in Hin.
           ++ rewrite Hscan in Hin.
              apply scan_positions in Hin as (_ & _ & (cell & Hcell & _) & _).
              rewrite Hcells1 in Hcell. rewrite Hcell. simpl. eauto.
        -- rewrite IHo. split.
           ++ intros (p & lands & v & t & ? & ?). exists p, lands, v, t. auto.
           ++ intros (p & lands & v & t & [?|(_ & _ & -> & _)] & ?);
                [eauto 10|done].
Qed.

End Replay.

Lemma replay_accounts_for_the_grid_witness :
  ∃ player_id lands score_gained time,
    land_claimed player_id lands score_gained time
      ∈ get_replay Sample.bob_claimed ∧
    (Z.of_nat 0, Z.of_nat 0) ∈ lands.
Proof.
  apply (replay_accounts_for_the_grid (H := sample_constants)
           Sample.bob_claimed 0 0 bob_claimed_reachable).
  eexists _, _. split; vm_compute; reflexivity.
Defined.
